(** * Checkpointed batch clue generation (backend/scripts/generate_clues.py)

    A shallow embedding of the batch clue generator and the properties its
    specification states about it.  The Python script is sequential; its
    effects (requests to the generation service, sleeps, writes to the two
    JSON artifacts) are logged as a trace of events, exceptions are the
    [Raise] result, and the file system is a finite map from paths to file
    contents on which a trace is replayed.  The writes to a file that is
    open go through a buffer, so what a killed run leaves on the disk is a
    relation of its own, [on_disk].

    What the script takes from outside is a parameter: the answers of the
    service, the [json] module of the Python library (decoder and encoder),
    the outcome of the argument parser, the dataset [load_dictionary]
    returns, the clock.  Failures of the
    operating system (a disk that is full, a file that cannot be opened) are
    not modelled.

    The file also embeds [process_dictionary.py], the script that writes the
    dataset the generator reads, and the unwrapping of a fenced answer. *)

From stdpp Require Import gmap strings list pretty sorting.

Local Open Scope Z_scope.
Local Set Warnings "-register-all,-clear-no-such-hyp".

(** ** Python values *)

(** The values [json.loads] can return.  A Python [dict] keeps its insertion
    order, so an object is an association list; a float is kept by its
    printed form, nothing here computes with one.  The characters of a
    [string] stand for the characters of a Python [str]. *)
Inductive json :=
| JNull
| JBool (b : bool)
| JInt (n : Z)
| JFloat (repr : string)
| JStr (s : string)
| JArr (items : list json)
| JObj (fields : list (string * json)).

(** The exceptions of the script. *)
Inductive exn :=
| JSONDecodeError
| APIError
| TypeError
| AttributeError
| KeyError
| IndexError
| SystemExit (code : Z).

Inductive result (A : Type) :=
| Return (a : A)
| Raise (e : exn).
Arguments Return {A} a.
Arguments Raise {A} e.

(** ** Effects *)

(** What the script does to the outside world.  [Sleep] is [time.sleep] with
    a whole number of seconds (the retry delays); the fixed half-second pause
    between batches is an event of its own. *)
Inductive event :=
| Request (words : list string)
| Sleep (seconds : Z)
| InterBatchPause
| OpenW (path : string)
| Write (path chunk : string)
| Remove (path : string).

(** A computation logs its events and returns or raises. *)
Definition M (A : Type) : Type := list event * result A.

Definition ret {A} (a : A) : M A := ([], Return a).
Definition raise {A} (e : exn) : M A := ([], Raise e).
Definition emit (es : list event) : M unit := (es, Return tt).
Definition lift {A} (r : result A) : M A := ([], r).

Definition bind {A B} (m : M A) (k : A → M B) : M B :=
  match m with
  | (tr, Return a) => let '(tr', r) := k a in (tr ++ tr', r)
  | (tr, Raise e) => (tr, Raise e)
  end.

Notation "'let*' x := m 'in' k" := (bind m (λ x, k))
  (at level 10, x name, m at level 100, k at level 200, only parsing).

(** The same sequencing for code that has no effect. *)
Definition rbind {A B} (r : result A) (k : A → result B) : result B :=
  match r with
  | Return a => k a
  | Raise e => Raise e
  end.

Fixpoint rmap {A B} (f : A → result B) (l : list A) : result (list B) :=
  match l with
  | [] => Return []
  | x :: l' => rbind (f x) (λ y, rbind (rmap f l') (λ ys, Return (y :: ys)))
  end.

(** ** Constants of the script *)

(** Paths are written relative to [DATA_DIR]. *)
Definition OUTPUT_FILE : string := "dictionary-with-clues.json".
Definition INPUT_FILE : string := OUTPUT_FILE.
Definition PROGRESS_FILE : string := "clue-generation-progress.json".

Definition BATCH_SIZE : nat := 100.
Definition MODEL : string := "claude-3-5-haiku-20241022".
Definition MAX_RETRIES : nat := 3.
Definition RETRY_DELAY : Z := 5.

(** ** Dictionaries and sequences *)

Definition dict := list (string * json).

Fixpoint dict_get (d : dict) (k : string) : option json :=
  match d with
  | [] => None
  | (k', v) :: d' => if decide (k' = k) then Some v else dict_get d' k
  end.

(** [d[k] = v]: the value is replaced where the key stands, a new key goes
    to the end. *)
Fixpoint dict_set (d : dict) (k : string) (v : json) : dict :=
  match d with
  | [] => [(k, v)]
  | (k', v') :: d' =>
      if decide (k' = k) then (k, v) :: d' else (k', v') :: dict_set d' k v
  end.

Definition dict_keys (d : dict) : list string := d.*1.

(** [len(v)]. *)
Definition py_len (v : json) : result nat :=
  match v with
  | JStr s => Return (String.length s)
  | JArr l => Return (length l)
  | JObj d => Return (length d)
  | _ => Raise TypeError
  end.

(** [v[k]] for a string key. *)
Definition getitem (v : json) (k : string) : result json :=
  match v with
  | JObj d =>
      match dict_get d k with
      | Some x => Return x
      | None => Raise KeyError
      end
  | _ => Raise TypeError
  end.

(** [v[k] = x] for a string key. *)
Definition setitem (v : json) (k : string) (x : json) : result json :=
  match v with
  | JObj d => Return (JObj (dict_set d k x))
  | _ => Raise TypeError
  end.

(** What a [for] loop (or [zip]) sees of a value: the items of a list, the
    characters of a string, the keys of a dict. *)
Definition py_iter (v : json) : result (list json) :=
  match v with
  | JArr l => Return l
  | JStr s => Return ((λ c, JStr (String c EmptyString)) <$> String.list_ascii_of_string s)
  | JObj d => Return (JStr <$> dict_keys d)
  | _ => Raise TypeError
  end.

(** [l[i]] on a list: a negative index counts from the end. *)
Definition py_index (n : nat) (i : Z) : option nat :=
  if decide (0 ≤ i < Z.of_nat n) then Some (Z.to_nat i)
  else if decide (- Z.of_nat n ≤ i < 0) then Some (Z.to_nat (Z.of_nat n + i))
  else None.

Definition list_getitem {A} (l : list A) (i : Z) : result A :=
  match py_index (length l) i with
  | Some p =>
      match l !! p with
      | Some x => Return x
      | None => Raise IndexError
      end
  | None => Raise IndexError
  end.

(** [l[lo:hi]] for non-negative bounds. *)
Definition py_slice {A} (l : list A) (lo hi : nat) : list A := drop lo (take hi l).

(** [range(lo, hi)]. *)
Definition py_range (lo hi : Z) : list Z := seqZ lo (hi - lo).

(** [str(i)] of an integer. *)
Definition py_str (i : Z) : string := pretty i.

(** ** The artifacts *)

(** An entry of the dictionary, as [process_dictionary.py] writes it:
    [{word, clue, length, distinctLetters}], in this order of keys; the clue
    may be missing. *)
Record word_entry := {
  word : string;
  clue : option json;
  word_length : Z;
  distinctLetters : Z
}.

Record dataset := {
  metadata : dict;
  words : list word_entry
}.

Definition entry_json (e : word_entry) : json :=
  JObj ([("word", JStr (word e))]
        ++ match clue e with Some c => [("clue", c)] | None => [] end
        ++ [("length", JInt (word_length e));
            ("distinctLetters", JInt (distinctLetters e))]).

Definition dataset_json (d : dataset) : json :=
  JObj [("metadata", JObj (metadata d)); ("words", JArr (entry_json <$> words d))].

(** The file system: the content of each file that exists. *)
Definition apply_event (fs : gmap string string) (e : event) : gmap string string :=
  match e with
  | OpenW p => <[p := ""]> fs
  | Write p chunk => alter (λ s, s +:+ chunk) p fs
  | Remove p => delete p fs
  | _ => fs
  end.

(** The files as the program has written them: every [Write] counted as
    done.  This is what the disk holds once the file that was written is
    closed. *)
Definition replay (fs : gmap string string) (tr : list event) : gmap string string :=
  foldl apply_event fs tr.

(** [s] is the beginning of [t]. *)
Definition is_prefix (s t : string) : Prop := ∃ r, t = s +:+ r.

(** The file a trace is in the middle of writing: the path of its last
    [OpenW] when nothing but writes to that path has followed.  The scripts
    write inside a [with open(...)] block, so any other event comes after
    the file is closed. *)
Fixpoint open_file_from (cur : option string) (tr : list event) : option string :=
  match tr with
  | [] => cur
  | OpenW p :: tr' => open_file_from (Some p) tr'
  | Write p _ :: tr' =>
      open_file_from (if decide (cur = Some p) then cur else None) tr'
  | _ :: tr' => open_file_from None tr'
  end.

Definition open_file (tr : list event) : option string := open_file_from None tr.

(** What the disk can hold when the process is killed after the events
    [tr].  [open(p, 'w')] empties the file at once; what is written to it
    then waits in a buffer and reaches the disk from the front, when the
    buffer is full or the file is closed.  So the file that is open holds
    some beginning, the empty one too, of what has been written to it, and
    every other file is as written. *)
Definition on_disk (fs : gmap string string) (tr : list event)
    (disk : gmap string string) : Prop :=
  match open_file tr with
  | Some p =>
      ∃ s written,
        replay fs tr !! p = Some written
        ∧ is_prefix s written
        ∧ disk = <[p := s]> (replay fs tr)
  | None => disk = replay fs tr
  end.

(** One call of [client.messages.create] followed by the unwrapping of lines
    91-98: either [anthropic.APIError] is raised or [content] is the text
    handed to [json.loads].  These are the outcomes the [try] of line 83 is
    written for; a response without a first text block, which raises at
    line 91 and leaves the function, is not among them. *)
Inductive reply :=
| RaisesAPIError
| Responds (content : string).

(** The command line. *)
Record args := {
  api_key : option string;
  start : Z;
  limit : option Z;
  dry_run : bool
}.

(** The variables of [main]'s loop: [words] is [data['words']], the same
    list object. *)
Record run_state := {
  data : dataset;
  progress : json;
  clues_cache : json;
  completed_set : gset Z
}.

Definition fallback_clue (w : string) : json := JStr ("Define: " +:+ w).

(** The [while] loop of line 105; every turn makes [clues] longer, so
    [length words] turns are enough. *)
Fixpoint pad (fuel : nat) (words : list string) (clues : list json) : list json :=
  match fuel with
  | O => clues
  | S fuel' =>
      if decide (length clues < length words)%nat then
        match words !! length clues with
        | Some w => pad fuel' words (clues ++ [fallback_clue w])
        | None => clues
        end
      else clues
  end.

(** Lines 102-109.  [clues.append] exists on a list only, and a dict cannot
    be sliced (TypeError; KeyError from Python 3.12 on). *)
Definition correct_length (words : list string) (clues : json) : result json :=
  rbind (py_len clues) (λ n,
    if decide (n ≠ length words) then
      match clues with
      | JArr l => Return (JArr (take (length words) (pad (length words) words l)))
      | JStr s =>
          if decide (n < length words)%nat then Raise AttributeError
          else Return (JStr (String.substring 0 (length words) s))
      | JObj _ =>
          if decide (n < length words)%nat then Raise AttributeError
          else Raise TypeError
      | _ => Raise TypeError
      end
    else Return clues).

Definition py_truthy (o : option string) : bool :=
  match o with
  | Some s => negb (String.eqb s "")
  | None => false
  end.

(** [set(v)] for a list of integers, the [completed_indices] of the
    checkpoint artifact; any other value is taken as a TypeError. *)
Definition py_set (v : json) : result (gset Z) :=
  match v with
  | JArr l =>
      rbind (rmap (λ x, match x with JInt i => Return i | _ => Raise TypeError end) l)
            (λ ints, Return (list_to_set ints))
  | _ => Raise TypeError
  end.

Definition empty_progress : json :=
  JObj [("completed_indices", JArr []); ("clues", JObj [])].

(** Lines 156-160. [if args.limit] is false for a limit of 0 as for none. *)
Definition end_idx (total_words : nat) (a : args) : Z :=
  match limit a with
  | Some l =>
      if decide (l ≠ 0) then Z.min (Z.of_nat total_words) (l + start a)
      else Z.of_nat total_words
  | None => Z.of_nat total_words
  end.

Definition indices_to_process (total_words : nat) (completed : gset Z) (a : args) : list Z :=
  filter (λ i, i ∉ completed) (py_range (start a) (end_idx total_words a)).

(** Lines 174 and 182-184, for a batch size [B]. *)
Definition batch_count (B P : nat) : nat := ((P + B - 1) `div` B)%nat.

Definition batch_indices (B : nat) (indices : list Z) (batch_num : nat) : list Z :=
  let batch_start := (batch_num * B)%nat in
  let batch_end := ((batch_start + B) `min` length indices)%nat in
  py_slice indices batch_start batch_end.

Definition batches (B : nat) (indices : list Z) : list (list Z) :=
  batch_indices B indices <$> seq 0 (batch_count B (length indices)).

(** [words[idx]['clue'] = clue]. *)
Definition set_clue (e : word_entry) (c : json) : word_entry :=
  {| word := word e; clue := Some c;
     word_length := word_length e; distinctLetters := distinctLetters e |}.

Definition words_set_clue (ws : list word_entry) (idx : Z) (c : json)
  : result (list word_entry) :=
  match py_index (length ws) idx with
  | Some p =>
      match ws !! p with
      | Some e => Return (<[p := set_clue e c]> ws)
      | None => Raise IndexError
      end
  | None => Raise IndexError
  end.

(** One turn of the loop of lines 194-197. *)
Definition merge_one (st : run_state) (idx : Z) (c : json) : result run_state :=
  rbind (words_set_clue (words (data st)) idx c) (λ ws,
  rbind (setitem (clues_cache st) (py_str idx) c) (λ cache,
  Return {| data := {| metadata := metadata (data st); words := ws |};
            progress := progress st;
            clues_cache := cache;
            completed_set := {[idx]} ∪ completed_set st |})).

Fixpoint merge (st : run_state) (pairs : list (Z * json)) : result run_state :=
  match pairs with
  | [] => Return st
  | (idx, c) :: rest => rbind (merge_one st idx c) (λ st', merge st' rest)
  end.

(** Lines 219-220. *)
Definition stamp (now : string) (d : dataset) : dataset :=
  {| metadata := dict_set (dict_set (metadata d) "cluesGeneratedAt" (JStr now))
                          "cluesModel" (JStr MODEL);
     words := words d |}.

Section Script.
(** The [json] module of the Python library: [json_loads s] is [None] when
    [json.loads] raises [JSONDecodeError]; [json_dump indent v] is the
    sequence of chunks [json.dump] writes for [v]. *)
Variable json_loads : string → option json.
Variable json_dump : option nat → json → list string.

Definition load_progress (fs : gmap string string) : result json :=
  match fs !! PROGRESS_FILE with
  | Some content =>
      match json_loads content with
      | Some v => Return v
      | None => Raise JSONDecodeError
      end
  | None => Return empty_progress
  end.

Definition save_progress (progress : json) : list event :=
  OpenW PROGRESS_FILE :: (Write PROGRESS_FILE <$> json_dump None progress).

(** The [for attempt in range(MAX_RETRIES)] loop; [service attempt] is
    what the service does at that attempt.  An exception that is neither
    [JSONDecodeError] nor [APIError] leaves the function. *)
Fixpoint retry_loop (service : nat → reply) (words : list string)
    (attempts : list nat) : M json :=
  match attempts with
  | [] => ret (JArr (fallback_clue <$> words))
  | attempt :: rest =>
      let* _ := emit [Request words] in
      match service attempt with
      | Responds content =>
          match json_loads content with
          | Some clues => lift (correct_length words clues)
          | None =>
              let* _ := (if decide (attempt < MAX_RETRIES - 1)%nat
                         then emit [Sleep RETRY_DELAY] else ret tt) in
              retry_loop service words rest
          end
      | RaisesAPIError =>
          let* _ := (if decide (attempt < MAX_RETRIES - 1)%nat
                     then emit [Sleep (RETRY_DELAY * (Z.of_nat attempt + 1))]
                     else ret tt) in
          retry_loop service words rest
      end
  end.

Definition generate_clues_batch (service : nat → reply) (words : list string) : M json :=
  retry_loop service words (seq 0 MAX_RETRIES).

(** The body of the batch loop, lines 182-213 (the telemetry of lines
    204-209 computes with floats and has no effect on the state). *)
Definition run_batch (service : nat → reply) (B : nat) (indices : list Z)
    (count batch_num : nat) (st : run_state) : M run_state :=
  let batch := batch_indices B indices batch_num in
  let* batch_words := lift (rmap (λ i, rbind (list_getitem (words (data st)) i)
                                       (λ e, Return (word e))) batch) in
  (* batch_words[0] and batch_words[-1] in the progress line *)
  let* _ := lift (match batch_words with [] => Raise IndexError | _ => Return tt end) in
  let* clues := generate_clues_batch service batch_words in
  let* items := lift (py_iter clues) in
  let* st' := lift (merge st (zip batch items)) in
  let* progress1 := lift (setitem (progress st') "completed_indices"
                      (JArr (JInt <$> elements (completed_set st')))) in
  let* progress2 := lift (setitem progress1 "clues" (clues_cache st')) in
  let* _ := emit (save_progress progress2) in
  let* _ := (if decide (batch_num < count - 1)%nat then emit [InterBatchPause] else ret tt) in
  ret {| data := data st'; progress := progress2;
         clues_cache := clues_cache st'; completed_set := completed_set st' |}.

(** [for batch_num in range(batch_count)]; [service batch_num] is the
    service during that batch. *)
Fixpoint batch_loop (service : nat → nat → reply) (B : nat) (indices : list Z)
    (count : nat) (nums : list nat) (st : run_state) : M run_state :=
  match nums with
  | [] => ret st
  | batch_num :: rest =>
      let* st' := run_batch (service batch_num) B indices count batch_num st in
      batch_loop service B indices count rest st'
  end.

(** Lines 215-227, on the file system [fs] as the run has left it. *)
Definition final_commit (fs : gmap string string) (now : string) (d : dataset)
  : list event :=
  let written :=
    OpenW OUTPUT_FILE
    :: (Write OUTPUT_FILE <$> json_dump (Some 2%nat) (dataset_json (stamp now d))) in
  written ++
  (if decide (is_Some (replay fs written !! PROGRESS_FILE))
   then [Remove PROGRESS_FILE] else []).

(** Lines 140-213: everything before the final commit. *)
Definition main_loop (a : args) (d : dataset) (fs : gmap string string)
    (service : nat → nat → reply) : M (option run_state) :=
  let total_words := length (words d) in
  let* progress := lift (load_progress fs) in
  let* completed_set := lift (rbind (getitem progress "completed_indices") py_set) in
  let* clues_cache := lift (getitem progress "clues") in
  let indices := indices_to_process total_words completed_set a in
  if dry_run a then
    let* _ := lift (rmap (list_getitem (words d)) (take 10 indices)) in
    ret None
  else
    let count := batch_count BATCH_SIZE (length indices) in
    let* st := batch_loop service BATCH_SIZE indices count (seq 0 count)
           {| data := d; progress := progress;
              clues_cache := clues_cache; completed_set := completed_set |} in
    ret (Some st).

(** [main] once the command line is parsed and the dataset is loaded: [a]
    is what [parse_args] returned, [d] is what [load_dictionary] returned,
    [env_key] is the ANTHROPIC_API_KEY of the environment, [now] the time
    stamp of line 219.  [run_main] below has the lines before. *)
Definition main (a : args) (env_key : option string) (now : string)
    (d : dataset) (fs : gmap string string) (service : nat → nat → reply)
  : M unit :=
  let key := if py_truthy (api_key a) then api_key a else env_key in
  if negb (py_truthy key) && negb (dry_run a) then raise (SystemExit 1)
  else
    match main_loop a d fs service with
    | (tr, Return (Some st)) =>
        (tr ++ final_commit (replay fs tr) now (data st), Return tt)
    | (tr, Return None) => (tr, Return tt)
    | (tr, Raise e) => (tr, Raise e)
    end.

(** [main()] from its first line.  [parser.parse_args()] (lines 126-131)
    returns the arguments or leaves the script: [argparse] exits with
    status 2 for a command line it refuses and with status 0 after
    [--help]. *)
Inductive parse_outcome :=
| ParseExit (status : Z)
| Parsed (a : args).

(** [load_dictionary()] (line 142) returns the dataset, or [json.load]
    raises [JSONDecodeError] for a dataset file that does not decode. *)
Inductive load_outcome :=
| LoadRaises
| Loaded (d : dataset).

(** Lines 126-142 before [main]: the key is checked before the dataset is
    read. *)
Definition run_main (p : parse_outcome) (env_key : option string) (now : string)
    (l : load_outcome) (fs : gmap string string) (service : nat → nat → reply)
  : M unit :=
  match p with
  | ParseExit status => raise (SystemExit status)
  | Parsed a =>
      let key := if py_truthy (api_key a) then api_key a else env_key in
      if negb (py_truthy key) && negb (dry_run a) then raise (SystemExit 1)
      else
        match l with
        | LoadRaises => raise JSONDecodeError
        | Loaded d => main a env_key now d fs service
        end
  end.
End Script.

(** ** The text handed to the decoder

    Lines 91-98 of [generate_clues_batch]: the answer of the service is
    stripped and, when it starts with a Markdown code fence, cut down to
    what the fence holds. *)

(** [c.isspace()] for a character with a code below 256. *)
Definition py_isspace (c : Ascii.ascii) : bool :=
  let n := Ascii.nat_of_ascii c in
  ((9 <=? n) && (n <=? 13) || (28 <=? n) && (n <=? 32) || (n =? 133) || (n =? 160))%nat.

Fixpoint lstrip (s : string) : string :=
  match s with
  | String c s' => if py_isspace c then lstrip s' else s
  | EmptyString => EmptyString
  end.

Fixpoint rstrip (s : string) : string :=
  match s with
  | String c s' =>
      match rstrip s' with
      | EmptyString => if py_isspace c then EmptyString else String c EmptyString
      | r => String c r
      end
  | EmptyString => EmptyString
  end.

(** [s.strip()]. *)
Definition py_strip (s : string) : string := rstrip (lstrip s).

(** [s[n:]]. *)
Fixpoint py_drop (n : nat) (s : string) : string :=
  match n, s with
  | S n', String _ s' => py_drop n' s'
  | _, _ => s
  end.

Definition FENCE : string := "```".

(** The text before the first fence of [s], all of [s] when it has none. *)
Fixpoint before_fence (s : string) : string :=
  match s with
  | String c s' => if String.prefix FENCE s then EmptyString else String c (before_fence s')
  | EmptyString => EmptyString
  end.

(** [content.split(FENCE)[1]] for a [content] that starts with the fence:
    item 0 is empty, item 1 runs from behind the opening fence to the next
    one. *)
Definition split_fence_1 (content : string) : string :=
  before_fence (py_drop (String.length FENCE) content).

Definition unwrap (text : string) : string :=
  let content := py_strip text in
  if String.prefix FENCE content then
    let content := split_fence_1 content in
    let content := if String.prefix "json" content then py_drop 4 content else content in
    py_strip content
  else content.

(** The characters of a string. *)
Definition chars (s : string) : list Ascii.ascii := String.list_ascii_of_string s.

(** ** The dictionary processor (backend/scripts/process_dictionary.py)

    The script that writes the dataset the clue generator reads.  What
    [download_dictionary] returns is a parameter, and so is the clock. *)

Definition DICT_URL : string :=
  "https://gist.githubusercontent.com/deostroll/7693b6f3d48b44a89ee5f57bf750bd32/raw/426f564cf73b4c87d2b2c46ccded8a5b98658ce1/dictionary.txt".

(** The [stats] dict of [filter_words]; [total_output] is set when the loop
    is over. *)
Record filter_stats := {
  total_input : nat;
  removed_short : nat;
  removed_distinct : nat;
  removed_inappropriate : nat;
  removed_non_alpha : nat;
  total_output : nat
}.

Definition stats_json (s : filter_stats) : json :=
  JObj [("total_input", JInt (Z.of_nat (total_input s)));
        ("removed_short", JInt (Z.of_nat (removed_short s)));
        ("removed_distinct", JInt (Z.of_nat (removed_distinct s)));
        ("removed_inappropriate", JInt (Z.of_nat (removed_inappropriate s)));
        ("removed_non_alpha", JInt (Z.of_nat (removed_non_alpha s)));
        ("total_output", JInt (Z.of_nat (total_output s)))].

(** A [defaultdict(int)] with integer keys, in insertion order, and
    [d[k] += 1] on it. *)
Definition counter := list (nat * nat).

Fixpoint count_up (d : counter) (k : nat) : counter :=
  match d with
  | [] => [(k, 1%nat)]
  | (k', n) :: d' => if decide (k' = k) then (k', S n) :: d' else (k', n) :: count_up d' k
  end.

(** [sorted(d.items())]: the keys of a dict are distinct, so the pairs are
    sorted by key. *)
Definition key_le (x y : nat * nat) : Prop := (x.1 ≤ y.1)%nat.

Definition key_le_dec : RelDecision key_le := λ x y, decide (x.1 ≤ y.1)%nat.
#[global] Existing Instance key_le_dec.

Definition sorted_items (d : counter) : counter := merge_sort key_le d.

(** A dict with integer keys as [json.dump] writes it: the keys become
    strings. *)
Definition counter_json (d : counter) : json :=
  JObj ((λ kv, (py_str (Z.of_nat kv.1), JInt (Z.of_nat kv.2))) <$> d).

Definition generate_placeholder_clue (word : string) : string := "Define: " +:+ word.

(** The entry of lines 156-161. *)
Definition new_entry (word : string) (distinct_count : nat) : word_entry :=
  {| word := word;
     clue := Some (JStr (generate_placeholder_clue word));
     word_length := Z.of_nat (String.length word);
     distinctLetters := Z.of_nat distinct_count |}.

Section ProcessDictionary.
(** [str.upper] and [str.isalpha] follow the tables of Unicode and are
    parameters here, and so are the two tables of lines 32-46: nothing below
    depends on the words they hold. *)
Variable upper : string → string.
Variable isalpha : string → bool.
Variable INAPPROPRIATE_WORDS : gset string.
Variable INAPPROPRIATE_PREFIXES : list string.

Definition get_distinct_letters (word : string) : nat :=
  size (list_to_set (C:=gset Ascii.ascii) (chars (upper word))).

Definition is_inappropriate (word : string) : bool :=
  let word_upper := upper word in
  if decide (word_upper ∈ INAPPROPRIATE_WORDS) then true
  else existsb (λ prefix, String.prefix prefix word_upper) INAPPROPRIATE_PREFIXES.

(** The loop of lines 92-115. *)
Fixpoint filter_loop (words filtered : list string) (stats : filter_stats)
  : list string * filter_stats :=
  match words with
  | [] => (filtered, stats)
  | word :: rest =>
      let word := py_strip (upper word) in
      if negb (isalpha word) then
        filter_loop rest filtered
          {| total_input := total_input stats;
             removed_short := removed_short stats;
             removed_distinct := removed_distinct stats;
             removed_inappropriate := removed_inappropriate stats;
             removed_non_alpha := removed_non_alpha stats + 1;
             total_output := total_output stats |}
      else if (String.length word <? 4)%nat then
        filter_loop rest filtered
          {| total_input := total_input stats;
             removed_short := removed_short stats + 1;
             removed_distinct := removed_distinct stats;
             removed_inappropriate := removed_inappropriate stats;
             removed_non_alpha := removed_non_alpha stats;
             total_output := total_output stats |}
      else if (7 <? get_distinct_letters word)%nat then
        filter_loop rest filtered
          {| total_input := total_input stats;
             removed_short := removed_short stats;
             removed_distinct := removed_distinct stats + 1;
             removed_inappropriate := removed_inappropriate stats;
             removed_non_alpha := removed_non_alpha stats;
             total_output := total_output stats |}
      else if is_inappropriate word then
        filter_loop rest filtered
          {| total_input := total_input stats;
             removed_short := removed_short stats;
             removed_distinct := removed_distinct stats;
             removed_inappropriate := removed_inappropriate stats + 1;
             removed_non_alpha := removed_non_alpha stats;
             total_output := total_output stats |}
      else filter_loop rest (filtered ++ [word]) stats
  end.

Definition filter_words (words : list string) : list string * filter_stats :=
  let '(filtered, stats) :=
    filter_loop words []
      {| total_input := length words; removed_short := 0; removed_distinct := 0;
         removed_inappropriate := 0; removed_non_alpha := 0; total_output := 0 |} in
  (filtered,
   {| total_input := total_input stats;
      removed_short := removed_short stats;
      removed_distinct := removed_distinct stats;
      removed_inappropriate := removed_inappropriate stats;
      removed_non_alpha := removed_non_alpha stats;
      total_output := length filtered |}).

(** One turn of the loop of lines 151-161. *)
Definition entries_step (acc : list word_entry * counter * counter) (word : string)
  : list word_entry * counter * counter :=
  let '(word_entries, length_distribution, distinct_distribution) := acc in
  let distinct_count := get_distinct_letters word in
  (word_entries ++ [new_entry word distinct_count],
   count_up length_distribution (String.length word),
   count_up distinct_distribution distinct_count).

(** Lines 136-179: [words] is what [download_dictionary] returned, [now]
    the time stamp of line 167. *)
Definition build_output (words : list string) (now : string) : dataset :=
  let '(filtered_words, filter_stats) := filter_words words in
  let filtered_words := merge_sort String.le filtered_words in
  let '(word_entries, length_distribution, distinct_distribution) :=
    foldl entries_step ([], [], []) filtered_words in
  {| metadata :=
       [("totalWords", JInt (Z.of_nat (length word_entries)));
        ("generatedAt", JStr now);
        ("source", JStr DICT_URL);
        ("filters",
         JObj [("minLength", JInt 4);
               ("maxDistinctLetters", JInt 7);
               ("inappropriateRemoved",
                JInt (Z.of_nat (removed_inappropriate filter_stats)))]);
        ("filterStats", stats_json filter_stats);
        ("lengthDistribution", counter_json (sorted_items length_distribution));
        ("distinctLetterDistribution",
         counter_json (sorted_items distinct_distribution))];
     words := word_entries |}.

(** [process_dictionary]: the output is written to [OUTPUT_FILE] and
    returned. *)
Definition process_dictionary (json_dump : option nat → json → list string)
    (words : list string) (now : string) : M dataset :=
  let output := build_output words now in
  let* _ := emit (OpenW OUTPUT_FILE
                  :: (Write OUTPUT_FILE <$> json_dump (Some 2%nat) (dataset_json output))) in
  ret output.
End ProcessDictionary.

(** ** A codec for the examples

    The theorems below hold for every decoder and encoder.  The closed
    examples need one: [compact] writes a value as JSON text in one chunk
    (no indentation; the strings of the examples need no escaping), and
    [loads_among docs] decodes the texts [compact] writes for the values
    listed in [docs] and rejects any other text. *)

Definition dquote : Ascii.ascii := Ascii.ascii_of_nat 34.

Definition quote (s : string) : string :=
  String dquote (s +:+ String dquote EmptyString).

Fixpoint join (sep : string) (l : list string) : string :=
  match l with
  | [] => ""
  | [s] => s
  | s :: l' => s +:+ sep +:+ join sep l'
  end.

Fixpoint compact (v : json) : string :=
  match v with
  | JNull => "null"
  | JBool b => if b then "true" else "false"
  | JInt n => pretty n
  | JFloat r => r
  | JStr s => quote s
  | JArr l => "[" +:+ join ", " (map compact l) +:+ "]"
  | JObj d =>
      "{" +:+ join ", " (map (λ kv, quote kv.1 +:+ ": " +:+ compact kv.2) d) +:+ "}"
  end.

Definition compact_dump (indent : option nat) (v : json) : list string := [compact v].

Definition loads_among (docs : list json) (s : string) : option json :=
  head (filter (λ v, compact v = s) docs).

(** ** Example inputs *)

Definition ex_data : dataset :=
  {| metadata := [("totalWords", JInt 3)];
     words := [ {| word := "able"; clue := None; word_length := 4; distinctLetters := 4 |};
                {| word := "baker"; clue := None; word_length := 5; distinctLetters := 5 |};
                {| word := "camel"; clue := None; word_length := 5; distinctLetters := 5 |} ] |}.

(** No option but the key; [--limit 0]; [--start -1 --limit 1]. *)
Definition ex_args : args :=
  {| api_key := Some "key"; start := 0; limit := None; dry_run := false |}.

Definition ex_args_limit_0 : args :=
  {| api_key := Some "key"; start := 0; limit := Some 0; dry_run := false |}.

Definition ex_args_negative : args :=
  {| api_key := Some "key"; start := -1; limit := Some 1; dry_run := false |}.

(** The loop variables of a first run: no checkpoint yet. *)
Definition ex_state : run_state :=
  {| data := ex_data; progress := empty_progress;
     clues_cache := JObj []; completed_set := ∅ |}.

(** A checkpoint with one completed index, and the next one. *)
Definition ex_checkpoint_1 : json :=
  JObj [("completed_indices", JArr [JInt 0]);
        ("clues", JObj [("0", JStr "can do")])].

Definition ex_checkpoint_2 : json :=
  JObj [("completed_indices", JArr [JInt 0; JInt 1]);
        ("clues", JObj [("0", JStr "can do"); ("1", JStr "bread maker")])].

(** A service that is down, and one that answers every request with the
    same text. *)
Definition service_down : nat → reply := λ _, RaisesAPIError.
Definition service_says (content : string) : nat → reply := λ _, Responds content.

(** Example tables and example versions of [str.upper] and [str.isalpha],
    right for the strings of ASCII letters of the examples. *)
Definition ascii_upper (c : Ascii.ascii) : Ascii.ascii :=
  let n := Ascii.nat_of_ascii c in
  if ((97 <=? n) && (n <=? 122))%nat then Ascii.ascii_of_nat (n - 32) else c.

Fixpoint ex_upper (s : string) : string :=
  match s with
  | String c s' => String (ascii_upper c) (ex_upper s')
  | EmptyString => EmptyString
  end.

Definition ascii_isalpha (c : Ascii.ascii) : bool :=
  let n := Ascii.nat_of_ascii c in
  ((65 <=? n) && (n <=? 90) || (97 <=? n) && (n <=? 122))%nat.

Definition ex_isalpha (s : string) : bool :=
  match s with
  | EmptyString => false
  | _ => forallb ascii_isalpha (chars s)
  end.

Definition ex_words_table : gset string := {["DAMN"; "CRAP"]}.
Definition ex_prefixes_table : list string := ["CRAP"].

(** A service that raises at the first attempt and answers from the second
    on. *)
Definition service_recovers (content : string) : nat → reply :=
  λ attempt, if decide (attempt = 0%nat) then RaisesAPIError else Responds content.

(** [--dry-run] without a key; [--start -5]. *)
Definition ex_args_dry : args :=
  {| api_key := None; start := 0; limit := None; dry_run := true |}.

Definition ex_args_below : args :=
  {| api_key := Some "key"; start := -5; limit := None; dry_run := false |}.

(** Three clues, and the checkpoint of a run that has stored them. *)
Definition ex_clues : json :=
  JArr [JStr "can do"; JStr "bread maker"; JStr "desert animal"].

Definition ex_checkpoint_3 : json :=
  JObj [("completed_indices", JArr [JInt 0; JInt 1; JInt 2]);
        ("clues", JObj [("0", JStr "can do"); ("1", JStr "bread maker");
                        ("2", JStr "desert animal")])].

(** The checkpoint after a first batch of two with the service down; the
    completed indices come in the order the set lists them. *)
Definition ex_checkpoint_fallback : json :=
  JObj [("completed_indices", JArr [JInt 1; JInt 0]);
        ("clues", JObj [("0", JStr "Define: able"); ("1", JStr "Define: baker")])].

(** An answer in a code fence. *)
Definition newline : string := String (Ascii.ascii_of_nat 10) EmptyString.

Definition ex_fenced : string :=
  " ```json" +:+ newline +:+ "[1, 2]" +:+ newline +:+ "```" +:+ newline.

(** A downloaded word list. *)
Definition ex_download : list string :=
  ["camel"; " able "; "by"; "x-ray"; "crappy"; "dictionaries"; "Baker"; "damn"].

(** ** Vocabulary of the statements *)

(** An attempt fails when the service raises or its answer is not JSON. *)
Definition fails (json_loads : string → option json) (r : reply) : Prop :=
  match r with
  | RaisesAPIError => True
  | Responds content => json_loads content = None
  end.

(** The delays a trace sleeps, in order. *)
Definition sleeps (tr : list event) : list Z :=
  omap (λ e, match e with Sleep s => Some s | _ => None end) tr.

(** The text a sequence of chunks makes in a file. *)
Definition text_of (chunks : list string) : string := foldr String.append "" chunks.

(** The invariant of the checkpoint over a dataset of [total_words] words:
    the clue map is a dict whose keys are exactly [str(i)] for the completed
    indices [i], and every completed index is an index of the dataset. *)
Definition checkpoint_ok (total_words : nat) (clues_cache : json) (completed : gset Z)
  : Prop :=
  (∃ d, clues_cache = JObj d
        ∧ NoDup (dict_keys d)
        ∧ ∀ k, k ∈ dict_keys d ↔ ∃ i, i ∈ completed ∧ k = py_str i)
  ∧ ∀ i, i ∈ completed → 0 ≤ i < Z.of_nat total_words.

(** The events of the batch loop: requests, pauses, and writes to the
    checkpoint file. *)
Definition loop_event (e : event) : Prop :=
  match e with
  | OpenW p | Write p _ => p = PROGRESS_FILE
  | Remove _ => False
  | _ => True
  end.

(** [ws'] is [ws] with new clues and nothing else new, and with no change
    at all outside the positions [touched]. *)
Definition clues_only (touched : nat → Prop) (ws ws' : list word_entry) : Prop :=
  length ws' = length ws
  ∧ ∀ p e, ws !! p = Some e →
      ∃ e', ws' !! p = Some e'
            ∧ word e' = word e
            ∧ word_length e' = word_length e
            ∧ distinctLetters e' = distinctLetters e
            ∧ (¬ touched p → e' = e).

(** The events that leave the file system as it is. *)
Definition fs_neutral (e : event) : Prop :=
  match e with
  | Request _ | Sleep _ | InterBatchPause => True
  | _ => False
  end.

(** An attempt is benign when it fails or answers with a JSON array. *)
Definition benign (json_loads : string → option json) (r : reply) : Prop :=
  match r with
  | RaisesAPIError => True
  | Responds content =>
      match json_loads content with
      | Some (JArr _) | None => True
      | Some _ => False
      end
  end.

(** The word lists a trace sends to the service, in order. *)
Definition requests (tr : list event) : list (list string) :=
  omap (λ e, match e with Request ws => Some ws | _ => None end) tr.

(** The number of pauses between batches in a trace. *)
Definition pauses (tr : list event) : nat :=
  length (omap (λ e, match e with InterBatchPause => Some tt | _ => None end) tr).

(** The exceptions that come from the shape of the data: of a decoded
    answer, of the checkpoint, of an index. *)
Definition data_error (e : exn) : Prop :=
  match e with
  | TypeError | AttributeError | KeyError | IndexError => True
  | _ => False
  end.

(** [r] raises only exceptions in [P]; the same for a computation. *)
Definition rraises_only {A} (P : exn → Prop) (r : result A) : Prop :=
  ∀ e, r = Raise e → P e.

Definition raises_only {A} (P : exn → Prop) (m : M A) : Prop :=
  ∀ e, m.2 = Raise e → P e.

(** The backquote of a code fence. *)
Definition backtick : Ascii.ascii := Ascii.ascii_of_nat 96.

(** The four conditions under which [filter_words] keeps a word, on the
    word as the loop has normalised it. *)
Definition kept (upper : string → string) (isalpha : string → bool)
    (table : gset string) (prefixes : list string) (word : string) : Prop :=
  isalpha word = true
  ∧ (4 ≤ String.length word)%nat
  ∧ (get_distinct_letters upper word ≤ 7)%nat
  ∧ is_inappropriate upper table prefixes word = false.

#[global] Instance kept_dec upper isalpha table prefixes word :
  Decision (kept upper isalpha table prefixes word).
Proof. unfold kept. apply _. Defined.

(** The value a counter holds for a key, 0 for a key that is absent. *)
Fixpoint counter_get (d : counter) (k : nat) : nat :=
  match d with
  | [] => 0%nat
  | (k', n) :: d' => if decide (k' = k) then n else counter_get d' k
  end.

(** A dataset whose clues are all placeholders, as [process_dictionary]
    writes it. *)
Definition placeholder_clues (ws : list word_entry) : Prop :=
  ∀ e, e ∈ ws → clue e = Some (fallback_clue (word e)).

(** * Properties *)

(** ** Sequencing *)

Arguments bind {A B} m k : simpl never.
Arguments emit es : simpl never.
Arguments ret {A} a : simpl never.
Arguments lift {A} r : simpl never.

Lemma bind_emit {B} (es : list event) (k : unit → M B) :
  bind (emit es) k = (es ++ (k tt).1, (k tt).2).
Proof. unfold bind, emit. by destruct (k tt). Qed.

Lemma bind_lift_return {A B} (a : A) (k : A → M B) : bind (lift (Return a)) k = k a.
Proof. unfold bind, lift. by destruct (k a). Qed.

Lemma bind_ret {A B} (a : A) (k : A → M B) : bind (ret a) k = k a.
Proof. unfold bind, ret. by destruct (k a). Qed.

Lemma bind_pair {A B} (m : M A) (k : A → M B) tr a :
  m = (tr, Return a) → bind m k = (tr ++ (k a).1, (k a).2).
Proof. intros ->. unfold bind. by destruct (k a). Qed.

Lemma bind_return_inv {A B} (m : M A) (k : A → M B) tr b :
  bind m k = (tr, Return b) →
  ∃ tr1 a tr2, m = (tr1, Return a) ∧ k a = (tr2, Return b) ∧ tr = tr1 ++ tr2.
Proof.
  destruct m as [tr1 [a|e]]; unfold bind; [|done].
  destruct (k a) as [tr2 r] eqn:Hk. intros [= <- ->].
  by exists tr1, a, tr2.
Qed.

(** ** The enrichment client *)

Lemma pad_spec (fuel : nat) (words : list string) (l : list json) :
  (length words - length l ≤ fuel)%nat →
  pad fuel words l = l ++ (fallback_clue <$> drop (length l) words).
Proof.
  revert l. induction fuel as [|fuel IH]; intros l Hfuel; simpl.
  - rewrite drop_ge by lia. by rewrite app_nil_r.
  - destruct (decide (length l < length words)%nat) as [Hlt|Hge].
    + destruct (lookup_lt_is_Some_2 words (length l) Hlt) as [w Hw].
      rewrite Hw, IH by (rewrite length_app; simpl; lia).
      rewrite length_app, <- (assoc_L (++)). simpl.
      rewrite (drop_S _ _ _ Hw), Nat.add_1_r. done.
    + rewrite drop_ge by lia. by rewrite app_nil_r.
Qed.

Lemma correct_length_array (words : list string) (l : list json) :
  correct_length words (JArr l)
  = Return (JArr (take (length words) (l ++ (fallback_clue <$> drop (length l) words)))).
Proof.
  unfold correct_length. simpl. destruct (decide (length l ≠ length words)) as [Hne|Heq].
  - by rewrite pad_spec by lia.
  - apply dec_stable in Heq. rewrite drop_ge by lia.
    rewrite app_nil_r, take_ge by lia. done.
Qed.

Lemma length_substring_0 (s : string) (n : nat) :
  (n ≤ String.length s)%nat → String.length (String.substring 0 n s) = n.
Proof.
  revert n. induction s as [|c s IH]; intros [|n] Hn; simpl in *; try done; try lia.
  rewrite IH; [done | lia].
Qed.

Lemma correct_length_len (words : list string) (clues v : json) :
  correct_length words clues = Return v → py_len v = Return (length words).
Proof.
  unfold correct_length. destruct (py_len clues) as [n|] eqn:Hlen; simpl; [|done].
  destruct (decide (n ≠ length words)) as [Hne|Heq].
  - destruct clues; simpl in *; try done.
    + injection Hlen as <-.
      destruct (decide _); [done|]. intros [= <-]. simpl.
      rewrite length_substring_0; [done | lia].
    + intros [= <-]. simpl. rewrite pad_spec by lia.
      rewrite length_take, length_app, length_fmap, length_drop. f_equal. lia.
    + destruct (decide _); done.
  - apply dec_stable in Heq. intros [= <-]. by rewrite Hlen, Heq.
Qed.

Section Client.
Variable json_loads : string → option json.
Variable service : nat → reply.
Variable words : list string.

Lemma retry_loop_all_fail (attempts : list nat) :
  Forall (λ t, fails json_loads (service t)) attempts →
  ∃ tr, retry_loop json_loads service words attempts
        = (tr, Return (JArr (fallback_clue <$> words))).
Proof.
  induction 1 as [|t attempts Hf _ [tr IH]]; simpl; [by eexists|].
  rewrite bind_emit. unfold fails in Hf.
  destruct (service t) as [|content]; [|rewrite Hf];
    destruct (decide _); rewrite ?bind_emit, ?bind_ret, IH; simpl; by eexists.
Qed.

Lemma retry_loop_first_answer (pre post : list nat) t content v :
  Forall (λ s, fails json_loads (service s)) pre →
  service t = Responds content →
  json_loads content = Some v →
  ∃ tr, retry_loop json_loads service words (pre ++ t :: post)
        = (tr, correct_length words v).
Proof.
  intros Hpre Ht Hv. induction Hpre as [|s pre Hf _ [tr IH]]; simpl.
  - rewrite bind_emit, Ht, Hv. simpl. by eexists.
  - rewrite bind_emit. unfold fails in Hf.
    destruct (service s) as [|c]; [|rewrite Hf];
      destruct (decide _); rewrite ?bind_emit, ?bind_ret, IH; simpl; by eexists.
Qed.

Lemma retry_loop_len (attempts : list nat) tr v :
  retry_loop json_loads service words attempts = (tr, Return v) →
  py_len v = Return (length words).
Proof.
  revert tr. induction attempts as [|t attempts IH]; intros tr; simpl.
  - intros [= _ <-]. simpl. by rewrite length_fmap.
  - rewrite bind_emit.
    destruct (service t) as [|content]; [|destruct (json_loads content) as [c|]].
    + destruct (decide _); rewrite ?bind_emit, ?bind_ret; simpl;
        destruct (retry_loop _ _ _ attempts) as [tr' r] eqn:Hr; simpl;
        intros [= _ ->]; by eapply IH.
    + simpl. intros [= _ Hc]. by eapply correct_length_len.
    + destruct (decide _); rewrite ?bind_emit, ?bind_ret; simpl;
        destruct (retry_loop _ _ _ attempts) as [tr' r] eqn:Hr; simpl;
        intros [= _ ->]; by eapply IH.
Qed.

(** When no attempt succeeds the batch gets the placeholder clues. *)
Lemma generate_clues_batch_fallback :
  (∀ t, (t < MAX_RETRIES)%nat → fails json_loads (service t)) →
  ∃ tr, generate_clues_batch json_loads service words
        = (tr, Return (JArr (fallback_clue <$> words))).
Proof.
  intros Hf. apply retry_loop_all_fail, Forall_forall.
  intros t Ht. apply Hf. apply elem_of_seq in Ht. lia.
Qed.
End Client.

(** C2.  The value [generate_clues_batch] returns has the length of its
    input, whatever the service answered.  When the first answer that
    decodes is a JSON array [l], the function does return: the array cut to
    the first [K] entries when it is long, and followed by the placeholder
    ["Define: " + words[i]] at every missing position [i] when it is short.
    When the first answer decodes to a JSON object with fewer than [K]
    entries, the padding of line 106 raises AttributeError and nothing is
    returned. *)
Theorem generate_clues_batch_length
    (json_loads : string → option json) (service : nat → reply) (words : list string) :
  (∀ tr v, generate_clues_batch json_loads service words = (tr, Return v) →
           py_len v = Return (length words))
  ∧ (∀ t content l,
       (t < MAX_RETRIES)%nat →
       (∀ s, (s < t)%nat → fails json_loads (service s)) →
       service t = Responds content →
       json_loads content = Some (JArr l) →
       ∃ tr r,
         generate_clues_batch json_loads service words = (tr, Return (JArr r))
         ∧ length r = length words
         ∧ (∀ i, (i < length words)%nat → (i < length l)%nat → r !! i = l !! i)
         ∧ (∀ i w, words !! i = Some w → (length l ≤ i)%nat →
                   r !! i = Some (fallback_clue w)))
  ∧ (∀ content d,
       service 0%nat = Responds content →
       json_loads content = Some (JObj d) →
       (length d < length words)%nat →
       generate_clues_batch json_loads service words
       = ([Request words], Raise AttributeError)).
Proof.
  split; [intros tr v; apply retry_loop_len|]. split.
  - intros t content l Ht Hpre Hs Hl.
    destruct (retry_loop_first_answer json_loads service words
                (seq 0 t) (seq (S t) (MAX_RETRIES - S t)) t content (JArr l))
      as [tr Htr]; [|done|done|].
    { apply Forall_forall. intros s Hin. apply Hpre. apply elem_of_seq in Hin. lia. }
    assert (seq 0 MAX_RETRIES = seq 0 t ++ t :: seq (S t) (MAX_RETRIES - S t)) as Hseq.
    { replace MAX_RETRIES with (t + S (MAX_RETRIES - S t))%nat at 1 by lia.
      by rewrite seq_app. }
    unfold generate_clues_batch. rewrite Hseq, Htr, correct_length_array.
    eexists _, _. split; [done|].
    assert (length (l ++ (fallback_clue <$> drop (length l) words)) ≥ length words)%nat.
    { rewrite length_app, length_fmap, length_drop. lia. }
    split; [rewrite length_take; lia|]. split.
    + intros i Hi Hil. rewrite lookup_take_lt by done. by rewrite lookup_app_l.
    + intros i w Hw Hil. apply lookup_lt_Some in Hw as Hi.
      rewrite lookup_take_lt by done. rewrite lookup_app_r by done.
      rewrite list_lookup_fmap, lookup_drop.
      replace (length l + (i - length l))%nat with i by lia. by rewrite Hw.
  - intros content d Hs Hd Hlen. unfold generate_clues_batch. simpl.
    rewrite bind_emit, Hs, Hd. unfold correct_length. simpl.
    rewrite decide_True by lia. by rewrite decide_True by lia.
Qed.

(** C1.  When every attempt fails, by an error of the service or by an
    answer that is not JSON, [generate_clues_batch] returns the placeholder
    ["Define: " + w] for every word [w] of the batch.  But an answer that
    decodes to a JSON value with no length, such as a number, leaves the
    function as a TypeError at the first attempt: no clue is returned and
    there is no fallback. *)
Theorem generate_clues_batch_raises
    (json_loads : string → option json) (service : nat → reply) (words : list string) :
  ((∀ t, (t < MAX_RETRIES)%nat → fails json_loads (service t)) →
   ∃ tr, generate_clues_batch json_loads service words
         = (tr, Return (JArr (fallback_clue <$> words))))
  ∧ (∀ content n,
       service 0%nat = Responds content →
       json_loads content = Some (JInt n) →
       generate_clues_batch json_loads service words
       = ([Request words], Raise TypeError)).
Proof.
  split; [apply generate_clues_batch_fallback|].
  intros content n Hs Hn. unfold generate_clues_batch. simpl.
  by rewrite bind_emit, Hs, Hn.
Qed.

(** C9.  The delays between the attempts of one batch: after answers that
    are not JSON the client sleeps [RETRY_DELAY] seconds both times, after
    service errors [RETRY_DELAY] and then twice as long. *)
Theorem retry_delays
    (json_loads : string → option json) (service : nat → reply) (words : list string) :
  ((∀ t, (t < MAX_RETRIES)%nat → ∃ c, service t = Responds c ∧ json_loads c = None) →
   sleeps (generate_clues_batch json_loads service words).1
   = [RETRY_DELAY; RETRY_DELAY])
  ∧ ((∀ t, (t < MAX_RETRIES)%nat → service t = RaisesAPIError) →
     sleeps (generate_clues_batch json_loads service words).1
     = [RETRY_DELAY; RETRY_DELAY * 2]).
Proof.
  unfold generate_clues_batch, MAX_RETRIES. split; intros H.
  - destruct (H 0%nat) as (c0 & H0 & L0); [lia|].
    destruct (H 1%nat) as (c1 & H1 & L1); [lia|].
    destruct (H 2%nat) as (c2 & H2 & L2); [lia|].
    simpl. rewrite H0, L0, H1, L1, H2, L2. reflexivity.
  - simpl. rewrite !H by lia. reflexivity.
Qed.

(** ** The checkpoint store *)

Lemma string_app_assoc (s1 s2 s3 : string) : (s1 +:+ s2) +:+ s3 = s1 +:+ (s2 +:+ s3).
Proof.
  induction s1 as [|c s1 IH]; [done|].
  change (String c ((s1 +:+ s2) +:+ s3) = String c (s1 +:+ (s2 +:+ s3))). by f_equal.
Qed.

Lemma string_app_nil_r (s : string) : s +:+ "" = s.
Proof.
  induction s as [|c s IH]; [done|].
  change (String c (s +:+ "") = String c s). by f_equal.
Qed.

Lemma replay_app (fs : gmap string string) (tr1 tr2 : list event) :
  replay fs (tr1 ++ tr2) = replay (replay fs tr1) tr2.
Proof. apply foldl_app. Qed.

Lemma replay_writes (p : string) (chunks : list string) (fs : gmap string string) (s : string) :
  fs !! p = Some s →
  replay fs (Write p <$> chunks) !! p = Some (s +:+ text_of chunks).
Proof.
  revert fs s. induction chunks as [|c chunks IH]; intros fs s Hs; simpl.
  - by rewrite string_app_nil_r.
  - rewrite (IH _ (s +:+ c)); [by rewrite string_app_assoc|].
    by rewrite lookup_alter_eq, Hs.
Qed.

Lemma replay_writes_ne (p q : string) (chunks : list string) (fs : gmap string string) :
  p ≠ q → replay fs (Write p <$> chunks) !! q = fs !! q.
Proof.
  intros Hne. revert fs. induction chunks as [|c chunks IH]; intros fs; simpl; [done|].
  rewrite IH. by rewrite lookup_alter_ne.
Qed.

Lemma text_of_app (l1 l2 : list string) :
  text_of (l1 ++ l2) = text_of l1 +:+ text_of l2.
Proof.
  unfold text_of. induction l1 as [|c l1 IH]; [done|].
  cbn [app foldr]. rewrite IH. symmetry. apply string_app_assoc.
Qed.

Lemma is_prefix_trans (s t u : string) : is_prefix s t → is_prefix t u → is_prefix s u.
Proof. intros [r ->] [r' ->]. exists (r +:+ r'). apply string_app_assoc. Qed.

Lemma is_prefix_empty (s : string) : is_prefix s "" → s = "".
Proof. intros [r Hr]. by destruct s. Qed.

Lemma open_file_from_writes (p : string) (chunks : list string) :
  open_file_from (Some p) (Write p <$> chunks) = Some p.
Proof.
  induction chunks as [|c chunks IH]; [done|].
  simpl. by rewrite decide_True.
Qed.

(** The disk right after [save_progress] has opened the checkpoint file:
    the file is empty. *)
Lemma on_disk_opened (json_dump : option nat → json → list string)
    (fs : gmap string string) (progress : json) :
  on_disk fs (take 1 (save_progress json_dump progress)) (<[PROGRESS_FILE := ""]> fs).
Proof.
  unfold on_disk, save_progress. simpl. exists "", "".
  split; [by rewrite lookup_insert_eq|]. split; [by exists ""|].
  by rewrite insert_insert_eq.
Qed.

(** C3 (amended).  [save_progress] rewrites the checkpoint file in place:
    it opens the file itself for writing, which empties it, and writes the
    new checkpoint through the buffer of the file.  When the process is
    killed after the first [k] effects of a save, the disk is untouched if
    [k = 0]; otherwise the previous checkpoint is gone and the file holds
    some beginning of what has been written so far, hence of the new
    checkpoint, and right after the opening it holds nothing.  Once
    [save_progress] has returned the file holds the complete new checkpoint.
    No other file is touched. *)
Theorem save_progress_in_place
    (json_dump : option nat → json → list string)
    (fs : gmap string string) (progress : json) (k : nat) :
  (∀ disk, on_disk fs (take k (save_progress json_dump progress)) disk →
     (k = 0%nat → disk = fs)
     ∧ (k ≠ 0%nat →
        ∃ s, disk !! PROGRESS_FILE = Some s
             ∧ is_prefix s (text_of (take (k - 1) (json_dump None progress)))
             ∧ is_prefix s (text_of (json_dump None progress)))
     ∧ (∀ p, p ≠ PROGRESS_FILE → disk !! p = fs !! p))
  ∧ on_disk fs (take 1 (save_progress json_dump progress)) (<[PROGRESS_FILE := ""]> fs)
  ∧ (∀ disk, on_disk fs (take 1 (save_progress json_dump progress)) disk →
             disk !! PROGRESS_FILE = Some "")
  ∧ replay fs (save_progress json_dump progress) !! PROGRESS_FILE
    = Some (text_of (json_dump None progress)).
Proof.
  assert (∀ k' disk,
            on_disk fs (take (S k') (save_progress json_dump progress)) disk →
            ∃ s, is_prefix s (text_of (take k' (json_dump None progress)))
                 ∧ disk = <[PROGRESS_FILE := s]>
                            (replay fs (take (S k') (save_progress json_dump progress))))
    as Hcut.
  { intros k' disk. unfold on_disk, save_progress, open_file.
    cbn [take open_file_from]. rewrite <- fmap_take, open_file_from_writes.
    cbn [replay foldl apply_event]. change (foldl apply_event) with replay.
    rewrite (replay_writes _ _ _ "") by by rewrite lookup_insert_eq.
    intros (s & written & [= <-] & Hs & ->). by exists s. }
  split; [|split; [apply on_disk_opened|split]].
  - intros disk Hdisk. destruct k as [|k'].
    + unfold on_disk in Hdisk. simpl in Hdisk. subst disk.
      split; [done|]. split; [done|]. done.
    + apply Hcut in Hdisk as (s & Hs & ->).
      split; [done|]. split.
      * intros _. exists s. rewrite lookup_insert_eq.
        replace (S k' - 1)%nat with k' by lia.
        split; [done|]. split; [done|].
        eapply is_prefix_trans; [exact Hs|].
        exists (text_of (drop k' (json_dump None progress))).
        by rewrite <- text_of_app, take_drop.
      * intros p Hp. rewrite lookup_insert_ne by done.
        unfold save_progress. cbn [take]. rewrite <- fmap_take.
        cbn [replay foldl apply_event]. change (foldl apply_event) with replay.
        rewrite replay_writes_ne by done. by rewrite lookup_insert_ne.
  - intros disk Hdisk. apply Hcut in Hdisk as (s & Hs & ->).
    apply is_prefix_empty in Hs as ->. by rewrite lookup_insert_eq.
  - unfold save_progress. simpl.
    rewrite (replay_writes _ _ _ ""); [done|]. by rewrite lookup_insert_eq.
Qed.

(** C8.  A checkpoint file that exists and does not decode makes
    [load_progress] raise [JSONDecodeError], the error the specification
    calls CorruptCheckpointError, and [main] hands that error on to its
    caller before it has had any effect.  The empty checkpoint of line 55 is
    returned when there is no file; a value returned while the file exists
    is what the file decodes to, never that default. *)
Theorem load_progress_corrupt
    (json_loads : string → option json) (json_dump : option nat → json → list string)
    (fs : gmap string string) :
  (∀ content,
     fs !! PROGRESS_FILE = Some content → json_loads content = None →
     load_progress json_loads fs = Raise JSONDecodeError
     ∧ ∀ a env_key now d service,
         py_truthy (if py_truthy (api_key a) then api_key a else env_key) = true →
         main json_loads json_dump a env_key now d fs service
         = ([], Raise JSONDecodeError))
  ∧ (fs !! PROGRESS_FILE = None → load_progress json_loads fs = Return empty_progress)
  ∧ (∀ v, load_progress json_loads fs = Return v →
          (fs !! PROGRESS_FILE = None ∧ v = empty_progress)
          ∨ (∃ content, fs !! PROGRESS_FILE = Some content
                        ∧ json_loads content = Some v)).
Proof.
  unfold load_progress. split; [|split].
  - intros content Hfile Hbad.
    assert (load_progress json_loads fs = Raise JSONDecodeError) as Hload.
    { unfold load_progress. by rewrite Hfile, Hbad. }
    split; [done|]. intros a env_key now d service Hkey.
    unfold main, main_loop. by rewrite Hkey, Hload.
  - by intros ->.
  - intros v. destruct (fs !! PROGRESS_FILE) as [content|]; [|intros [= <-]; by left].
    destruct (json_loads content) as [v'|] eqn:Hv; [|done].
    intros [= <-]. right. by exists content.
Qed.

(** ** Pending indices *)

Lemma StronglySorted_seqZ (m n : Z) : StronglySorted Z.lt (seqZ m n).
Proof.
  destruct (decide (n ≤ 0)) as [Hn|Hn]; [rewrite seqZ_nil by done; constructor|].
  rewrite <- (Z2Nat.id n) by lia. generalize (Z.to_nat n). clear n Hn.
  intros n. revert m. induction n as [|n IH]; intros m.
  - rewrite seqZ_nil by done. constructor.
  - rewrite seqZ_cons by lia. replace (Z.pred (Z.of_nat (S n))) with (Z.of_nat n) by lia.
    constructor; [apply IH|]. apply Forall_seqZ. lia.
Qed.

Lemma StronglySorted_filter_lt (P : Z → Prop) `{!∀ x, Decision (P x)} (l : list Z) :
  StronglySorted Z.lt l → StronglySorted Z.lt (filter P l).
Proof.
  induction 1 as [|x l _ IH Hx]; [constructor|].
  rewrite filter_cons. destruct (decide (P x)); [|done].
  constructor; [done|]. apply Forall_forall. intros y Hy.
  apply list_elem_of_filter in Hy as [_ Hy]. rewrite Forall_forall in Hx. by apply Hx.
Qed.

(** What the pending list is, with the end of the range as line 157
    computes it. *)
Lemma indices_to_process_spec (total_words : nat) (completed : gset Z) (a : args) :
  (∀ i, i ∈ indices_to_process total_words completed a
        ↔ start a ≤ i < end_idx total_words a ∧ i ∉ completed)
  ∧ StronglySorted Z.lt (indices_to_process total_words completed a).
Proof.
  unfold indices_to_process, py_range. split.
  - intros i. rewrite list_elem_of_filter, elem_of_seqZ.
    split; intros [? ?]; split; (done || lia).
  - apply StronglySorted_filter_lt, StronglySorted_seqZ.
Qed.

(** ** The batcher *)

Lemma batch_indices_slice (B : nat) (indices : list Z) (k : nat) :
  batch_indices B indices k = take B (drop (k * B) indices).
Proof.
  unfold batch_indices, py_slice. rewrite skipn_firstn_comm.
  destruct (decide (k * B + B ≤ length indices)%nat) as [Hle|Hgt].
  - f_equal. lia.
  - rewrite Nat.min_r by lia.
    rewrite !take_ge; [done | rewrite length_drop; lia | rewrite length_drop; lia].
Qed.

Lemma batches_concat_prefix (B : nat) (indices : list Z) (n : nat) :
  concat (batch_indices B indices <$> seq 0 n) = take (n * B) indices.
Proof.
  induction n as [|n IH]; [done|].
  rewrite seq_S, fmap_app, concat_app, IH. simpl.
  rewrite app_nil_r, batch_indices_slice, take_take_drop. f_equal. lia.
Qed.

Lemma batch_count_ceil (B P : nat) :
  (0 < B)%nat → (0 < P)%nat →
  ((batch_count B P - 1) * B < P ≤ batch_count B P * B)%nat.
Proof.
  intros HB HP. unfold batch_count.
  pose proof (Nat.div_mod (P + B - 1) B ltac:(lia)) as Hdm.
  pose proof (Nat.mod_upper_bound (P + B - 1) B ltac:(lia)) as Hmod.
  set (q := ((P + B - 1) `div` B)%nat) in *.
  set (r := ((P + B - 1) `mod` B)%nat) in *.
  nia.
Qed.

(** The batches are cut from the pending list, which holds no completed
    index. *)
Lemma batches_skip_completed (B total_words : nat) (completed : gset Z) (a : args)
    (b : list Z) (i : Z) :
  b ∈ batches B (indices_to_process total_words completed a) → i ∈ b → i ∉ completed.
Proof.
  unfold batches. intros (k & -> & _)%list_elem_of_fmap Hi.
  rewrite batch_indices_slice in Hi.
  apply (subseteq_take B), (subseteq_drop (k * B)) in Hi.
  by apply indices_to_process_spec in Hi as [_ ?].
Qed.

(** C4.  The pending list is the increasing list of the indices from the
    start offset to the end of the range that the checkpoint does not hold,
    and no batch holds an index of the checkpoint.  The range ends at
    [min(N, limit + start)] for a limit that is not 0 and at [N] without a
    limit; with a limit of 0 it ends at [N] too, as if there were no
    limit. *)
Theorem indices_to_process_limit_0 (total_words : nat) (completed : gset Z) (a : args) :
  (∀ i, i ∈ indices_to_process total_words completed a
        ↔ start a ≤ i < end_idx total_words a ∧ i ∉ completed)
  ∧ StronglySorted Z.lt (indices_to_process total_words completed a)
  ∧ (∀ B b i, b ∈ batches B (indices_to_process total_words completed a) →
              i ∈ b → i ∉ completed)
  ∧ (∀ l, limit a = Some l → l ≠ 0 →
          end_idx total_words a = Z.min (Z.of_nat total_words) (l + start a))
  ∧ (limit a = None → end_idx total_words a = Z.of_nat total_words)
  ∧ (limit a = Some 0 → end_idx total_words a = Z.of_nat total_words).
Proof.
  split; [apply indices_to_process_spec|]. split; [apply indices_to_process_spec|].
  split; [intros B b i; apply batches_skip_completed|].
  unfold end_idx. split; [|split].
  - intros l -> Hl. by rewrite decide_True.
  - by intros ->.
  - by intros ->.
Qed.

Lemma batch_indices_lookup (B : nat) (indices : list Z) (k q : nat) :
  (q < B)%nat →
  batch_indices B indices k !! q = indices !! (k * B + q)%nat.
Proof.
  intros Hq. rewrite batch_indices_slice, lookup_take_lt by done.
  by rewrite lookup_drop.
Qed.

Lemma batch_indices_elem (B : nat) (indices : list Z) (k : nat) (i : Z) :
  i ∈ batch_indices B indices k
  ↔ ∃ q, (q < B)%nat ∧ indices !! (k * B + q)%nat = Some i.
Proof.
  rewrite list_elem_of_lookup. split.
  - intros [q Hq]. exists q.
    assert (q < B)%nat as HqB.
    { apply lookup_lt_Some in Hq. rewrite batch_indices_slice, length_take in Hq. lia. }
    split; [done|]. by rewrite <- batch_indices_lookup.
  - intros (q & HqB & Hq). exists q. by rewrite batch_indices_lookup.
Qed.

(** C5.  The batch loop cuts the pending list into [n] slices where [n] is
    the number with [(n - 1) * B < P ≤ n * B], the quotient of [P] by [B]
    rounded up.  Slice [k] is the [B] indices that follow the first [k * B];
    put end to end the slices are the pending list, so every index is in a
    slice and in its place, and in one slice only when the list has no
    index twice.  Every slice but the last has size [B], the last has what
    is left.  The slices are a function, [batches], of the batch size and
    the list. *)
Theorem batches_partition (B : nat) (indices : list Z) :
  (0 < B)%nat → (0 < length indices)%nat →
  ((length (batches B indices) - 1) * B < length indices
     ≤ length (batches B indices) * B)%nat
  ∧ concat (batches B indices) = indices
  ∧ (∀ k, (k < length (batches B indices))%nat →
          batches B indices !! k = Some (batch_indices B indices k)
          ∧ batch_indices B indices k = take B (drop (k * B) indices))
  ∧ (∀ k b, batches B indices !! k = Some b →
            (k < length (batches B indices) - 1)%nat → length b = B)
  ∧ (∀ b, batches B indices !! (length (batches B indices) - 1)%nat = Some b →
          length b = (length indices - (length (batches B indices) - 1) * B)%nat)
  ∧ (∀ i, i ∈ indices → ∃ k b, batches B indices !! k = Some b ∧ i ∈ b)
  ∧ (NoDup indices →
     ∀ i k1 k2 b1 b2,
       batches B indices !! k1 = Some b1 → batches B indices !! k2 = Some b2 →
       i ∈ b1 → i ∈ b2 → k1 = k2).
Proof.
  intros HB HP.
  assert (length (batches B indices) = batch_count B (length indices)) as Hn.
  { unfold batches. by rewrite length_fmap, length_seq. }
  pose proof (batch_count_ceil B (length indices) HB HP) as Hceil.
  rewrite Hn. set (n := batch_count B (length indices)) in *.
  assert (∀ k, (k < n)%nat → batches B indices !! k = Some (batch_indices B indices k))
    as Hlook.
  { intros k Hk. unfold batches. rewrite list_lookup_fmap.
    fold n. by rewrite lookup_seq_lt. }
  assert (∀ k b, batches B indices !! k = Some b →
                 (k < n)%nat ∧ b = batch_indices B indices k) as Hinv.
  { intros k b Hb. apply lookup_lt_Some in Hb as Hk. rewrite Hn in Hk.
    rewrite Hlook in Hb by done. by injection Hb as <-. }
  split; [done|]. split; [|split; [|split; [|split; [|split]]]].
  - unfold batches. fold n. rewrite batches_concat_prefix. apply take_ge. lia.
  - intros k Hk. split; [by apply Hlook | apply batch_indices_slice].
  - intros k b Hb Hk. rewrite Hlook in Hb by lia. injection Hb as <-.
    rewrite batch_indices_slice, length_take, length_drop. nia.
  - intros b Hb. rewrite Hlook in Hb by lia. injection Hb as <-.
    rewrite batch_indices_slice, length_take, length_drop. nia.
  - intros i [p Hp]%list_elem_of_lookup. apply lookup_lt_Some in Hp as HpP.
    pose proof (Nat.div_mod p B ltac:(lia)) as Hdm.
    pose proof (Nat.mod_upper_bound p B ltac:(lia)) as Hmod.
    exists (p `div` B)%nat, (batch_indices B indices (p `div` B)). split.
    + apply Hlook. nia.
    + apply batch_indices_elem. exists (p `mod` B)%nat. split; [done|].
      by replace (p `div` B * B + p `mod` B)%nat with p by lia.
  - intros Hnd i k1 k2 b1 b2 [_ ->]%Hinv [_ ->]%Hinv.
    intros (q1 & Hq1 & H1)%batch_indices_elem (q2 & Hq2 & H2)%batch_indices_elem.
    pose proof (NoDup_lookup _ _ _ _ Hnd H1 H2). nia.
Qed.

(** ** Merging a batch *)

Lemma bind_lift_inv {A B} (r : result A) (k : A → M B) tr b :
  bind (lift r) k = (tr, Return b) → ∃ a, r = Return a ∧ k a = (tr, Return b).
Proof.
  destruct r as [a|e]; [|done]. rewrite bind_lift_return. by exists a.
Qed.

Lemma bind_emit_inv {B} (es : list event) (k : unit → M B) tr b :
  bind (emit es) k = (tr, Return b) → ∃ tr', k tt = (tr', Return b) ∧ tr = es ++ tr'.
Proof.
  rewrite bind_emit. destruct (k tt) as [tr' r]. simpl. intros [= <- ->]. by eexists.
Qed.

Lemma rbind_return_inv {A B} (r : result A) (k : A → result B) b :
  rbind r k = Return b → ∃ a, r = Return a ∧ k a = Return b.
Proof. destruct r as [a|e]; [|done]. by exists a. Qed.

Lemma rmap_length {A B} (f : A → result B) (l : list A) (l' : list B) :
  rmap f l = Return l' → length l' = length l.
Proof.
  revert l'. induction l as [|x l IH]; intros l'; simpl; [by intros [= <-]|].
  intros (y & _ & (ys & Hys & [= <-])%rbind_return_inv)%rbind_return_inv.
  simpl. f_equal. by apply IH.
Qed.

Lemma length_list_ascii_of_string (s : string) :
  length (String.list_ascii_of_string s) = String.length s.
Proof. induction s as [|c s IH]; simpl; [done | by f_equal]. Qed.

Lemma py_iter_length (v : json) (items : list json) (n : nat) :
  py_len v = Return n → py_iter v = Return items → length items = n.
Proof.
  destruct v; simpl; try done; intros [= <-] [= <-].
  - by rewrite length_fmap, length_list_ascii_of_string.
  - done.
  - unfold dict_keys. by rewrite !length_fmap.
Qed.

Lemma dict_set_keys (d : dict) (k : string) (v : json) :
  dict_keys (dict_set d k v)
  = if decide (k ∈ dict_keys d) then dict_keys d else dict_keys d ++ [k].
Proof.
  unfold dict_keys. induction d as [|[k' v'] d IH].
  - destruct (decide (k ∈ ([] : dict).*1)) as [Hin|_]; [|done].
    by apply not_elem_of_nil in Hin.
  - cbn [dict_set]. destruct (decide (k' = k)) as [->|Hne].
    + rewrite decide_True by apply list_elem_of_here. done.
    + rewrite !fmap_cons, IH. cbn [fst].
      destruct (decide (k ∈ d.*1)) as [Hin|Hnin].
      * by rewrite decide_True by by apply list_elem_of_further.
      * rewrite decide_False; [done|]. intros [->|?]%elem_of_cons; done.
Qed.

Lemma dict_set_keys_elem (d : dict) (k : string) (v : json) (k' : string) :
  k' ∈ dict_keys (dict_set d k v) ↔ k' = k ∨ k' ∈ dict_keys d.
Proof.
  rewrite dict_set_keys. destruct (decide (k ∈ dict_keys d)).
  - naive_solver.
  - rewrite elem_of_app, list_elem_of_singleton. naive_solver.
Qed.

Lemma dict_set_keys_NoDup (d : dict) (k : string) (v : json) :
  NoDup (dict_keys d) → NoDup (dict_keys (dict_set d k v)).
Proof.
  intros Hd. rewrite dict_set_keys. destruct (decide (k ∈ dict_keys d)); [done|].
  apply NoDup_app. split; [done|]. split; [|apply NoDup_singleton].
  intros x Hx ->%list_elem_of_singleton. done.
Qed.

Lemma dict_get_set (d : dict) (k : string) (v : json) (k' : string) :
  dict_get (dict_set d k v) k' = if decide (k = k') then Some v else dict_get d k'.
Proof.
  induction d as [|[k0 v0] d IH]; simpl.
  - done.
  - destruct (decide (k0 = k)) as [->|Hne]; simpl.
    + by destruct (decide (k = k')).
    + rewrite IH. destruct (decide (k0 = k')) as [->|?]; [|done].
      by rewrite decide_False by done.
Qed.

Lemma size_set_map_py_str (X : gset Z) :
  size (set_map (D:=gset string) py_str X) = size X.
Proof.
  unfold set_map. rewrite size_list_to_set.
  - by rewrite length_fmap.
  - apply NoDup_fmap_2; [apply pretty_Z_inj | apply NoDup_elements].
Qed.

Lemma checkpoint_ok_len (total_words : nat) (clues_cache : json) (completed : gset Z) :
  checkpoint_ok total_words clues_cache completed →
  py_len clues_cache = Return (size completed).
Proof.
  intros [(d & -> & Hnd & Hkeys) _]. simpl. f_equal.
  rewrite <- size_set_map_py_str.
  replace (set_map py_str completed) with (list_to_set (C:=gset string) (dict_keys d)).
  - rewrite size_list_to_set by done. unfold dict_keys. by rewrite length_fmap.
  - apply set_eq. intros k. rewrite elem_of_list_to_set, Hkeys, elem_of_map. naive_solver.
Qed.

Lemma clues_only_refl (touched : nat → Prop) (ws : list word_entry) :
  clues_only touched ws ws.
Proof. split; [done|]. intros p e He. by exists e. Qed.

Lemma clues_only_trans (t1 t2 t : nat → Prop) (ws1 ws2 ws3 : list word_entry) :
  (∀ p, t1 p → t p) → (∀ p, t2 p → t p) →
  clues_only t1 ws1 ws2 → clues_only t2 ws2 ws3 → clues_only t ws1 ws3.
Proof.
  intros H1 H2 [Hl12 H12] [Hl23 H23]. split; [congruence|].
  intros p e He.
  destruct (H12 p e He) as (e2 & He2 & Hw & Hwl & Hd & Hsame).
  destruct (H23 p e2 He2) as (e3 & He3 & Hw' & Hwl' & Hd' & Hsame').
  exists e3. repeat split; try congruence.
  intros Hnt. rewrite Hsame', Hsame; [done|intros ?; apply Hnt; auto..].
Qed.

Lemma words_set_clue_spec (ws : list word_entry) (idx : Z) (c : json) (ws' : list word_entry) :
  words_set_clue ws idx c = Return ws' →
  clues_only (λ p, py_index (length ws) idx = Some p) ws ws'.
Proof.
  unfold words_set_clue. destruct (py_index (length ws) idx) as [q|]; [|done].
  destruct (ws !! q) as [e0|] eqn:Hq; [|done]. intros [= <-].
  split; [by rewrite length_insert|]. intros p e He.
  destruct (decide (q = p)) as [->|Hne].
  - exists (set_clue e c). rewrite list_lookup_insert_eq by by eapply lookup_lt_Some.
    replace e0 with e by congruence. by repeat split.
  - exists e. rewrite list_lookup_insert_ne by done. repeat split; done.
Qed.

Lemma merge_spec (pairs : list (Z * json)) (st st' : run_state) :
  merge st pairs = Return st' →
  metadata (data st') = metadata (data st)
  ∧ progress st' = progress st
  ∧ completed_set st' = list_to_set pairs.*1 ∪ completed_set st
  ∧ clues_only (λ p, ∃ idx, idx ∈ pairs.*1
                       ∧ py_index (length (words (data st))) idx = Some p)
      (words (data st)) (words (data st'))
  ∧ (∀ d, clues_cache st = JObj d →
       ∃ d', clues_cache st' = JObj d'
             ∧ (NoDup (dict_keys d) → NoDup (dict_keys d'))
             ∧ ∀ k, k ∈ dict_keys d'
                    ↔ k ∈ dict_keys d ∨ ∃ idx, idx ∈ pairs.*1 ∧ k = py_str idx).
Proof.
  revert st. induction pairs as [|[idx c] pairs IH]; intros st; simpl.
  - intros [= <-]. split; [done|]. split; [done|]. split; [set_solver|].
    split; [apply clues_only_refl|].
    intros d Hd. exists d. split; [done|]. split; [done|].
    intros k. split; [by left|]. intros [?|(i & Hi & _)]; [done|].
    by apply not_elem_of_nil in Hi.
  - intros (st1 & Hone & Hrest)%rbind_return_inv.
    unfold merge_one in Hone.
    apply rbind_return_inv in Hone as (ws1 & Hws & Hone).
    apply rbind_return_inv in Hone as (cache1 & Hcache & [= <-]).
    apply words_set_clue_spec in Hws as Hframe1.
    destruct (IH _ Hrest) as (Hmeta & Hprog & Hcomp & Hframe & Hkeys).
    simpl in *. split; [done|]. split; [done|]. split; [set_solver|]. split.
    + pose proof Hframe1 as [Hlen1 _]. rewrite Hlen1 in Hframe.
      refine (clues_only_trans _ _ _ _ _ _ _ _ Hframe1 Hframe).
      * intros p Hp. exists idx. split; [apply list_elem_of_here | done].
      * intros p (i & Hi & Hp). exists i. split; [by apply list_elem_of_further | done].
    + intros d Hd. rewrite Hd in Hcache. injection Hcache as <-.
      destruct (Hkeys _ eq_refl) as (d' & Hd' & Hnd & Hk).
      exists d'. split; [done|]. split.
      * intros ?. by apply Hnd, dict_set_keys_NoDup.
      * intros k. rewrite Hk, dict_set_keys_elem. split.
        -- intros [[->|?]|(i & Hi & ->)]; [right|by left|right].
           ++ exists idx. split; [apply list_elem_of_here | done].
           ++ exists i. split; [by apply list_elem_of_further | done].
        -- intros [?|(i & [->|Hi]%elem_of_cons & ->)];
             [by left; right | by left; left | right; by exists i].
Qed.

(** ** One batch *)

Lemma replay_neutral (fs : gmap string string) (tr : list event) :
  Forall fs_neutral tr → replay fs tr = fs.
Proof.
  induction 1 as [|e tr He _ IH]; [done|]. simpl.
  destruct e; simpl in *; done.
Qed.

Lemma replay_save_progress (json_dump : option nat → json → list string)
    (fs : gmap string string) (progress : json) :
  replay fs (save_progress json_dump progress) !! PROGRESS_FILE
  = Some (text_of (json_dump None progress)).
Proof.
  unfold save_progress. simpl.
  rewrite (replay_writes _ _ _ ""); [done|]. by rewrite lookup_insert_eq.
Qed.

Lemma retry_loop_neutral (json_loads : string → option json) (service : nat → reply)
    (words : list string) (attempts : list nat) :
  Forall fs_neutral (retry_loop json_loads service words attempts).1.
Proof.
  induction attempts as [|t attempts IH]; simpl; [done|].
  rewrite bind_emit. simpl. constructor; [done|].
  destruct (service t) as [|content]; [|destruct (json_loads content)]; try done;
    destruct (decide _); rewrite ?bind_emit, ?bind_ret; simpl;
    repeat constructor; done.
Qed.

Lemma indices_to_process_valid (total_words : nat) (completed : gset Z) (a : args) :
  0 ≤ start a →
  Forall (λ i, 0 ≤ i < Z.of_nat total_words) (indices_to_process total_words completed a).
Proof.
  intros Hstart. apply Forall_forall. intros i Hi.
  apply indices_to_process_spec in Hi as [Hrange _].
  unfold end_idx in Hrange. destruct (limit a) as [l|]; [destruct (decide _)|]; lia.
Qed.

Lemma batch_indices_Forall (P : Z → Prop) (B : nat) (indices : list Z) (k : nat) :
  Forall P indices → Forall P (batch_indices B indices k).
Proof. intros H. rewrite batch_indices_slice. by apply Forall_take, Forall_drop. Qed.

Section Batch.
Variable json_loads : string → option json.
Variable json_dump : option nat → json → list string.
Variable service : nat → reply.
Variables (B : nat) (indices : list Z) (count batch_num : nat).

(** What a turn of the loop that reaches its end has done. *)
Lemma run_batch_inv (st st' : run_state) (tr : list event) :
  run_batch json_loads json_dump service B indices count batch_num st = (tr, Return st') →
  ∃ batch_words tr_g clues items st1 progress1 progress2,
    rmap (λ i, rbind (list_getitem (words (data st)) i) (λ e, Return (word e)))
         (batch_indices B indices batch_num) = Return batch_words
    ∧ batch_words ≠ []
    ∧ generate_clues_batch json_loads service batch_words = (tr_g, Return clues)
    ∧ py_iter clues = Return items
    ∧ merge st (zip (batch_indices B indices batch_num) items) = Return st1
    ∧ setitem (progress st1) "completed_indices"
        (JArr (JInt <$> elements (completed_set st1))) = Return progress1
    ∧ setitem progress1 "clues" (clues_cache st1) = Return progress2
    ∧ tr = tr_g ++ save_progress json_dump progress2
             ++ (if decide (batch_num < count - 1)%nat then [InterBatchPause] else [])
    ∧ st' = {| data := data st1; progress := progress2;
               clues_cache := clues_cache st1; completed_set := completed_set st1 |}.
Proof.
  unfold run_batch. intros H.
  apply bind_lift_inv in H as (batch_words & Hbw & H).
  apply bind_lift_inv in H as ([] & Hne & H).
  apply bind_return_inv in H as (tr_g & clues & tr2 & Hg & H & ->).
  apply bind_lift_inv in H as (items & Hitems & H).
  apply bind_lift_inv in H as (st1 & Hmerge & H).
  apply bind_lift_inv in H as (progress1 & Hp1 & H).
  apply bind_lift_inv in H as (progress2 & Hp2 & H).
  apply bind_emit_inv in H as (tr3 & H & ->).
  exists batch_words, tr_g, clues, items, st1, progress1, progress2.
  repeat (split; [done || by destruct batch_words|]).
  destruct (decide (batch_num < count - 1)%nat).
  - rewrite bind_emit in H. by injection H as <- <-.
  - rewrite bind_ret in H. by injection H as <- <-.
Qed.

(** The merge of one batch covers the whole batch. *)
Lemma run_batch_pairs (st : run_state) batch_words tr_g clues items :
  rmap (λ i, rbind (list_getitem (words (data st)) i) (λ e, Return (word e)))
       (batch_indices B indices batch_num) = Return batch_words →
  generate_clues_batch json_loads service batch_words = (tr_g, Return clues) →
  py_iter clues = Return items →
  (zip (batch_indices B indices batch_num) items).*1 = batch_indices B indices batch_num.
Proof.
  intros Hbw%rmap_length Hg%retry_loop_len Hitems.
  apply fst_zip. erewrite (py_iter_length _ _ _ Hg Hitems). lia.
Qed.
End Batch.

Lemma py_index_valid (n : nat) (i : Z) (p : nat) :
  0 ≤ i < Z.of_nat n → py_index n i = Some p → Z.of_nat p = i.
Proof.
  intros Hi. unfold py_index. rewrite decide_True by done. intros [= <-]. lia.
Qed.

(** C6 (amended).  For a start offset that is not negative, a turn of the
    batch loop keeps the invariant of the checkpoint: the keys of the clue
    map are the completed indices (so there are as many clues as completed
    indices) and every completed index is an index of the dataset.  The
    completed set after the turn is the one before it with the indices of
    the batch, and it is what the checkpoint file holds once the turn has
    saved it. *)
Theorem run_batch_checkpoint
    (json_loads : string → option json) (json_dump : option nat → json → list string)
    (service : nat → reply) (B : nat) (a : args) (completed0 : gset Z)
    (count batch_num : nat) (st st' : run_state) (tr : list event)
    (fs : gmap string string) :
  0 ≤ start a →
  checkpoint_ok (length (words (data st))) (clues_cache st) (completed_set st) →
  run_batch json_loads json_dump service B
    (indices_to_process (length (words (data st))) completed0 a)
    count batch_num st = (tr, Return st') →
  checkpoint_ok (length (words (data st'))) (clues_cache st') (completed_set st')
  ∧ py_len (clues_cache st') = Return (size (completed_set st'))
  ∧ completed_set st'
    = completed_set st
      ∪ list_to_set (batch_indices B
           (indices_to_process (length (words (data st))) completed0 a) batch_num)
  ∧ getitem (progress st') "completed_indices"
    = Return (JArr (JInt <$> elements (completed_set st')))
  ∧ getitem (progress st') "clues" = Return (clues_cache st')
  ∧ replay fs tr !! PROGRESS_FILE = Some (text_of (json_dump None (progress st'))).
Proof.
  intros Hstart Hok Hrun.
  set (indices := indices_to_process _ _ _) in *.
  assert (Forall (λ i, 0 ≤ i < Z.of_nat (length (words (data st))))
            (batch_indices B indices batch_num)) as Hvalid.
  { by apply batch_indices_Forall, indices_to_process_valid. }
  apply run_batch_inv in Hrun
    as (bw & tr_g & clues & items & st1 & p1 & p2
        & Hbw & _ & Hg & Hitems & Hmerge & Hp1 & Hp2 & -> & ->).
  pose proof (run_batch_pairs json_loads service B indices batch_num st
                bw tr_g clues items Hbw Hg Hitems) as Hfst.
  apply merge_spec in Hmerge as (_ & Hprog & Hcomp & [Hlen _] & Hkeys).
  rewrite Hfst in Hcomp, Hkeys. cbn [data progress clues_cache completed_set].
  destruct Hok as [(d & Hd & Hnd & Hdk) Hrange].
  destruct (Hkeys d Hd) as (d' & Hd' & Hnd' & Hdk').
  assert (checkpoint_ok (length (words (data st1))) (clues_cache st1) (completed_set st1))
    as Hok'.
  { split.
    - exists d'. split; [done|]. split; [by apply Hnd'|].
      intros k. rewrite Hdk', Hdk, Hcomp. split.
      + intros [(i & Hi & ->)|(i & Hi & ->)]; exists i; split; set_solver.
      + intros (i & [Hi|Hi]%elem_of_union & ->); [right|left]; exists i; set_solver.
    - intros i. rewrite Hcomp, Hlen. intros [Hi|Hi]%elem_of_union; [|by apply Hrange].
      rewrite Forall_forall in Hvalid. apply Hvalid. set_solver. }
  split; [done|]. split; [by eapply checkpoint_ok_len|].
  split; [rewrite Hcomp; set_solver|].
  destruct (progress st1) as [| | | | | |pd]; try done.
  simpl in Hp1. injection Hp1 as <-. simpl in Hp2. injection Hp2 as <-.
  split; [|split].
  - simpl. rewrite !dict_get_set. by rewrite decide_False, decide_True by done.
  - simpl. rewrite !dict_get_set. by rewrite decide_True by done.
  - assert (Forall fs_neutral tr_g) as Hng.
    { pose proof (retry_loop_neutral json_loads service bw (seq 0 MAX_RETRIES)) as H.
      unfold generate_clues_batch in Hg. by rewrite Hg in H. }
    rewrite !replay_app. rewrite (replay_neutral _ tr_g) by done.
    rewrite (replay_neutral (replay fs _)).
    + apply replay_save_progress.
    + destruct (decide _); repeat constructor.
Qed.

(** C10 (amended).  For a start offset that is not negative, a turn of the
    batch loop leaves the metadata of the dataset and the number of entries
    as they are; in every entry the word, the length and the count of
    distinct letters stay, and an entry whose index is not in the batch is
    not changed at all.  (The metadata is stamped by [stamp], at the final
    commit.) *)
Theorem run_batch_frame
    (json_loads : string → option json) (json_dump : option nat → json → list string)
    (service : nat → reply) (B : nat) (a : args) (completed0 : gset Z)
    (count batch_num : nat) (st st' : run_state) (tr : list event) :
  0 ≤ start a →
  run_batch json_loads json_dump service B
    (indices_to_process (length (words (data st))) completed0 a)
    count batch_num st = (tr, Return st') →
  metadata (data st') = metadata (data st)
  ∧ length (words (data st')) = length (words (data st))
  ∧ ∀ p e, words (data st) !! p = Some e →
      ∃ e', words (data st') !! p = Some e'
            ∧ word e' = word e
            ∧ word_length e' = word_length e
            ∧ distinctLetters e' = distinctLetters e
            ∧ (Z.of_nat p ∉ batch_indices B
                 (indices_to_process (length (words (data st))) completed0 a) batch_num →
               e' = e).
Proof.
  intros Hstart Hrun.
  set (indices := indices_to_process _ _ _) in *.
  assert (Forall (λ i, 0 ≤ i < Z.of_nat (length (words (data st))))
            (batch_indices B indices batch_num)) as Hvalid.
  { by apply batch_indices_Forall, indices_to_process_valid. }
  apply run_batch_inv in Hrun
    as (bw & tr_g & clues & items & st1 & p1 & p2
        & Hbw & _ & Hg & Hitems & Hmerge & Hp1 & Hp2 & -> & ->).
  pose proof (run_batch_pairs json_loads service B indices batch_num st
                bw tr_g clues items Hbw Hg Hitems) as Hfst.
  apply merge_spec in Hmerge as (Hmeta & _ & _ & [Hlen Hframe] & _).
  rewrite Hfst in Hframe. simpl. split; [done|]. split; [done|].
  intros p e He. destruct (Hframe p e He) as (e' & He' & Hw & Hwl & Hdl & Hsame).
  exists e'. repeat (split; [done|]).
  intros Hout. apply Hsame. intros (idx & Hidx & Hp).
  rewrite Forall_forall in Hvalid.
  apply py_index_valid in Hp; [|by apply Hvalid]. by subst idx.
Qed.

(** ** The whole run *)

Lemma replay_rewrite (p : string) (chunks : list string) (fs : gmap string string) :
  replay fs (OpenW p :: (Write p <$> chunks)) !! p = Some (text_of chunks).
Proof.
  cbn [replay foldl apply_event]. change (foldl apply_event) with replay.
  rewrite (replay_writes _ _ _ ""); [done|]. by rewrite lookup_insert_eq.
Qed.

Lemma replay_rewrite_ne (p q : string) (chunks : list string) (fs : gmap string string) :
  p ≠ q → replay fs (OpenW p :: (Write p <$> chunks)) !! q = fs !! q.
Proof.
  intros Hne. cbn [replay foldl apply_event]. change (foldl apply_event) with replay.
  rewrite replay_writes_ne by done. by rewrite lookup_insert_ne.
Qed.

Lemma fs_neutral_loop_event (e : event) : fs_neutral e → loop_event e.
Proof. by destruct e. Qed.

Section Run.
Variable json_loads : string → option json.
Variable json_dump : option nat → json → list string.

Lemma run_batch_events service B indices count batch_num st tr st' :
  run_batch json_loads json_dump service B indices count batch_num st = (tr, Return st') →
  Forall loop_event tr.
Proof.
  intros (bw & tr_g & clues & items & st1 & p1 & p2
          & _ & _ & Hg & _ & _ & _ & _ & -> & _)%run_batch_inv.
  rewrite !Forall_app. split; [|split].
  - pose proof (retry_loop_neutral json_loads service bw (seq 0 MAX_RETRIES)) as H.
    unfold generate_clues_batch in Hg. rewrite Hg in H.
    eapply Forall_impl; [exact H | apply fs_neutral_loop_event].
  - unfold save_progress. constructor; [done|].
    apply Forall_fmap, Forall_true. by intros c.
  - destruct (decide _); repeat constructor.
Qed.

Lemma batch_loop_events service B indices count nums st tr st' :
  batch_loop json_loads json_dump service B indices count nums st = (tr, Return st') →
  Forall loop_event tr.
Proof.
  revert st tr. induction nums as [|n nums IH]; intros st tr; simpl.
  - by intros [= <- _].
  - intros (tr1 & st1 & tr2 & H1 & H2 & ->)%bind_return_inv.
    apply Forall_app. split; [by eapply run_batch_events | by eapply IH].
Qed.

Lemma main_loop_events a d fs service tr o :
  main_loop json_loads json_dump a d fs service = (tr, Return o) →
  Forall loop_event tr ∧ (dry_run a = false → is_Some o).
Proof.
  unfold main_loop. intros H.
  apply bind_lift_inv in H as (progress & _ & H).
  apply bind_lift_inv in H as (completed & _ & H).
  apply bind_lift_inv in H as (cache & _ & H).
  destruct (dry_run a).
  - apply bind_lift_inv in H as (ws & _ & H). injection H as <- <-. done.
  - apply bind_return_inv in H as (tr1 & st & tr2 & H1 & H2 & ->).
    injection H2 as <- <-. rewrite app_nil_r.
    split; [by eapply batch_loop_events | by eexists].
Qed.

Lemma loop_event_not_remove (tr : list event) (p : string) :
  Forall loop_event tr → Remove p ∉ tr.
Proof. rewrite Forall_forall. intros H Hin. by apply H in Hin. Qed.

Lemma replay_loop_output (fs : gmap string string) (tr : list event) :
  Forall loop_event tr → replay fs tr !! OUTPUT_FILE = fs !! OUTPUT_FILE.
Proof.
  intros H. revert fs. induction H as [|e tr He _ IH]; intros fs; [done|].
  cbn [replay foldl]. change (foldl apply_event) with replay. rewrite IH.
  destruct e; simpl in *; try done; subst.
  - by rewrite lookup_insert_ne.
  - by rewrite lookup_alter_ne.
Qed.
End Run.

(** C7.  A run that is no dry run and returns has done, in this order: the
    batch loop, whose events [pre] are requests, pauses and writes to the
    checkpoint file (no removal, nothing on the dataset file); the complete
    write of the stamped dataset; and last, when the checkpoint file
    exists, its removal.  So a prefix of the run that holds the removal
    holds the complete dataset file, and after the run the checkpoint file
    is absent. *)
Theorem final_commit_order
    (json_loads : string → option json) (json_dump : option nat → json → list string)
    (a : args) (env_key : option string) (now : string) (d : dataset)
    (fs : gmap string string) (service : nat → nat → reply) (tr : list event) :
  dry_run a = false →
  main json_loads json_dump a env_key now d fs service = (tr, Return tt) →
  ∃ pre st,
    main_loop json_loads json_dump a d fs service = (pre, Return (Some st))
    ∧ tr = pre
           ++ OpenW OUTPUT_FILE
              :: (Write OUTPUT_FILE
                    <$> json_dump (Some 2%nat) (dataset_json (stamp now (data st))))
           ++ (if decide (is_Some (replay fs pre !! PROGRESS_FILE))
               then [Remove PROGRESS_FILE] else [])
    ∧ Forall loop_event pre
    ∧ (∀ k, Remove PROGRESS_FILE ∈ take k tr →
            replay fs (take k tr) !! OUTPUT_FILE
            = Some (text_of (json_dump (Some 2%nat) (dataset_json (stamp now (data st))))))
    ∧ replay fs tr !! OUTPUT_FILE
      = Some (text_of (json_dump (Some 2%nat) (dataset_json (stamp now (data st)))))
    ∧ replay fs tr !! PROGRESS_FILE = None.
Proof.
  intros Hdry. unfold main. rewrite Hdry.
  destruct (negb _ && negb false); [done|].
  destruct (main_loop _ _ _ _ _ _) as [pre [o|e]] eqn:Hloop; [|done].
  apply main_loop_events in Hloop as Hev. destruct Hev as [Hpre Hsome].
  destruct (Hsome Hdry) as [st ->]. intros [= <-].
  set (chunks := json_dump (Some 2%nat) (dataset_json (stamp now (data st)))).
  set (written := OpenW OUTPUT_FILE :: (Write OUTPUT_FILE <$> chunks)).
  assert (replay (replay fs pre) written !! PROGRESS_FILE = replay fs pre !! PROGRESS_FILE)
    as Hprog by by apply replay_rewrite_ne.
  assert (replay (replay fs pre) written !! OUTPUT_FILE = Some (text_of chunks))
    as Hout by apply replay_rewrite.
  unfold final_commit. fold chunks. fold written. rewrite Hprog.
  set (tail := if decide (is_Some (replay fs pre !! PROGRESS_FILE))
               then [Remove PROGRESS_FILE] else []).
  assert (replay fs (pre ++ written ++ tail) !! OUTPUT_FILE = Some (text_of chunks))
    as Hfinal.
  { rewrite !replay_app. unfold tail. destruct (decide _); [|done].
    simpl. by rewrite lookup_delete_ne. }
  exists pre, st. split; [done|]. split; [done|]. split; [done|].
  split; [|split; [done|]].
  - intros k Hin.
    destruct (decide (k ≤ length (pre ++ written))%nat) as [Hk|Hk].
    + exfalso. rewrite (assoc_L (++)), take_app_le in Hin by done.
      apply (subseteq_take k) in Hin. apply elem_of_app in Hin as [Hin|Hin].
      * by eapply loop_event_not_remove.
      * unfold written in Hin. apply elem_of_cons in Hin as [?|Hin]; [done|].
        apply list_elem_of_fmap in Hin as (c & ? & _). done.
    + rewrite take_ge; [done|]. rewrite (assoc_L (++)), length_app.
      unfold tail. destruct (decide _); simpl; lia.
  - rewrite !replay_app. unfold tail. destruct (decide _) as [Hs|Hn].
    + simpl. by rewrite lookup_delete_eq.
    + change (replay (replay fs pre) written !! PROGRESS_FILE = None).
      rewrite Hprog. by apply eq_None_not_Some.
Qed.

(** ** Runs that return

    With a start offset that is not negative and a service whose answers
    are benign, the batch loop and the final commit go through. *)

Lemma batch_indices_nonempty (B : nat) (indices : list Z) (k : nat) :
  (0 < B)%nat → (k < batch_count B (length indices))%nat →
  batch_indices B indices k ≠ [].
Proof.
  intros HB Hk Hnil. apply (f_equal length) in Hnil.
  rewrite batch_indices_slice, length_take, length_drop in Hnil. simpl in Hnil.
  assert (0 < length indices)%nat as HP.
  { destruct (decide (length indices = 0)%nat) as [E|]; [|lia].
    unfold batch_count in Hk. rewrite E, Nat.div_small in Hk; lia. }
  pose proof (batch_count_ceil B (length indices) HB HP). nia.
Qed.

Lemma retry_loop_benign (json_loads : string → option json) (service : nat → reply)
    (words : list string) (attempts : list nat) :
  Forall (λ t, benign json_loads (service t)) attempts →
  ∃ tr r, retry_loop json_loads service words attempts = (tr, Return (JArr r)).
Proof.
  induction 1 as [|t attempts Hb _ (tr & r & IH)]; simpl; [by eexists _, _|].
  rewrite bind_emit. unfold benign in Hb.
  destruct (service t) as [|content]; [|destruct (json_loads content) as [[]|]];
    try done.
  - destruct (decide _); rewrite ?bind_emit, ?bind_ret, IH; simpl; by eexists _, _.
  - rewrite correct_length_array. simpl. by eexists _, _.
  - destruct (decide _); rewrite ?bind_emit, ?bind_ret, IH; simpl; by eexists _, _.
Qed.

Lemma merge_returns (pairs : list (Z * json)) (st : run_state) (cd : dict) :
  clues_cache st = JObj cd →
  Forall (λ i, 0 ≤ i < Z.of_nat (length (words (data st)))) pairs.*1 →
  ∃ st', merge st pairs = Return st'.
Proof.
  revert st cd. induction pairs as [|[idx c] pairs IH]; intros st cd Hcd Hvalid;
    [by eexists|].
  rewrite fmap_cons in Hvalid. apply Forall_cons in Hvalid as [Hidx Hvalid].
  simpl in Hidx. cbn [merge].
  unfold merge_one, words_set_clue, py_index. rewrite decide_True by done.
  destruct (lookup_lt_is_Some_2 (words (data st)) (Z.to_nat idx)) as [e He]; [lia|].
  rewrite He, Hcd. simpl. eapply IH; simpl; [done|].
  by rewrite length_insert.
Qed.

Lemma list_getitem_valid {A} (l : list A) (i : Z) :
  0 ≤ i < Z.of_nat (length l) → ∃ x, list_getitem l i = Return x.
Proof.
  intros Hi. unfold list_getitem, py_index. rewrite decide_True by done.
  destruct (lookup_lt_is_Some_2 l (Z.to_nat i)) as [x Hx]; [lia|].
  rewrite Hx. by eexists.
Qed.

Lemma batch_words_return (ws : list word_entry) (batch : list Z) :
  Forall (λ i, 0 ≤ i < Z.of_nat (length ws)) batch →
  ∃ bw, rmap (λ i, rbind (list_getitem ws i) (λ e, Return (word e))) batch = Return bw.
Proof.
  induction 1 as [|i batch Hi _ [bw IH]]; [by eexists|].
  cbn [rmap]. destruct (list_getitem_valid ws i Hi) as [e ->].
  cbn [rbind]. rewrite IH. cbn [rbind]. by eexists.
Qed.

Section Returns.
Variable json_loads : string → option json.
Variable json_dump : option nat → json → list string.

Lemma bind_returns {A B} (m : M A) (k : A → M B) tr a :
  m = (tr, Return a) →
  (∃ tr' b, k a = (tr', Return b)) →
  ∃ tr'' b, bind m k = (tr'', Return b).
Proof. intros -> (tr' & b & Hk). unfold bind. rewrite Hk. by eexists _, _. Qed.

Lemma run_batch_shape service B indices count batch_num st pd cd tr st' :
  run_batch json_loads json_dump service B indices count batch_num st = (tr, Return st') →
  progress st = JObj pd → clues_cache st = JObj cd →
  ∃ pd' cd',
    progress st' = JObj pd' ∧ clues_cache st' = JObj cd'
    ∧ length (words (data st')) = length (words (data st)).
Proof.
  intros (bw & tr_g & clues & items & st1 & p1 & p2
          & _ & _ & _ & _ & Hmerge & Hp1 & Hp2 & _ & ->)%run_batch_inv Hpd Hcd.
  apply merge_spec in Hmerge as (_ & Hprog & _ & [Hlen _] & Hkeys).
  destruct (Hkeys cd Hcd) as (cd' & Hcd' & _).
  rewrite Hprog, Hpd in Hp1. injection Hp1 as <-. injection Hp2 as <-.
  by eexists _, cd'.
Qed.

Lemma run_batch_returns service B indices count batch_num st pd cd :
  progress st = JObj pd → clues_cache st = JObj cd →
  batch_indices B indices batch_num ≠ [] →
  Forall (λ i, 0 ≤ i < Z.of_nat (length (words (data st))))
         (batch_indices B indices batch_num) →
  (∀ t, benign json_loads (service t)) →
  ∃ tr st',
    run_batch json_loads json_dump service B indices count batch_num st = (tr, Return st').
Proof.
  intros Hpd Hcd Hne Hvalid Hben.
  destruct (batch_words_return _ _ Hvalid) as [bw Hbw].
  apply rmap_length in Hbw as Hbwlen.
  destruct (retry_loop_benign json_loads service bw (seq 0 MAX_RETRIES))
    as (tr_g & r & Hg); [by apply Forall_forall|].
  apply retry_loop_len in Hg as Hr. injection Hr as Hr.
  destruct (merge_returns (zip (batch_indices B indices batch_num) r) st cd Hcd)
    as [st1 Hmerge].
  { rewrite fst_zip by lia. done. }
  apply merge_spec in Hmerge as Hspec. destruct Hspec as (_ & Hprog & _).
  unfold run_batch.
  eapply bind_returns; [by rewrite Hbw|].
  eapply bind_returns.
  { destruct bw; [by destruct (batch_indices B indices batch_num)|reflexivity]. }
  eapply bind_returns; [exact Hg|].
  eapply bind_returns; [reflexivity|].
  eapply bind_returns; [by rewrite Hmerge|].
  eapply bind_returns; [by rewrite Hprog, Hpd|].
  eapply bind_returns; [reflexivity|].
  eapply bind_returns; [reflexivity|].
  destruct (decide (batch_num < count - 1)%nat).
  - eapply bind_returns; [reflexivity|]. by eexists _, _.
  - eapply bind_returns; [reflexivity|]. by eexists _, _.
Qed.

Lemma batch_loop_returns service B indices count nums st pd cd :
  (0 < B)%nat →
  progress st = JObj pd → clues_cache st = JObj cd →
  Forall (λ k, k < batch_count B (length indices))%nat nums →
  Forall (λ i, 0 ≤ i < Z.of_nat (length (words (data st)))) indices →
  (∀ k t, benign json_loads (service k t)) →
  ∃ tr st', batch_loop json_loads json_dump service B indices count nums st
            = (tr, Return st').
Proof.
  intros HB Hpd Hcd Hnums Hvalid Hben. revert st pd cd Hpd Hcd Hvalid.
  induction Hnums as [|k nums Hk _ IH]; intros st pd cd Hpd Hcd Hvalid; simpl;
    [by eexists _, _|].
  destruct (run_batch_returns (service k) B indices count k st pd cd)
    as (tr1 & st1 & Hrun); try done.
  { by apply batch_indices_nonempty. }
  { by apply batch_indices_Forall. }
  destruct (run_batch_shape _ _ _ _ _ _ _ _ _ _ Hrun Hpd Hcd)
    as (pd1 & cd1 & Hpd1 & Hcd1 & Hlen).
  destruct (IH st1 pd1 cd1) as (tr2 & st2 & Hloop); [done..|by rewrite Hlen|].
  eapply bind_returns; [exact Hrun|]. by eexists _, _.
Qed.

(** X22.  A run returns when it has a key, the checkpoint it loads has the
    shape of the artifact, the start offset is not negative and the service
    is benign: every answer fails or decodes to an array. *)
Lemma main_returns a env_key now d fs service pd completed cd :
  py_truthy (if py_truthy (api_key a) then api_key a else env_key) = true →
  dry_run a = false →
  0 ≤ start a →
  load_progress json_loads fs = Return (JObj pd) →
  rbind (getitem (JObj pd) "completed_indices") py_set = Return completed →
  getitem (JObj pd) "clues" = Return (JObj cd) →
  (∀ k t, benign json_loads (service k t)) →
  ∃ tr, main json_loads json_dump a env_key now d fs service = (tr, Return tt).
Proof.
  intros Hkey Hdry Hstart Hload Hcompleted Hclues Hben.
  set (indices := indices_to_process (length (words d)) completed a).
  destruct (batch_loop_returns service BATCH_SIZE indices
              (batch_count BATCH_SIZE (length indices))
              (seq 0 (batch_count BATCH_SIZE (length indices)))
              {| data := d; progress := JObj pd;
                 clues_cache := JObj cd; completed_set := completed |} pd cd)
    as (tr & st & Hloop); try done.
  { unfold BATCH_SIZE. lia. }
  { apply Forall_forall. intros k Hk%elem_of_seq. lia. }
  { by apply indices_to_process_valid. }
  unfold main, main_loop. rewrite Hkey, Hdry, Hload. simpl negb. simpl andb.
  rewrite bind_lift_return, Hcompleted, bind_lift_return, Hclues, bind_lift_return.
  fold indices. rewrite (bind_pair _ _ _ _ Hloop). simpl. by eexists.
Qed.
End Returns.

(** * More of the two scripts *)

(** ** The cost of a batch *)

Lemma bind_trace {A B} (m : M A) (k : A → M B) :
  (bind m k).1 = m.1 ++ match m.2 with Return a => (k a).1 | Raise _ => [] end.
Proof.
  destruct m as [tr [a|e]]; unfold bind; simpl.
  - by destruct (k a).
  - by rewrite app_nil_r.
Qed.

Lemma requests_app (tr1 tr2 : list event) :
  requests (tr1 ++ tr2) = requests tr1 ++ requests tr2.
Proof. apply omap_app. Qed.

Lemma sleeps_app (tr1 tr2 : list event) : sleeps (tr1 ++ tr2) = sleeps tr1 ++ sleeps tr2.
Proof. apply omap_app. Qed.

(** X1.  Whatever the service does, one call of [generate_clues_batch]
    sends between one and [MAX_RETRIES] requests, each for the words of the
    batch; it does nothing but request and sleep, sleeps fewer times than it
    requests and never after its last request, and sleeps no more than
    [3 * RETRY_DELAY] seconds in all. *)
Theorem generate_clues_batch_cost
    (json_loads : string → option json) (service : nat → reply) (words : list string) :
  let tr := (generate_clues_batch json_loads service words).1 in
  requests tr = replicate (length (requests tr)) words
  ∧ (1 ≤ length (requests tr) ≤ MAX_RETRIES)%nat
  ∧ (length (sleeps tr) < length (requests tr))%nat
  ∧ length tr = (length (requests tr) + length (sleeps tr))%nat
  ∧ foldr Z.add 0 (sleeps tr) ≤ 3 * RETRY_DELAY
  ∧ last tr = Some (Request words).
Proof.
  unfold generate_clues_batch, MAX_RETRIES. cbn [seq retry_loop].
  repeat match goal with
    | |- context [match service ?n with _ => _ end] => destruct (service n)
    | |- context [match json_loads ?c with _ => _ end] => destruct (json_loads c)
    end;
    cbv [bind emit ret lift]; simpl; unfold RETRY_DELAY; repeat split; lia.
Qed.

Lemma retry_loop_stops (json_loads : string → option json) (service : nat → reply)
    (words : list string) (pre post : list nat) t content v :
  Forall (λ s, fails json_loads (service s) ∧ (s < MAX_RETRIES - 1)%nat) pre →
  service t = Responds content →
  json_loads content = Some v →
  ∃ tr, retry_loop json_loads service words (pre ++ t :: post)
        = (tr, correct_length words v)
        ∧ requests tr = replicate (S (length pre)) words
        ∧ length (sleeps tr) = length pre.
Proof.
  intros Hpre Ht Hv. induction Hpre as [|s pre [Hf Hs] _ (tr & IH & Hreq & Hsl)]; simpl.
  - rewrite bind_emit, Ht, Hv. simpl. by eexists.
  - rewrite bind_emit. unfold fails in Hf.
    destruct (service s) as [|c]; [|rewrite Hf];
      rewrite decide_True by done; rewrite bind_emit, IH; simpl;
      (eexists; split; [done|]); simpl; rewrite Hreq, Hsl; done.
Qed.

Lemma retry_loop_ext (json_loads : string → option json) (service service' : nat → reply)
    (words : list string) (pre post : list nat) t content v :
  Forall (λ s, service' s = service s) pre →
  service' t = service t →
  service t = Responds content →
  json_loads content = Some v →
  retry_loop json_loads service' words (pre ++ t :: post)
  = retry_loop json_loads service words (pre ++ t :: post).
Proof.
  intros Hpre Ht' Ht Hv. induction Hpre as [|s pre Hs _ IH]; simpl.
  - by rewrite Ht', Ht, Hv.
  - by rewrite Hs, IH.
Qed.

Lemma seq_split_at (n t : nat) :
  (t < n)%nat → seq 0 n = seq 0 t ++ t :: seq (S t) (n - S t).
Proof.
  intros Ht. replace n with (t + S (n - S t))%nat at 1 by lia. by rewrite seq_app.
Qed.

(** X2.  The retry loop stops at the first answer that decodes: when
    attempt [t] is the first whose answer is JSON, the result is the length
    correction of that answer after [t + 1] requests and [t] sleeps, and what
    the service would do at later attempts has no influence on the call. *)
Theorem generate_clues_batch_stops
    (json_loads : string → option json) (service : nat → reply) (words : list string)
    (t : nat) (content : string) (v : json) :
  (t < MAX_RETRIES)%nat →
  (∀ s, (s < t)%nat → fails json_loads (service s)) →
  service t = Responds content →
  json_loads content = Some v →
  (∃ tr, generate_clues_batch json_loads service words = (tr, correct_length words v)
         ∧ requests tr = replicate (S t) words
         ∧ length (sleeps tr) = t)
  ∧ ∀ service' : nat → reply,
      (∀ s, (s ≤ t)%nat → service' s = service s) →
      generate_clues_batch json_loads service' words
      = generate_clues_batch json_loads service words.
Proof.
  intros Ht Hpre Hs Hv. unfold generate_clues_batch.
  rewrite (seq_split_at MAX_RETRIES t Ht). split.
  - destruct (retry_loop_stops json_loads service words
                (seq 0 t) (seq (S t) (MAX_RETRIES - S t)) t content v)
      as (tr & Htr & Hreq & Hsl); [|done|done|].
    { apply Forall_forall. intros s Hin%elem_of_seq. split; [apply Hpre; lia | lia]. }
    rewrite length_seq in Hreq, Hsl. by exists tr.
  - intros service' Hagree. eapply retry_loop_ext; [|apply Hagree; lia|done|done].
    apply Forall_forall. intros s Hin%elem_of_seq. apply Hagree. lia.
Qed.

(** ** Runs without a batch *)

(** X3.  A dry run has no effect: it sends no request and writes no file.
    It needs no key, and neither the key, the clock nor the service changes
    its outcome; with a start offset that is not negative and a checkpoint
    of the right shape it returns. *)
Theorem main_dry_run
    (json_loads : string → option json) (json_dump : option nat → json → list string)
    (a : args) (env_key : option string) (now : string) (d : dataset)
    (fs : gmap string string) (service : nat → nat → reply) :
  dry_run a = true →
  (main json_loads json_dump a env_key now d fs service).1 = []
  ∧ (∀ env_key' now' service',
       main json_loads json_dump a env_key' now' d fs service'
       = main json_loads json_dump a env_key now d fs service)
  ∧ (∀ pd completed cd,
       0 ≤ start a →
       load_progress json_loads fs = Return (JObj pd) →
       rbind (getitem (JObj pd) "completed_indices") py_set = Return completed →
       getitem (JObj pd) "clues" = Return cd →
       main json_loads json_dump a env_key now d fs service = ([], Return tt)).
Proof.
  intros Hdry.
  assert (∀ env_key' now' service',
            main json_loads json_dump a env_key' now' d fs service'
            = match rbind (load_progress json_loads fs) (λ progress,
                      rbind (rbind (getitem progress "completed_indices") py_set)
                        (λ completed,
                      rbind (getitem progress "clues") (λ _,
                      rmap (list_getitem (words d))
                        (take 10 (indices_to_process (length (words d)) completed a)))))
              with
              | Return _ => ([], Return tt)
              | Raise e => ([], Raise e)
              end) as Hmain.
  { intros env_key' now' service'. unfold main, main_loop. rewrite Hdry.
    rewrite andb_false_r.
    destruct (load_progress json_loads fs) as [p|e]; [|done].
    rewrite bind_lift_return. cbn [rbind].
    destruct (rbind (getitem p "completed_indices") py_set) as [completed|e]; [|done].
    rewrite bind_lift_return. cbn [rbind].
    destruct (getitem p "clues") as [cache|e]; [|done].
    rewrite bind_lift_return. cbn [rbind].
    destruct (rmap _ _) as [ws|e]; [|done].
    by rewrite bind_lift_return. }
  split; [|split].
  - rewrite Hmain. by destruct (rbind _ _).
  - intros env_key' now' service'. by rewrite !Hmain.
  - intros pd completed cd Hstart Hload Hcompleted Hclues.
    rewrite Hmain, Hload. cbn [rbind]. rewrite Hcompleted. cbn [rbind].
    rewrite Hclues. cbn [rbind].
    assert (Forall (λ i, 0 ≤ i < Z.of_nat (length (words d)))
              (take 10 (indices_to_process (length (words d)) completed a))) as Hvalid.
    { by apply Forall_take, indices_to_process_valid. }
    assert (∃ ws, rmap (list_getitem (words d))
                    (take 10 (indices_to_process (length (words d)) completed a))
                  = Return ws) as [ws ->]; [|done].
    induction Hvalid as [|i l Hi _ [ws IH]]; [by eexists|].
    cbn [rmap]. destruct (list_getitem_valid (words d) i Hi) as [e ->].
    cbn [rbind]. rewrite IH. cbn [rbind]. by eexists.
Qed.

(** ** Exceptions *)

Lemma rraises_only_rbind {A B} (P : exn → Prop) (r : result A) (k : A → result B) :
  rraises_only P r → (∀ a, rraises_only P (k a)) → rraises_only P (rbind r k).
Proof. intros Hr Hk e. destruct r as [a|e']; simpl; [exact (Hk a e) | intros [= <-]; by apply Hr]. Qed.

Lemma rraises_only_rmap {A B} (P : exn → Prop) (f : A → result B) (l : list A) :
  (∀ x, rraises_only P (f x)) → rraises_only P (rmap f l).
Proof.
  intros Hf. induction l as [|x l IH]; simpl; [done|].
  apply rraises_only_rbind; [done|]. intros y.
  apply rraises_only_rbind; [done|]. done.
Qed.

Lemma raises_only_bind {A B} (P : exn → Prop) (m : M A) (k : A → M B) :
  raises_only P m → (∀ a, raises_only P (k a)) → raises_only P (bind m k).
Proof.
  intros Hm Hk e. destruct m as [tr [a|e']]; unfold bind.
  - specialize (Hk a e). destruct (k a). exact Hk.
  - simpl. intros [= <-]. by apply Hm.
Qed.

Lemma raises_only_lift {A} (P : exn → Prop) (r : result A) :
  rraises_only P r → raises_only P (lift r).
Proof. intros Hr e. exact (Hr e). Qed.

Lemma raises_only_emit (P : exn → Prop) (es : list event) : raises_only P (emit es).
Proof. by intros e. Qed.

Lemma raises_only_ret {A} (P : exn → Prop) (a : A) : raises_only P (ret a).
Proof. by intros e. Qed.

Lemma list_getitem_raises {A} (l : list A) (i : Z) : rraises_only data_error (list_getitem l i).
Proof.
  intros e. unfold list_getitem.
  destruct (py_index _ _); [destruct (l !! _)|]; by intros [= <-].
Qed.

Lemma correct_length_raises (words : list string) (v : json) :
  rraises_only data_error (correct_length words v).
Proof.
  intros e. unfold correct_length.
  destruct v; simpl; try (by intros [= <-]);
    repeat destruct (decide _); by intros [= <-].
Qed.

Lemma merge_raises (pairs : list (Z * json)) (st : run_state) :
  rraises_only data_error (merge st pairs).
Proof.
  revert st. induction pairs as [|[idx c] pairs IH]; intros st; simpl; [done|].
  apply rraises_only_rbind; [|done].
  unfold merge_one. apply rraises_only_rbind.
  - intros e. unfold words_set_clue.
    destruct (py_index _ _); [destruct (_ !! _)|]; by intros [= <-].
  - intros ws. apply rraises_only_rbind; [|done].
    intros e. destruct (clues_cache st); by intros [= <-].
Qed.

Lemma setitem_raises (v : json) (k : string) (x : json) :
  rraises_only data_error (setitem v k x).
Proof. intros e. destruct v; by intros [= <-]. Qed.

Lemma getitem_raises (v : json) (k : string) : rraises_only data_error (getitem v k).
Proof. intros e. destruct v; simpl; try (by intros [= <-]). destruct (dict_get _ _); by intros [= <-]. Qed.

Lemma py_iter_raises (v : json) : rraises_only data_error (py_iter v).
Proof. intros e. destruct v; by intros [= <-]. Qed.

Lemma py_set_raises (v : json) : rraises_only data_error (py_set v).
Proof.
  intros e. destruct v; simpl; try (by intros [= <-]).
  apply rraises_only_rbind; [|done].
  apply rraises_only_rmap. intros x e'. destruct x; by intros [= <-].
Qed.

Lemma retry_loop_raises (json_loads : string → option json) (service : nat → reply)
    (words : list string) (attempts : list nat) :
  raises_only data_error (retry_loop json_loads service words attempts).
Proof.
  induction attempts as [|t attempts IH]; simpl; [done|].
  apply raises_only_bind; [apply raises_only_emit|]. intros _.
  destruct (service t) as [|content]; [|destruct (json_loads content)].
  - apply raises_only_bind; [|done].
    destruct (decide _); [apply raises_only_emit | apply raises_only_ret].
  - apply raises_only_lift, correct_length_raises.
  - apply raises_only_bind; [|done].
    destruct (decide _); [apply raises_only_emit | apply raises_only_ret].
Qed.

Lemma run_batch_raises json_loads json_dump service B indices count batch_num st :
  raises_only data_error
    (run_batch json_loads json_dump service B indices count batch_num st).
Proof.
  unfold run_batch.
  apply raises_only_bind.
  { apply raises_only_lift, rraises_only_rmap. intros i.
    apply rraises_only_rbind; [apply list_getitem_raises | done]. }
  intros bw. apply raises_only_bind.
  { apply raises_only_lift. intros e. destruct bw; by intros [= <-]. }
  intros _. apply raises_only_bind; [apply retry_loop_raises|].
  intros clues. apply raises_only_bind; [apply raises_only_lift, py_iter_raises|].
  intros items. apply raises_only_bind; [apply raises_only_lift, merge_raises|].
  intros st1. apply raises_only_bind; [apply raises_only_lift, setitem_raises|].
  intros p1. apply raises_only_bind; [apply raises_only_lift, setitem_raises|].
  intros p2. apply raises_only_bind; [apply raises_only_emit|].
  intros _. apply raises_only_bind; [|intros _; apply raises_only_ret].
  destruct (decide _); [apply raises_only_emit | apply raises_only_ret].
Qed.

Lemma batch_loop_raises json_loads json_dump service B indices count nums st :
  raises_only data_error
    (batch_loop json_loads json_dump service B indices count nums st).
Proof.
  revert st. induction nums as [|n nums IH]; intros st; simpl; [done|].
  apply raises_only_bind; [apply run_batch_raises | done].
Qed.

Lemma retry_loop_raise_inv (json_loads : string → option json) (service : nat → reply)
    (words : list string) (attempts : list nat) (tr : list event) (e : exn) :
  retry_loop json_loads service words attempts = (tr, Raise e) →
  ∃ pre t post content v,
    attempts = pre ++ t :: post
    ∧ Forall (λ s, fails json_loads (service s)) pre
    ∧ service t = Responds content
    ∧ json_loads content = Some v
    ∧ correct_length words v = Raise e
    ∧ requests tr = replicate (S (length pre)) words.
Proof.
  revert tr. induction attempts as [|t attempts IH]; intros tr; simpl; [done|].
  rewrite bind_emit.
  destruct (service t) as [|content] eqn:Hs;
    [|destruct (json_loads content) as [v|] eqn:Hv].
  - destruct (retry_loop _ _ _ attempts) as [tr' r] eqn:Hr.
    destruct (decide _); rewrite ?bind_emit, ?bind_ret; simpl; intros [= <- ->];
      destruct (IH _ eq_refl) as (pre & t' & post & c & v & -> & Hpre & Ht & Hv & Hc & Hreq);
      exists (t :: pre), t', post, c, v; simpl; rewrite ?requests_app, Hreq;
      (repeat split; try done); constructor; try done; unfold fails; by rewrite Hs.
  - simpl. intros [= <- Hc]. exists [], t, attempts, content, v. by repeat split.
  - destruct (retry_loop _ _ _ attempts) as [tr' r] eqn:Hr.
    destruct (decide _); rewrite ?bind_emit, ?bind_ret; simpl; intros [= <- ->];
      destruct (IH _ eq_refl) as (pre & t' & post & c & v & -> & Hpre & Ht & Hv' & Hc & Hreq);
      exists (t :: pre), t', post, c, v; simpl; rewrite ?requests_app, Hreq;
      (repeat split; try done); constructor; try done; unfold fails; by rewrite Hs.
Qed.

Lemma seq_0_split (n : nat) (pre post : list nat) (t : nat) :
  seq 0 n = pre ++ t :: post → t = length pre ∧ pre = seq 0 t ∧ (t < n)%nat.
Proof.
  intros Hseq.
  assert (seq 0 n !! length pre = Some t) as Ht.
  { rewrite Hseq, lookup_app_r by done. by rewrite Nat.sub_diag. }
  apply lookup_seq in Ht as [-> Hlt]. split; [done|]. split; [|done].
  apply (f_equal (take (length pre))) in Hseq.
  rewrite take_app_length, take_seq in Hseq. simpl in Hlt.
  symmetry. etrans; [|exact Hseq]. f_equal. lia.
Qed.

(** X4.  For a service as [reply] has it (a call raises [APIError] or
    gives a text that the decoder accepts or rejects):
    [generate_clues_batch] hands on no error of the service and no decoding
    error.  When it raises, some attempt [t], after failed attempts only,
    got an answer that decodes to a value that is no array, and the call
    has sent [t + 1] requests. *)
Theorem generate_clues_batch_exceptions
    (json_loads : string → option json) (service : nat → reply) (words : list string)
    (tr : list event) (e : exn) :
  generate_clues_batch json_loads service words = (tr, Raise e) →
  e ≠ APIError
  ∧ e ≠ JSONDecodeError
  ∧ ∃ t content v,
      (t < MAX_RETRIES)%nat
      ∧ (∀ s, (s < t)%nat → fails json_loads (service s))
      ∧ service t = Responds content
      ∧ json_loads content = Some v
      ∧ (∀ l, v ≠ JArr l)
      ∧ requests tr = replicate (S t) words.
Proof.
  intros Hrun.
  assert (data_error e) as He.
  { pose proof (retry_loop_raises json_loads service words (seq 0 MAX_RETRIES)) as H.
    unfold generate_clues_batch in Hrun. apply H. by rewrite Hrun. }
  apply retry_loop_raise_inv in Hrun
    as (pre & t & post & content & v & Hseq & Hpre & Hs & Hv & Hc & Hreq).
  apply seq_0_split in Hseq as (Ht & Hpreseq & Hlt). subst pre. rewrite length_seq in Hreq.
  split; [by intros ->|]. split; [by intros ->|].
  exists t, content, v. repeat split; try done.
  - intros s Hs'. rewrite Forall_forall in Hpre. apply Hpre, elem_of_seq. lia.
  - intros l ->. by rewrite correct_length_array in Hc.
Qed.

Lemma bind_loop_events {A B} (m : M A) (k : A → M B) :
  Forall loop_event m.1 → (∀ a, Forall loop_event (k a).1) →
  Forall loop_event (bind m k).1.
Proof.
  intros Hm Hk. rewrite bind_trace. apply Forall_app. split; [done|].
  destruct m.2; [apply Hk | constructor].
Qed.

Lemma run_batch_trace json_loads json_dump service B indices count batch_num st :
  Forall loop_event
    (run_batch json_loads json_dump service B indices count batch_num st).1.
Proof.
  unfold run_batch.
  apply bind_loop_events; [constructor|]. intros bw.
  apply bind_loop_events; [constructor|]. intros _.
  apply bind_loop_events.
  { eapply Forall_impl; [apply retry_loop_neutral | apply fs_neutral_loop_event]. }
  intros clues. apply bind_loop_events; [constructor|]. intros items.
  apply bind_loop_events; [constructor|]. intros st1.
  apply bind_loop_events; [constructor|]. intros p1.
  apply bind_loop_events; [constructor|]. intros p2.
  apply bind_loop_events.
  { unfold save_progress. constructor; [done|].
    apply Forall_fmap, Forall_true. by intros c. }
  intros _. apply bind_loop_events; [|intros _; constructor].
  destruct (decide _); repeat constructor.
Qed.

Lemma batch_loop_trace json_loads json_dump service B indices count nums st :
  Forall loop_event
    (batch_loop json_loads json_dump service B indices count nums st).1.
Proof.
  revert st. induction nums as [|n nums IH]; intros st; simpl; [constructor|].
  apply bind_loop_events; [apply run_batch_trace | done].
Qed.

Lemma main_loop_trace json_loads json_dump a d fs service :
  Forall loop_event (main_loop json_loads json_dump a d fs service).1.
Proof.
  unfold main_loop.
  apply bind_loop_events; [constructor|]. intros p.
  apply bind_loop_events; [constructor|]. intros completed.
  apply bind_loop_events; [constructor|]. intros cache.
  destruct (dry_run a).
  - apply bind_loop_events; [constructor|]. intros _. constructor.
  - apply bind_loop_events; [apply batch_loop_trace|]. intros st. constructor.
Qed.

(** What makes the part of [main] before the final commit raise. *)
Lemma main_loop_raise_inv json_loads json_dump a d fs service tr e :
  main_loop json_loads json_dump a d fs service = (tr, Raise e) →
  (e = JSONDecodeError ∧ tr = []
   ∧ ∃ content, fs !! PROGRESS_FILE = Some content ∧ json_loads content = None)
  ∨ data_error e.
Proof.
  unfold main_loop, load_progress.
  destruct (fs !! PROGRESS_FILE) as [content|] eqn:Hfile;
    [destruct (json_loads content) as [p|] eqn:Hp|].
  - rewrite bind_lift_return. intros H. right. revert H.
    match goal with |- ?m = _ → _ =>
      assert (raises_only data_error m) as Hr; [|intros H; apply Hr; by rewrite H] end.
    apply raises_only_bind.
    { apply raises_only_lift, rraises_only_rbind; [apply getitem_raises|].
      intros v. apply py_set_raises. }
    intros completed. apply raises_only_bind; [apply raises_only_lift, getitem_raises|].
    intros cache. destruct (dry_run a).
    + apply raises_only_bind; [|intros _; apply raises_only_ret].
      apply raises_only_lift, rraises_only_rmap. intros i. apply list_getitem_raises.
    + apply raises_only_bind; [apply batch_loop_raises|]. intros st. apply raises_only_ret.
  - intros [= <- <-]. left. split; [done|]. split; [done|]. by exists content.
  - rewrite bind_lift_return. intros H. right. revert H.
    match goal with |- ?m = _ → _ =>
      assert (raises_only data_error m) as Hr; [|intros H; apply Hr; by rewrite H] end.
    apply raises_only_bind.
    { apply raises_only_lift, rraises_only_rbind; [apply getitem_raises|].
      intros v. apply py_set_raises. }
    intros completed. apply raises_only_bind; [apply raises_only_lift, getitem_raises|].
    intros cache. destruct (dry_run a).
    + apply raises_only_bind; [|intros _; apply raises_only_ret].
      apply raises_only_lift, rraises_only_rmap. intros i. apply list_getitem_raises.
    + apply raises_only_bind; [apply batch_loop_raises|]. intros st. apply raises_only_ret.
Qed.

Lemma main_raise_inv json_loads json_dump a env_key now d fs service tr e :
  main json_loads json_dump a env_key now d fs service = (tr, Raise e) →
  (e = SystemExit 1 ∧ tr = []
   ∧ py_truthy (api_key a) = false ∧ py_truthy env_key = false ∧ dry_run a = false)
  ∨ (e ≠ SystemExit 1
     ∧ main_loop json_loads json_dump a d fs service = (tr, Raise e)).
Proof.
  unfold main.
  destruct (negb _ && negb _) eqn:Hkey.
  - intros [= <- <-]. left. apply andb_true_iff in Hkey as [Hk Hd].
    apply negb_true_iff in Hk, Hd. split; [done|]. split; [done|].
    destruct (py_truthy (api_key a)) eqn:Ha; [by rewrite Ha in Hk|]. done.
  - destruct (main_loop _ _ _ _ _ _) as [tr' [[st|]|e']] eqn:Hloop; try done.
    intros [= <- <-]. right. split; [|done].
    apply main_loop_raise_inv in Hloop as [(-> & _)|He]; [done|]. by intros ->.
Qed.

(** What makes [main()] raise: the parser, the key check, the dataset
    file, or the rest of the run. *)
Lemma run_main_raise_inv json_loads json_dump p env_key now l fs service tr e :
  run_main json_loads json_dump p env_key now l fs service = (tr, Raise e) →
  (tr = [] ∧ ∃ status, p = ParseExit status ∧ e = SystemExit status)
  ∨ (tr = [] ∧ e = SystemExit 1
     ∧ ∃ a, p = Parsed a ∧ py_truthy (api_key a) = false
            ∧ py_truthy env_key = false ∧ dry_run a = false)
  ∨ (tr = [] ∧ e = JSONDecodeError ∧ l = LoadRaises)
  ∨ (∃ a d, p = Parsed a ∧ l = Loaded d ∧ e ≠ SystemExit 1
            ∧ main_loop json_loads json_dump a d fs service = (tr, Raise e)).
Proof.
  unfold run_main. destruct p as [status|a].
  { intros [= <- <-]. left. split; [done|]. by exists status. }
  destruct (negb _ && negb _) eqn:Hkey.
  { intros [= <- <-]. right. left. apply andb_true_iff in Hkey as [Hk Hd].
    apply negb_true_iff in Hk, Hd. split; [done|]. split; [done|]. exists a.
    split; [done|]. destruct (py_truthy (api_key a)) eqn:Ha; [by rewrite Ha in Hk|]. done. }
  destruct l as [|d].
  { intros [= <- <-]. right. right. by left. }
  intros [(_ & _ & Hk & He & Hd)|[Hne Hloop]]%main_raise_inv.
  - rewrite Hk, He, Hd in Hkey. done.
  - right. right. right. by exists a, d.
Qed.

(** X5.  The exit status of [main()].  The parser may leave the script
    with its own status.  Once the command line is parsed, a run without
    [--dry-run] that has no key on the command line and none in the
    environment (an empty key counts as none) exits with status 1 before
    any effect, whatever the dataset file holds.  And [SystemExit] comes
    from nowhere else: when it is raised nothing has happened yet, and
    either the parser has left with that status, or the status is 1, the
    key is missing and the run is no dry run. *)
Theorem main_missing_key
    (json_loads : string → option json) (json_dump : option nat → json → list string)
    (p : parse_outcome) (env_key : option string) (now : string) (l : load_outcome)
    (fs : gmap string string) (service : nat → nat → reply) :
  (∀ status, p = ParseExit status →
     run_main json_loads json_dump p env_key now l fs service
     = ([], Raise (SystemExit status)))
  ∧ (∀ a, p = Parsed a →
       py_truthy (api_key a) = false → py_truthy env_key = false → dry_run a = false →
       run_main json_loads json_dump p env_key now l fs service
       = ([], Raise (SystemExit 1)))
  ∧ (∀ tr status,
       run_main json_loads json_dump p env_key now l fs service
       = (tr, Raise (SystemExit status)) →
       tr = []
       ∧ (p = ParseExit status
          ∨ (status = 1
             ∧ ∃ a, p = Parsed a ∧ py_truthy (api_key a) = false
                    ∧ py_truthy env_key = false ∧ dry_run a = false))).
Proof.
  split; [|split].
  - by intros status ->.
  - intros a -> Hk He Hd. unfold run_main. by rewrite Hk, He, Hd.
  - intros tr status
      [(-> & s0 & -> & [= ->])|[(-> & [= ->] & Ha)|[(_ & ? & _)|(a & d & _ & _ & _ & Hloop)]]]
      %run_main_raise_inv; [by split; [|left] | by split; [|right] | done |].
    by apply main_loop_raise_inv in Hloop as [(? & _)|?].
Qed.

(** X6.  A run of [main()] that raises has never let an error of the
    service through.  It raises [JSONDecodeError] only before any effect,
    and only for a dataset file or a checkpoint file that does not decode.
    It has done nothing but requests, pauses and checkpoint writes: the
    dataset file is as it was, and a checkpoint file that existed still
    exists. *)
Theorem main_failure
    (json_loads : string → option json) (json_dump : option nat → json → list string)
    (p : parse_outcome) (env_key : option string) (now : string) (l : load_outcome)
    (fs : gmap string string) (service : nat → nat → reply)
    (tr : list event) (e : exn) :
  run_main json_loads json_dump p env_key now l fs service = (tr, Raise e) →
  e ≠ APIError
  ∧ (e = JSONDecodeError →
     tr = []
     ∧ (l = LoadRaises
        ∨ ∃ content, fs !! PROGRESS_FILE = Some content ∧ json_loads content = None))
  ∧ Forall loop_event tr
  ∧ replay fs tr !! OUTPUT_FILE = fs !! OUTPUT_FILE
  ∧ (is_Some (fs !! PROGRESS_FILE) → is_Some (replay fs tr !! PROGRESS_FILE)).
Proof.
  intros Hmain.
  assert (Forall loop_event tr) as Hev.
  { apply run_main_raise_inv in Hmain
      as [(-> & _)|[(-> & _)|[(-> & _)|(a & d & _ & _ & _ & Hloop)]]];
      [constructor..|].
    pose proof (main_loop_trace json_loads json_dump a d fs service) as H.
    by rewrite Hloop in H. }
  split; [|split; [|split; [done|split]]].
  - apply run_main_raise_inv in Hmain
      as [(_ & status & _ & ->)|[(_ & -> & _)|[(_ & -> & _)|(a & d & _ & _ & _ & Hloop)]]];
      [done..|].
    by apply main_loop_raise_inv in Hloop as [(-> & _)|He]; [|intros ->].
  - intros ->. apply run_main_raise_inv in Hmain
      as [(_ & status & _ & ?)|[(_ & ? & _)|[(-> & _ & ->)|(a & d & _ & _ & _ & Hloop)]]];
      [done | done | by split; [|left] |].
    apply main_loop_raise_inv in Hloop as [(_ & -> & Hc)|He]; [|done].
    split; [done|]. by right.
  - by apply replay_loop_output.
  - clear Hmain. revert fs. induction Hev as [|ev tr Hev _ IH]; intros fs Hfs; [done|].
    cbn [replay foldl]. apply IH.
    destruct ev; simpl in *; try done.
    + destruct (decide (path = PROGRESS_FILE)) as [->|?];
        [rewrite lookup_insert_eq; by eexists | by rewrite lookup_insert_ne].
    + destruct Hfs as [x Hx].
      destruct (decide (path = PROGRESS_FILE)) as [->|?];
        [rewrite lookup_alter_eq, Hx; by eexists | rewrite lookup_alter_ne by done; by eexists].
Qed.

(** ** What a batch stores *)

Lemma merge_cache_other (pairs : list (Z * json)) (st st' : run_state) (d : dict) (k : string) :
  merge st pairs = Return st' →
  clues_cache st = JObj d →
  k ∉ py_str <$> pairs.*1 →
  ∃ d', clues_cache st' = JObj d' ∧ dict_get d' k = dict_get d k.
Proof.
  revert st d. induction pairs as [|[idx c] pairs IH]; intros st d; simpl.
  - intros [= <-] Hd _. by exists d.
  - intros (st1 & Hone & Hrest)%rbind_return_inv Hd Hk.
    unfold merge_one in Hone.
    apply rbind_return_inv in Hone as (ws1 & Hws & Hone).
    apply rbind_return_inv in Hone as (cache1 & Hcache & [= <-]).
    rewrite Hd in Hcache. injection Hcache as <-.
    apply not_elem_of_cons in Hk as [Hne Hk].
    destruct (IH _ _ Hrest eq_refl Hk) as (d' & Hd' & Hget).
    exists d'. split; [done|]. rewrite Hget, dict_get_set. by rewrite decide_False.
Qed.

Lemma merge_lookup (pairs : list (Z * json)) (st st' : run_state) (d : dict) :
  merge st pairs = Return st' →
  clues_cache st = JObj d →
  NoDup pairs.*1 →
  Forall (λ i, 0 ≤ i < Z.of_nat (length (words (data st)))) pairs.*1 →
  ∀ idx c, (idx, c) ∈ pairs →
    clue <$> words (data st') !! Z.to_nat idx = Some (Some c)
    ∧ getitem (clues_cache st') (py_str idx) = Return c.
Proof.
  revert st d. induction pairs as [|[idx0 c0] pairs IH]; intros st d Hmerge Hd Hnd Hvalid idx c Hin.
  { by apply not_elem_of_nil in Hin. }
  rewrite fmap_cons in Hnd, Hvalid. apply NoDup_cons in Hnd as [Hnotin Hnd].
  apply Forall_cons in Hvalid as [Hidx0 Hvalid]. cbn [fst] in *.
  cbn [merge] in Hmerge.
  apply rbind_return_inv in Hmerge as (st1 & Hone & Hrest).
  unfold merge_one in Hone.
  apply rbind_return_inv in Hone as (ws1 & Hws & Hone).
  apply rbind_return_inv in Hone as (cache1 & Hcache & [= <-]).
  rewrite Hd in Hcache. injection Hcache as <-.
  assert (length ws1 = length (words (data st))) as Hlen.
  { by apply words_set_clue_spec in Hws as [? _]. }
  apply elem_of_cons in Hin as [[= -> ->]|Hin].
  - unfold words_set_clue, py_index in Hws. rewrite decide_True in Hws by done.
    destruct (words (data st) !! Z.to_nat idx0) as [e0|] eqn:He0; [|done].
    injection Hws as <-.
    apply merge_spec in Hrest as Hspec. destruct Hspec as (_ & _ & _ & [_ Hframe] & _).
    cbn [data words] in Hframe.
    destruct (Hframe (Z.to_nat idx0) (set_clue e0 c0)) as (e' & He' & _ & _ & _ & Hsame).
    { apply list_lookup_insert_eq. by eapply lookup_lt_Some. }
    split.
    + rewrite He'. simpl. rewrite Hsame; [done|].
      intros (i & Hi & Hp). rewrite length_insert in Hp.
      rewrite Forall_forall in Hvalid.
      apply py_index_valid in Hp; [|by apply Hvalid].
      apply Hnotin. replace idx0 with i by lia. done.
    + destruct (merge_cache_other _ _ _ _ (py_str idx0) Hrest eq_refl) as (d' & Hd' & Hget).
      { intros (i & Hi%pretty_Z_inj & Hin)%list_elem_of_fmap. by subst i. }
      rewrite Hd'. simpl. rewrite Hget, dict_get_set. by rewrite decide_True.
  - eapply (IH _ _ Hrest); simpl; [done|done| |done].
    by rewrite Hlen.
Qed.

Lemma batch_words_lookup (ws : list word_entry) (batch : list Z) (bw : list string) :
  rmap (λ i, rbind (list_getitem ws i) (λ e, Return (word e))) batch = Return bw →
  ∀ q idx, batch !! q = Some idx →
    ∃ e, list_getitem ws idx = Return e ∧ bw !! q = Some (word e).
Proof.
  revert bw. induction batch as [|i batch IH]; intros bw; simpl; [done|].
  intros (w & Hw & (bw' & Hbw' & [= <-])%rbind_return_inv)%rbind_return_inv.
  apply rbind_return_inv in Hw as (e & He & [= <-]).
  intros [|q] idx; simpl.
  - intros [= <-]. by exists e.
  - by apply IH.
Qed.

Lemma StronglySorted_lt_NoDup (l : list Z) : StronglySorted Z.lt l → NoDup l.
Proof.
  induction 1 as [|x l _ IH Hx]; constructor; [|done].
  intros Hin. rewrite Forall_forall in Hx. apply Hx in Hin. lia.
Qed.

Lemma batch_indices_NoDup (B : nat) (indices : list Z) (k : nat) :
  NoDup indices → NoDup (batch_indices B indices k).
Proof.
  intros H. rewrite batch_indices_slice.
  apply (sublist_NoDup _ indices); [done|].
  transitivity (drop (k * B) indices); [apply sublist_take | apply sublist_drop].
Qed.

(** X7.  For a start offset that is not negative, a turn of the batch loop
    stores each clue at the index of its word: the word sent at position [q]
    of the request is the word of the entry at the [q]-th index of the batch,
    and the [q]-th clue of the answer is afterwards the clue of that entry,
    which is otherwise unchanged, and the value of the clue map at
    [str(idx)]. *)
Theorem run_batch_stores_clues
    (json_loads : string → option json) (json_dump : option nat → json → list string)
    (service : nat → reply) (B : nat) (a : args) (completed0 : gset Z) (cd : dict)
    (count batch_num : nat) (st st' : run_state) (tr : list event) :
  0 ≤ start a →
  clues_cache st = JObj cd →
  run_batch json_loads json_dump service B
    (indices_to_process (length (words (data st))) completed0 a)
    count batch_num st = (tr, Return st') →
  ∃ batch_words tr_g clues items,
    generate_clues_batch json_loads service batch_words = (tr_g, Return clues)
    ∧ py_iter clues = Return items
    ∧ ∀ q idx,
        batch_indices B (indices_to_process (length (words (data st))) completed0 a)
          batch_num !! q = Some idx →
        ∃ e c,
          words (data st) !! Z.to_nat idx = Some e
          ∧ batch_words !! q = Some (word e)
          ∧ items !! q = Some c
          ∧ words (data st') !! Z.to_nat idx = Some (set_clue e c)
          ∧ getitem (clues_cache st') (py_str idx) = Return c.
Proof.
  intros Hstart Hcd Hrun.
  set (indices := indices_to_process _ _ _) in *.
  assert (Forall (λ i, 0 ≤ i < Z.of_nat (length (words (data st))))
            (batch_indices B indices batch_num)) as Hvalid.
  { by apply batch_indices_Forall, indices_to_process_valid. }
  assert (NoDup (batch_indices B indices batch_num)) as Hnd.
  { apply batch_indices_NoDup, StronglySorted_lt_NoDup, indices_to_process_spec. }
  apply run_batch_inv in Hrun
    as (bw & tr_g & clues & items & st1 & p1 & p2
        & Hbw & _ & Hg & Hitems & Hmerge & Hp1 & Hp2 & -> & ->).
  pose proof (run_batch_pairs json_loads service B indices batch_num st
                bw tr_g clues items Hbw Hg Hitems) as Hfst.
  exists bw, tr_g, clues, items. split; [done|]. split; [done|].
  intros q idx Hq. cbn [data clues_cache].
  assert (0 ≤ idx < Z.of_nat (length (words (data st)))) as Hidx.
  { rewrite Forall_forall in Hvalid. apply Hvalid. by eapply list_elem_of_lookup_2. }
  destruct (batch_words_lookup _ _ _ Hbw q idx Hq) as (e & He & Hbwq).
  unfold list_getitem, py_index in He. rewrite decide_True in He by done.
  destruct (words (data st) !! Z.to_nat idx) as [e0|] eqn:He0; [|done].
  injection He as ->.
  assert (length items = length (batch_indices B indices batch_num)) as Hlen.
  { apply rmap_length in Hbw. apply retry_loop_len in Hg.
    rewrite (py_iter_length _ _ _ Hg Hitems). done. }
  destruct (lookup_lt_is_Some_2 items q) as [c Hc].
  { rewrite Hlen. by eapply lookup_lt_Some. }
  exists e, c. split; [done|]. split; [done|]. split; [done|].
  destruct (merge_lookup _ _ _ cd Hmerge Hcd) with (idx := idx) (c := c)
    as [Hclue Hcache]; [by rewrite Hfst..| |].
  { apply list_elem_of_lookup. exists q. unfold zip.
    apply lookup_zip_with_Some. by exists idx, c. }
  split; [|done].
  apply merge_spec in Hmerge as (_ & _ & _ & [_ Hframe] & _).
  destruct (Hframe _ _ He0) as (e' & He' & Hw & Hwl & Hdl & _).
  rewrite He' in Hclue |- *. injection Hclue as Hclue.
  f_equal. destruct e'. simpl in *. unfold set_clue. by subst.
Qed.

(** ** Resuming from a checkpoint *)

Lemma rmap_JInt (l : list Z) :
  rmap (λ x, match x with JInt i => Return i | _ => Raise TypeError end) (JInt <$> l)
  = Return l.
Proof.
  induction l as [|i l IH]; [done|].
  rewrite fmap_cons. cbn [rmap rbind]. by rewrite IH.
Qed.

Lemma py_set_elements (X : gset Z) : py_set (JArr (JInt <$> elements X)) = Return X.
Proof.
  unfold py_set. rewrite rmap_JInt. cbn [rbind]. f_equal. apply list_to_set_elements_L.
Qed.

Lemma indices_to_process_union (total_words : nat) (X Y : gset Z) (a : args) :
  indices_to_process total_words (X ∪ Y) a
  = filter (λ i, i ∉ X) (indices_to_process total_words Y a).
Proof.
  unfold indices_to_process. rewrite list_filter_filter.
  apply list_filter_iff. intros i. set_solver.
Qed.

(** X8.  What a turn of the batch loop saves, a later run reads back: if
    the decoder inverts the encoder on the saved checkpoint, then loading the
    checkpoint file after the turn gives the checkpoint of the turn, its
    completed indices are the completed set and its clues the clue map, and
    the pending list computed from it is the previous one without the indices
    of the batch. *)
Theorem run_batch_resume
    (json_loads : string → option json) (json_dump : option nat → json → list string)
    (service : nat → reply) (B : nat) (indices : list Z)
    (count batch_num : nat) (st st' : run_state) (tr : list event)
    (fs : gmap string string) :
  run_batch json_loads json_dump service B indices count batch_num st = (tr, Return st') →
  json_loads (text_of (json_dump None (progress st'))) = Some (progress st') →
  load_progress json_loads (replay fs tr) = Return (progress st')
  ∧ rbind (getitem (progress st') "completed_indices") py_set = Return (completed_set st')
  ∧ getitem (progress st') "clues" = Return (clues_cache st')
  ∧ ∀ total_words a,
      indices_to_process total_words (completed_set st') a
      = filter (λ i, i ∉ batch_indices B indices batch_num)
          (indices_to_process total_words (completed_set st) a).
Proof.
  intros Hrun Hcodec.
  apply run_batch_inv in Hrun
    as (bw & tr_g & clues & items & st1 & p1 & p2
        & Hbw & _ & Hg & Hitems & Hmerge & Hp1 & Hp2 & -> & ->).
  pose proof (run_batch_pairs json_loads service B indices batch_num st
                bw tr_g clues items Hbw Hg Hitems) as Hfst.
  apply merge_spec in Hmerge as (_ & _ & Hcomp & _ & _).
  rewrite Hfst in Hcomp. cbn [progress clues_cache completed_set] in *.
  destruct (progress st1) as [| | | | | |pd]; try done.
  simpl in Hp1. injection Hp1 as <-. simpl in Hp2. injection Hp2 as <-.
  split; [|split; [|split]].
  - assert (Forall fs_neutral tr_g) as Hng.
    { pose proof (retry_loop_neutral json_loads service bw (seq 0 MAX_RETRIES)) as H.
      unfold generate_clues_batch in Hg. by rewrite Hg in H. }
    unfold load_progress.
    rewrite !replay_app, (replay_neutral _ tr_g) by done.
    rewrite (replay_neutral (replay fs _)) by (destruct (decide _); repeat constructor).
    by rewrite replay_save_progress, Hcodec.
  - cbn [getitem]. rewrite !dict_get_set.
    rewrite decide_False, decide_True by done. cbn [rbind]. apply py_set_elements.
  - cbn [getitem]. rewrite !dict_get_set. by rewrite decide_True.
  - intros total_words a. rewrite Hcomp, indices_to_process_union.
    apply list_filter_iff. intros i. by rewrite elem_of_list_to_set.
Qed.

(** ** The whole loop *)

Lemma words_set_clue_has_clue (ws ws' : list word_entry) (idx : Z) (c : json) p e' :
  words_set_clue ws idx c = Return ws' →
  ws' !! p = Some e' →
  (py_index (length ws) idx = Some p ∨ ∃ e, ws !! p = Some e ∧ is_Some (clue e)) →
  is_Some (clue e').
Proof.
  unfold words_set_clue. destruct (py_index (length ws) idx) as [q|]; [|done].
  destruct (ws !! q) as [e0|] eqn:Hq; [|done]. intros [= <-] He'.
  destruct (decide (q = p)) as [->|Hne].
  - rewrite list_lookup_insert_eq in He' by by eapply lookup_lt_Some.
    injection He' as <-. by eexists.
  - rewrite list_lookup_insert_ne in He' by done.
    intros [[= ?]|(e & He & Hc)]; [done|]. congruence.
Qed.

Lemma merge_has_clue (pairs : list (Z * json)) (st st' : run_state) p e' :
  merge st pairs = Return st' →
  words (data st') !! p = Some e' →
  ((∃ idx, idx ∈ pairs.*1 ∧ py_index (length (words (data st))) idx = Some p)
   ∨ ∃ e, words (data st) !! p = Some e ∧ is_Some (clue e)) →
  is_Some (clue e').
Proof.
  revert st. induction pairs as [|[idx c] pairs IH]; intros st; simpl.
  - intros [= <-] He' [(i & Hi & _)|(e & He & Hc)].
    + by apply not_elem_of_nil in Hi.
    + congruence.
  - intros (st1 & Hone & Hrest)%rbind_return_inv He' Hor.
    unfold merge_one in Hone.
    apply rbind_return_inv in Hone as (ws1 & Hws & Hone).
    apply rbind_return_inv in Hone as (cache1 & Hcache & [= <-]).
    apply words_set_clue_spec in Hws as Hframe. destruct Hframe as [Hlen Hframe].
    apply (IH _ Hrest He'). cbn [data words]. rewrite Hlen.
    destruct (ws1 !! p) as [e1|] eqn:He1.
    2:{ exfalso. apply lookup_ge_None in He1.
        apply merge_spec in Hrest as (_ & _ & _ & [Hlen' _] & _). cbn [data words] in Hlen'.
        apply lookup_lt_Some in He'. lia. }
    destruct Hor as [(i & [->|Hi]%elem_of_cons & Hp)|Hold].
    + right. exists e1. split; [done|].
      eapply words_set_clue_has_clue; [exact Hws | exact He1 | by left].
    + left. by exists i.
    + right. exists e1. split; [done|].
      eapply words_set_clue_has_clue; [exact Hws | exact He1 | by right].
Qed.

Section Loop.
Variable json_loads : string → option json.
Variable json_dump : option nat → json → list string.

(** What the batch loop has done when it returns, for a list of valid
    indices: the batches it ran are completed, their entries have clues,
    and nothing else has changed. *)
Lemma batch_loop_spec service B indices count nums st tr st' :
  batch_loop json_loads json_dump service B indices count nums st = (tr, Return st') →
  Forall (λ i, 0 ≤ i < Z.of_nat (length (words (data st)))) indices →
  metadata (data st') = metadata (data st)
  ∧ completed_set st'
    = list_to_set (concat (batch_indices B indices <$> nums)) ∪ completed_set st
  ∧ clues_only (λ p, Z.of_nat p ∈ concat (batch_indices B indices <$> nums))
      (words (data st)) (words (data st'))
  ∧ ∀ p e', words (data st') !! p = Some e' →
      (Z.of_nat p ∈ concat (batch_indices B indices <$> nums)
       ∨ ∃ e, words (data st) !! p = Some e ∧ is_Some (clue e)) →
      is_Some (clue e').
Proof.
  revert st tr. induction nums as [|n nums IH]; intros st tr; simpl.
  - intros [= _ <-] _. split; [done|]. split; [set_solver|].
    split; [apply clues_only_refl|].
    intros p e' He' [Hin|(e & He & Hc)]; [by apply not_elem_of_nil in Hin | congruence].
  - intros (tr1 & st1 & tr2 & Hrun & Hloop & ->)%bind_return_inv Hvalid.
    assert (Forall (λ i, 0 ≤ i < Z.of_nat (length (words (data st))))
              (batch_indices B indices n)) as Hbvalid by by apply batch_indices_Forall.
    apply run_batch_inv in Hrun
      as (bw & tr_g & clues & items & st0 & p1 & p2
          & Hbw & _ & Hg & Hitems & Hmerge & Hp1 & Hp2 & _ & ->).
    pose proof (run_batch_pairs json_loads (service n) B indices n st
                  bw tr_g clues items Hbw Hg Hitems) as Hfst.
    pose proof (λ p e, merge_has_clue _ _ _ p e Hmerge) as Hclue. rewrite Hfst in Hclue.
    apply merge_spec in Hmerge as (Hmeta & _ & Hcomp & Hframe & _).
    rewrite Hfst in Hcomp, Hframe. pose proof Hframe as [Hlen _].
    destruct (IH _ _ Hloop) as (Hmeta' & Hcomp' & Hframe' & Hclue').
    { cbn [data words]. by rewrite Hlen. }
    cbn [data metadata completed_set words] in *.
    split; [congruence|]. split; [rewrite Hcomp', Hcomp; set_solver|]. split.
    + refine (clues_only_trans _ _ _ _ _ _ _ _ Hframe Hframe').
      * intros p (idx & Hidx & Hp). rewrite Forall_forall in Hbvalid.
        apply py_index_valid in Hp; [|by apply Hbvalid]. subst idx.
        apply elem_of_app. by left.
      * intros p Hp. apply elem_of_app. by right.
    + intros p e' He' Hor. apply (Hclue' p e' He').
      destruct Hor as [[Hin|Hin]%elem_of_app|(e & He & Hc)]; [|by left|].
      * right. destruct Hframe' as [Hlen' _].
        destruct (lookup_lt_is_Some_2 (words (data st0)) p) as [e0 He0].
        { rewrite <- Hlen'. by eapply lookup_lt_Some. }
        exists e0. split; [done|]. apply (Hclue p e0 He0). left.
        exists (Z.of_nat p). split; [done|].
        rewrite Forall_forall in Hbvalid. specialize (Hbvalid _ Hin).
        unfold py_index. rewrite decide_True by done. by rewrite Nat2Z.id.
      * right. destruct Hframe as [_ Hframe]. destruct (Hframe p e He) as (e0 & He0 & _).
        exists e0. split; [done|]. apply (Hclue p e0 He0). right. by exists e.
Qed.
End Loop.

Lemma batches_concat_all (B : nat) (indices : list Z) :
  (0 < B)%nat →
  concat (batch_indices B indices <$> seq 0 (batch_count B (length indices))) = indices.
Proof.
  intros HB. rewrite batches_concat_prefix. apply take_ge.
  destruct (decide (length indices = 0)%nat) as [E|]; [lia|].
  pose proof (batch_count_ceil B (length indices) HB ltac:(lia)). lia.
Qed.

(** X9.  When the batch loop of a run with a start offset that is not
    negative has returned, every pending index is completed and nothing else
    has been added to the completed set; the metadata and the number of
    entries are as before; every entry has its word, length and count of
    distinct letters; every entry at a pending index has a clue; and every
    other entry is unchanged. *)
Theorem main_loop_completes
    (json_loads : string → option json) (json_dump : option nat → json → list string)
    (a : args) (d : dataset) (fs : gmap string string) (service : nat → nat → reply)
    (tr : list event) (st : run_state) :
  0 ≤ start a →
  main_loop json_loads json_dump a d fs service = (tr, Return (Some st)) →
  ∃ p completed0,
    load_progress json_loads fs = Return p
    ∧ rbind (getitem p "completed_indices") py_set = Return completed0
    ∧ completed_set st
      = list_to_set (indices_to_process (length (words d)) completed0 a) ∪ completed0
    ∧ metadata (data st) = metadata d
    ∧ length (words (data st)) = length (words d)
    ∧ ∀ i e, words d !! i = Some e →
        ∃ e', words (data st) !! i = Some e'
              ∧ word e' = word e
              ∧ word_length e' = word_length e
              ∧ distinctLetters e' = distinctLetters e
              ∧ (Z.of_nat i ∈ indices_to_process (length (words d)) completed0 a →
                 is_Some (clue e'))
              ∧ (Z.of_nat i ∉ indices_to_process (length (words d)) completed0 a →
                 e' = e).
Proof.
  intros Hstart. unfold main_loop. intros H.
  apply bind_lift_inv in H as (p & Hload & H).
  apply bind_lift_inv in H as (completed0 & Hcompleted & H).
  apply bind_lift_inv in H as (cache & _ & H).
  destruct (dry_run a).
  { apply bind_lift_inv in H as (ws & _ & H). by injection H. }
  apply bind_return_inv in H as (tr1 & st1 & tr2 & Hloop & H2 & ->).
  injection H2 as <- <-.
  set (indices := indices_to_process (length (words d)) completed0 a) in *.
  apply batch_loop_spec in Hloop as (Hmeta & Hcomp & Hframe & Hclue).
  2:{ by apply indices_to_process_valid. }
  rewrite batches_concat_all in Hcomp, Hframe, Hclue by (unfold BATCH_SIZE; lia).
  cbn [data metadata words completed_set] in *.
  exists p, completed0. split; [done|]. split; [done|]. split; [done|].
  split; [done|]. destruct Hframe as [Hlen Hframe]. split; [done|].
  intros i e He. destruct (Hframe i e He) as (e' & He' & Hw & Hwl & Hdl & Hsame).
  exists e'. repeat (split; [done|]). split; [|done].
  intros Hin. apply (Hclue i e' He'). by left.
Qed.

(** ** The cost of a run *)

Lemma bind_requests_le {A B} (m : M A) (k : A → M B) (n1 n2 : nat) :
  (length (requests m.1) ≤ n1)%nat →
  (∀ a, (length (requests (k a).1) ≤ n2)%nat) →
  (length (requests (bind m k).1) ≤ n1 + n2)%nat.
Proof.
  intros Hm Hk. rewrite bind_trace, requests_app, length_app.
  destruct m.2 as [a|e]; [specialize (Hk a); lia | simpl; lia].
Qed.

Lemma bind_lift_requests_le {A B} (r : result A) (k : A → M B) (n : nat) :
  (∀ a, (length (requests (k a).1) ≤ n)%nat) →
  (length (requests (bind (lift r) k).1) ≤ n)%nat.
Proof. intros Hk. apply (bind_requests_le _ _ 0%nat n); [simpl; lia | done]. Qed.

Lemma retry_loop_requests_le (json_loads : string → option json) (service : nat → reply)
    (words : list string) (attempts : list nat) :
  (length (requests (retry_loop json_loads service words attempts).1) ≤ length attempts)%nat.
Proof.
  induction attempts as [|t attempts IH]; simpl; [lia|].
  apply (bind_requests_le _ _ 1%nat); [simpl; lia|]. intros _.
  destruct (service t) as [|content]; [|destruct (json_loads content)].
  - apply (bind_requests_le _ _ 0%nat); [|done]. destruct (decide _); simpl; lia.
  - simpl. lia.
  - apply (bind_requests_le _ _ 0%nat); [|done]. destruct (decide _); simpl; lia.
Qed.

Lemma requests_save_progress (json_dump : option nat → json → list string) (p : json) :
  requests (save_progress json_dump p) = [].
Proof.
  unfold save_progress. simpl. induction (json_dump None p) as [|c l IH]; [done|]. apply IH.
Qed.

Lemma run_batch_requests_le json_loads json_dump service B indices count batch_num st :
  (length (requests
     (run_batch json_loads json_dump service B indices count batch_num st).1)
   ≤ MAX_RETRIES)%nat.
Proof.
  unfold run_batch.
  apply bind_lift_requests_le. intros bw.
  apply bind_lift_requests_le. intros _.
  eapply Nat.le_trans; [apply (bind_requests_le _ _ MAX_RETRIES 0%nat)|lia].
  { etrans; [apply retry_loop_requests_le|]. by rewrite length_seq. }
  intros clues.
  apply bind_lift_requests_le. intros items.
  apply bind_lift_requests_le. intros st1.
  apply bind_lift_requests_le. intros p1.
  apply bind_lift_requests_le. intros p2.
  apply (bind_requests_le _ _ 0%nat 0%nat).
  { unfold emit. cbn [fst]. by rewrite requests_save_progress. }
  intros _. apply (bind_requests_le _ _ 0%nat 0%nat); [|intros _; simpl; lia].
  destruct (decide _); simpl; lia.
Qed.

Lemma batch_loop_requests_le json_loads json_dump service B indices count nums st :
  (length (requests
     (batch_loop json_loads json_dump service B indices count nums st).1)
   ≤ MAX_RETRIES * length nums)%nat.
Proof.
  revert st. induction nums as [|n nums IH]; intros st; simpl length; [simpl; lia|].
  cbn [batch_loop].
  eapply Nat.le_trans;
    [apply (bind_requests_le _ _ MAX_RETRIES (MAX_RETRIES * length nums)%nat)|lia];
    [apply run_batch_requests_le | done].
Qed.

Lemma batch_count_mono (B P Q : nat) :
  (0 < B)%nat → (P ≤ Q)%nat → (batch_count B P ≤ batch_count B Q)%nat.
Proof.
  intros HB HPQ. unfold batch_count. apply Nat.Div0.div_le_mono. lia.
Qed.

Lemma length_indices_to_process (total_words : nat) (completed : gset Z) (a : args) :
  (length (indices_to_process total_words completed a)
   ≤ Z.to_nat (end_idx total_words a - start a))%nat.
Proof.
  unfold indices_to_process, py_range.
  etrans; [apply length_filter|]. by rewrite length_seqZ.
Qed.

Lemma requests_final_commit json_dump fs now d :
  requests (final_commit json_dump fs now d) = [].
Proof.
  unfold final_commit. rewrite requests_app. simpl.
  assert (∀ l, requests (Write OUTPUT_FILE <$> l) = []) as ->.
  { intros l. induction l as [|c l IH]; [done | apply IH]. }
  by destruct (decide _).
Qed.

(** X10.  A run sends at most [MAX_RETRIES] requests for each batch of
    [BATCH_SIZE] indices of its range: no more than [MAX_RETRIES] times the
    number of batches that hold the indices from the start offset to the end
    of the range, hence for a start offset that is not negative no more than
    that for the whole dataset, and with a positive [--limit l] no more than
    that for [l] indices. *)
Theorem main_requests_bound
    (json_loads : string → option json) (json_dump : option nat → json → list string)
    (a : args) (env_key : option string) (now : string) (d : dataset)
    (fs : gmap string string) (service : nat → nat → reply) :
  (length (requests (main json_loads json_dump a env_key now d fs service).1)
   ≤ MAX_RETRIES
     * batch_count BATCH_SIZE (Z.to_nat (end_idx (length (words d)) a - start a)))%nat
  ∧ (0 ≤ start a →
     (length (requests (main json_loads json_dump a env_key now d fs service).1)
      ≤ MAX_RETRIES * batch_count BATCH_SIZE (length (words d)))%nat)
  ∧ (∀ l, limit a = Some l → 0 < l →
       (length (requests (main json_loads json_dump a env_key now d fs service).1)
        ≤ MAX_RETRIES * batch_count BATCH_SIZE (Z.to_nat l))%nat).
Proof.
  assert (length (requests (main json_loads json_dump a env_key now d fs service).1)
          ≤ MAX_RETRIES
            * batch_count BATCH_SIZE (Z.to_nat (end_idx (length (words d)) a - start a)))%nat
    as Hbound.
  { assert (length (requests (main_loop json_loads json_dump a d fs service).1)
            ≤ MAX_RETRIES
              * batch_count BATCH_SIZE
                  (Z.to_nat (end_idx (length (words d)) a - start a)))%nat as Hloop.
    { unfold main_loop.
      apply bind_lift_requests_le. intros p.
      apply bind_lift_requests_le. intros completed.
      apply bind_lift_requests_le. intros cache.
      destruct (dry_run a).
      - apply bind_lift_requests_le. intros _. simpl. lia.
      - set (n := (MAX_RETRIES * batch_count BATCH_SIZE
                       (Z.to_nat (end_idx (length (words d)) a - start a)))%nat).
        eapply Nat.le_trans; [apply (bind_requests_le _ _ n 0%nat)|lia];
          [|intros st0; simpl; lia].
        etrans; [apply batch_loop_requests_le|]. rewrite length_seq. unfold n.
        apply Nat.mul_le_mono_l, batch_count_mono; [unfold BATCH_SIZE; lia|].
        apply length_indices_to_process. }
    unfold main. destruct (negb _ && negb _); [simpl; lia|].
    destruct (main_loop _ _ _ _ _ _) as [tr [[st|]|e]]; cbn [fst] in *; try done.
    rewrite requests_app, requests_final_commit, app_nil_r. done. }
  split; [done|]. split.
  - intros Hstart. etrans; [exact Hbound|].
    apply Nat.mul_le_mono_l, batch_count_mono; [unfold BATCH_SIZE; lia|].
    unfold end_idx. destruct (limit a) as [l|]; [destruct (decide _)|]; lia.
  - intros l Hl Hpos. etrans; [exact Hbound|].
    apply Nat.mul_le_mono_l, batch_count_mono; [unfold BATCH_SIZE; lia|].
    unfold end_idx. rewrite Hl. rewrite decide_True by lia. lia.
Qed.

(** ** Pauses *)

Lemma pauses_app (tr1 tr2 : list event) : pauses (tr1 ++ tr2) = (pauses tr1 + pauses tr2)%nat.
Proof. unfold pauses. by rewrite omap_app, length_app. Qed.

Lemma pauses_neutral_retry json_loads service words attempts :
  pauses (retry_loop json_loads service words attempts).1 = 0%nat.
Proof.
  induction attempts as [|t attempts IH]; simpl; [done|].
  rewrite bind_emit. cbn [fst]. rewrite pauses_app. cbn.
  destruct (service t) as [|content]; [|destruct (json_loads content)]; try done;
    destruct (decide _); rewrite ?bind_emit, ?bind_ret; cbn [fst];
    rewrite ?pauses_app, ?IH; done.
Qed.

Lemma pauses_save_progress (json_dump : option nat → json → list string) (p : json) :
  pauses (save_progress json_dump p) = 0%nat.
Proof.
  unfold save_progress, pauses. simpl.
  induction (json_dump None p) as [|c l IH]; [done | apply IH].
Qed.

Lemma generate_clues_batch_requests_pos json_loads service words :
  (1 ≤ length (requests (generate_clues_batch json_loads service words).1))%nat.
Proof.
  unfold generate_clues_batch, MAX_RETRIES. cbn [seq retry_loop].
  rewrite bind_trace, requests_app, length_app. simpl. lia.
Qed.

Lemma last_save_progress (json_dump : option nat → json → list string) (p : json) :
  last (save_progress json_dump p) ≠ Some InterBatchPause.
Proof.
  unfold save_progress.
  destruct (json_dump None p) as [|c l] using rev_ind; [done|].
  rewrite fmap_app. change (Write PROGRESS_FILE <$> [c]) with [Write PROGRESS_FILE c].
  rewrite app_comm_cons, last_snoc. done.
Qed.

Section Pauses.
Variable json_loads : string → option json.
Variable json_dump : option nat → json → list string.

Lemma batch_loop_pauses_from service B indices count (j len : nat) st tr st' :
  (j + len = count)%nat →
  batch_loop json_loads json_dump service B indices count (seq j len) st
  = (tr, Return st') →
  pauses tr = (len - 1)%nat
  ∧ (len ≤ length (requests tr))%nat
  ∧ last tr ≠ Some InterBatchPause.
Proof.
  revert j st tr. induction len as [|len IH]; intros j st tr Hcount; simpl.
  - by intros [= <- _].
  - intros (tr1 & st1 & tr2 & Hrun & Hloop & ->)%bind_return_inv.
    destruct (IH (S j) st1 tr2) as (Hp & Hr & Hl); [lia|done|].
    apply run_batch_inv in Hrun
      as (bw & tr_g & clues & items & st0 & p1 & p2
          & _ & _ & Hg & _ & _ & _ & _ & -> & _).
    pose proof (generate_clues_batch_requests_pos json_loads (service j) bw) as Hpos.
    rewrite Hg in Hpos. cbn [fst] in Hpos.
    pose proof (pauses_neutral_retry json_loads (service j) bw (seq 0 MAX_RETRIES)) as Hn.
    unfold generate_clues_batch in Hg. rewrite Hg in Hn. cbn [fst] in Hn.
    rewrite !pauses_app, !requests_app, !length_app, Hn, pauses_save_progress, Hp.
    destruct (decide (j < count - 1)%nat) as [Hlt|Hge].
    + split; [cbn; lia|]. split; [lia|].
      destruct tr2 as [|ev tr2] using rev_ind; [simpl in Hr; lia|].
      rewrite !(assoc_L (++)), last_snoc. by rewrite last_snoc in Hl.
    + assert (len = 0)%nat as -> by lia. simpl in Hloop. injection Hloop as <- _.
      split; [done|]. split; [lia|].
      rewrite !app_nil_r. rewrite last_app.
      pose proof (last_save_progress json_dump p2) as Hs.
      destruct (last (save_progress json_dump p2)) as [ev|] eqn:Hlast; [done|].
      unfold save_progress in Hlast. by apply last_None in Hlast.
Qed.
End Pauses.

(** X11.  A batch loop over [count] batches that returns has paused
    [count - 1] times, never after its last batch, and has sent at least one
    request for each batch. *)
Theorem batch_loop_pauses
    (json_loads : string → option json) (json_dump : option nat → json → list string)
    (service : nat → nat → reply) (B : nat) (indices : list Z) (count : nat)
    (st st' : run_state) (tr : list event) :
  batch_loop json_loads json_dump service B indices count (seq 0 count) st
  = (tr, Return st') →
  pauses tr = (count - 1)%nat
  ∧ (count ≤ length (requests tr))%nat
  ∧ last tr ≠ Some InterBatchPause.
Proof. by apply batch_loop_pauses_from. Qed.

(** ** Runs at the edges of the range *)

Lemma indices_to_process_nil (total_words : nat) (completed : gset Z) (a : args) :
  (∀ i, start a ≤ i < end_idx total_words a → i ∈ completed) →
  indices_to_process total_words completed a = [].
Proof.
  intros Hall. apply elem_of_nil_inv. intros i Hi.
  apply indices_to_process_spec in Hi as [Hr Hn]. by apply Hn, Hall.
Qed.

(** X12.  When the checkpoint holds every index of the range, the run sends
    no request and saves no checkpoint: it writes the dataset it was given,
    stamped, and removes the checkpoint file if there is one. *)
Theorem main_nothing_pending
    (json_loads : string → option json) (json_dump : option nat → json → list string)
    (a : args) (env_key : option string) (now : string) (d : dataset)
    (fs : gmap string string) (service : nat → nat → reply)
    (p cache : json) (completed : gset Z) :
  py_truthy (if py_truthy (api_key a) then api_key a else env_key) = true →
  dry_run a = false →
  load_progress json_loads fs = Return p →
  rbind (getitem p "completed_indices") py_set = Return completed →
  getitem p "clues" = Return cache →
  (∀ i, start a ≤ i < end_idx (length (words d)) a → i ∈ completed) →
  main json_loads json_dump a env_key now d fs service
  = (OpenW OUTPUT_FILE
       :: (Write OUTPUT_FILE <$> json_dump (Some 2%nat) (dataset_json (stamp now d)))
       ++ (if decide (is_Some (fs !! PROGRESS_FILE)) then [Remove PROGRESS_FILE] else []),
     Return tt).
Proof.
  intros Hkey Hdry Hload Hcompleted Hclues Hall.
  unfold main, main_loop. rewrite Hkey, Hdry, Hload. simpl negb. simpl andb.
  rewrite bind_lift_return, Hcompleted, bind_lift_return, Hclues, bind_lift_return.
  rewrite indices_to_process_nil by done. 
  change (batch_count BATCH_SIZE (length [])) with 0%nat. cbn [seq batch_loop].
  rewrite bind_ret. unfold ret. cbn [app data replay foldl]. unfold final_commit.
  rewrite replay_rewrite_ne by done. done.
Qed.

Lemma indices_to_process_head (total_words : nat) (completed : gset Z) (a : args) :
  start a < end_idx total_words a → start a ∉ completed →
  ∃ rest, indices_to_process total_words completed a = start a :: rest.
Proof.
  intros Hlt Hnot. unfold indices_to_process, py_range.
  rewrite seqZ_cons by lia. rewrite filter_cons_True by done. by eexists.
Qed.

(** X13.  A start offset below [-N] for a dataset of [N] words, not in the
    checkpoint, makes the run (a dry run too) raise [IndexError] at that
    index before any request and any write. *)
Theorem main_start_out_of_range
    (json_loads : string → option json) (json_dump : option nat → json → list string)
    (a : args) (env_key : option string) (now : string) (d : dataset)
    (fs : gmap string string) (service : nat → nat → reply)
    (p cache : json) (completed : gset Z) :
  (py_truthy (if py_truthy (api_key a) then api_key a else env_key) = true
   ∨ dry_run a = true) →
  load_progress json_loads fs = Return p →
  rbind (getitem p "completed_indices") py_set = Return completed →
  getitem p "clues" = Return cache →
  start a < - Z.of_nat (length (words d)) →
  start a < end_idx (length (words d)) a →
  start a ∉ completed →
  main json_loads json_dump a env_key now d fs service = ([], Raise IndexError).
Proof.
  intros Hkey Hload Hcompleted Hclues Hlow Hlt Hnot.
  destruct (indices_to_process_head (length (words d)) completed a Hlt Hnot)
    as [rest Hind].
  assert (∀ A (l : list A), length l = length (words d) →
            list_getitem l (start a) = Raise IndexError) as Hget.
  { intros A l Hl. unfold list_getitem, py_index.
    rewrite decide_False, decide_False by lia. done. }
  assert (main_loop json_loads json_dump a d fs service = ([], Raise IndexError))
    as Hloop.
  { unfold main_loop.
    rewrite Hload, bind_lift_return, Hcompleted, bind_lift_return, Hclues, bind_lift_return.
    rewrite Hind. destruct (dry_run a).
    - cbn [take rmap]. by rewrite Hget.
    - assert (∃ n, batch_count BATCH_SIZE (length (start a :: rest)) = S n) as [n ->].
      { unfold batch_count, BATCH_SIZE. simpl length.
        exists ((S (length rest) + 100 - 1) `div` 100 - 1)%nat.
        assert (1 ≤ (S (length rest) + 100 - 1) `div` 100)%nat; [|lia].
        apply Nat.div_le_lower_bound; lia. }
      cbn [seq batch_loop]. unfold run_batch.
      assert (∃ rest', batch_indices BATCH_SIZE (start a :: rest) 0 = start a :: rest')
        as [rest' ->].
      { rewrite batch_indices_slice. unfold BATCH_SIZE. simpl. by eexists. }
      cbn [rmap data words]. by rewrite Hget. }
  unfold main. rewrite Hloop.
  destruct Hkey as [->| ->]; [done|]. by rewrite andb_false_r.
Qed.

(** ** The stamp *)

(** X14.  The stamp of the final commit sets the keys [cluesGeneratedAt]
    and [cluesModel] of the metadata and nothing else: every other key keeps
    its value, the words are untouched, no key is doubled, and stamping a
    stamped dataset again replaces the two values without adding a key. *)
Theorem stamp_spec (now : string) (d : dataset) :
  dict_get (metadata (stamp now d)) "cluesGeneratedAt" = Some (JStr now)
  ∧ dict_get (metadata (stamp now d)) "cluesModel" = Some (JStr MODEL)
  ∧ (∀ k, k ≠ "cluesGeneratedAt" → k ≠ "cluesModel" →
          dict_get (metadata (stamp now d)) k = dict_get (metadata d) k)
  ∧ (∀ k, k ∈ dict_keys (metadata (stamp now d))
          ↔ k = "cluesGeneratedAt" ∨ k = "cluesModel" ∨ k ∈ dict_keys (metadata d))
  ∧ (NoDup (dict_keys (metadata d)) → NoDup (dict_keys (metadata (stamp now d))))
  ∧ (∀ now', dict_keys (metadata (stamp now' (stamp now d)))
             = dict_keys (metadata (stamp now d)))
  ∧ words (stamp now d) = words d.
Proof.
  unfold stamp. cbn [metadata words].
  split; [|split; [|split; [|split; [|split; [|split; [|done]]]]]].
  - rewrite !dict_get_set. by rewrite decide_False, decide_True.
  - rewrite !dict_get_set. by rewrite decide_True.
  - intros k H1 H2. rewrite !dict_get_set. by rewrite !decide_False.
  - intros k. rewrite !dict_set_keys_elem. naive_solver.
  - intros Hnd. by do 2 apply dict_set_keys_NoDup.
  - intros now'. rewrite (dict_set_keys (dict_set _ "cluesGeneratedAt" (JStr now'))).
    rewrite decide_True.
    2:{ rewrite !dict_set_keys_elem. by right; left. }
    rewrite (dict_set_keys _ "cluesGeneratedAt" (JStr now')).
    rewrite decide_True; [done|].
    rewrite !dict_set_keys_elem. by right; left.
Qed.

(** ** The text handed to the decoder *)

Lemma string_app_cons (c : Ascii.ascii) (s t : string) : String c s +:+ t = String c (s +:+ t).
Proof. reflexivity. Qed.

Lemma string_app_nil_l (t : string) : "" +:+ t = t.
Proof. reflexivity. Qed.

Lemma prefix_app (p s : string) : String.prefix p (p +:+ s) = true.
Proof.
  induction p as [|c p IH]; [by destruct s|].
  rewrite string_app_cons. cbn [String.prefix].
  by destruct (Ascii.ascii_dec c c).
Qed.

Lemma before_fence_prefix (s : string) :
  String.prefix FENCE s = true → before_fence s = "".
Proof. destruct s as [|c s]; [done|]. cbn [before_fence]. by intros ->. Qed.

Lemma before_fence_app (body rest : string) :
  backtick ∉ chars body →
  before_fence (body +:+ FENCE +:+ rest) = body.
Proof.
  induction body as [|c body IH]; intros Hnot.
  - rewrite string_app_nil_l. apply before_fence_prefix, prefix_app.
  - rewrite string_app_cons. cbn [before_fence].
    apply not_elem_of_cons in Hnot as [Hc Hnot].
    assert (String.prefix FENCE (String c (body +:+ FENCE +:+ rest)) = false) as ->.
    { unfold FENCE. cbn [String.prefix]. destruct (Ascii.ascii_dec _ c) as [<-|]; [|done].
      by destruct Hc. }
    by rewrite IH.
Qed.

Lemma before_fence_no_fence (body : string) :
  backtick ∉ chars body → before_fence body = body.
Proof.
  induction body as [|c body IH]; intros Hnot; [done|].
  cbn [before_fence]. apply not_elem_of_cons in Hnot as [Hc Hnot].
  assert (String.prefix FENCE (String c body) = false) as ->.
  { unfold FENCE. cbn [String.prefix]. destruct (Ascii.ascii_dec _ c) as [<-|]; [|done].
    by destruct Hc. }
  by rewrite IH.
Qed.

Lemma py_drop_app (p s : string) : py_drop (String.length p) (p +:+ s) = s.
Proof. induction p as [|c p IH]; [by destruct s | done]. Qed.

Lemma chars_app (s t : string) : chars (s +:+ t) = chars s ++ chars t.
Proof.
  induction s as [|c s IH]; [done|].
  rewrite string_app_cons. unfold chars in *. simpl. by rewrite IH.
Qed.

(** X15.  For a text without a backquote in [body]: an answer that, once
    stripped, is [body] in a code fence with the language tag [json], closed
    or not, is handed to the decoder as the stripped [body]; so is one in a
    fence without a tag when [body] does not start with [json]; an answer that
    does not start with a fence is handed on stripped and otherwise as it
    is. *)
Theorem unwrap_fenced (text body rest : string) :
  backtick ∉ chars body →
  (py_strip text = "```json" +:+ body +:+ FENCE +:+ rest → unwrap text = py_strip body)
  ∧ (py_strip text = "```json" +:+ body → unwrap text = py_strip body)
  ∧ (py_strip text = FENCE +:+ body +:+ FENCE +:+ rest →
     String.prefix "json" body = false →
     unwrap text = py_strip body)
  ∧ (String.prefix FENCE (py_strip text) = false → unwrap text = py_strip text).
Proof.
  intros Hnot. unfold unwrap, split_fence_1.
  assert (backtick ∉ chars ("json" +:+ body)) as Hnot'.
  { rewrite chars_app, not_elem_of_app. split; [|done].
    unfold chars. simpl. rewrite !not_elem_of_cons. repeat split; try done.
    apply not_elem_of_nil. }
  split; [|split; [|split]].
  - intros ->.
    change ("```json" +:+ body +:+ FENCE +:+ rest)
      with ((FENCE +:+ "json") +:+ body +:+ FENCE +:+ rest).
    rewrite string_app_assoc, prefix_app, py_drop_app.
    rewrite <- string_app_assoc, before_fence_app by done.
    by rewrite prefix_app, (py_drop_app "json").
  - intros ->.
    change ("```json" +:+ body) with ((FENCE +:+ "json") +:+ body).
    rewrite string_app_assoc, prefix_app, py_drop_app.
    rewrite before_fence_no_fence by done.
    by rewrite prefix_app, (py_drop_app "json").
  - intros -> Hjson.
    rewrite prefix_app, py_drop_app, before_fence_app by done.
    by rewrite Hjson.
  - by intros ->.
Qed.

(** ** Stripping *)

Lemma lstrip_head (s : string) c s' : lstrip s = String c s' → py_isspace c = false.
Proof.
  induction s as [|c0 s IH]; simpl; [done|].
  destruct (py_isspace c0) eqn:Hc0; [done|]. by intros [= <- _].
Qed.

Lemma rstrip_head s c s' : rstrip s = String c s' → ∃ s0, s = String c s0.
Proof.
  destruct s as [|c0 s]; simpl; [done|].
  destruct (rstrip s); [destruct (py_isspace c0)|]; intros [= -> _]; by eexists.
Qed.

Lemma lstrip_id (s : string) :
  (∀ c s', s = String c s' → py_isspace c = false) → lstrip s = s.
Proof.
  destruct s as [|c s]; [done|]. intros H. simpl. by rewrite (H c s eq_refl).
Qed.

Lemma rstrip_idemp (s : string) : rstrip (rstrip s) = rstrip s.
Proof.
  induction s as [|c s IH]; [done|]. simpl.
  destruct (rstrip s) as [|c' r] eqn:Hr.
  - destruct (py_isspace c) eqn:Hc; [done|]. simpl. by rewrite Hc.
  - change (rstrip (String c (String c' r)))
      with (match rstrip (String c' r) with
            | EmptyString => if py_isspace c then EmptyString else String c EmptyString
            | r0 => String c r0
            end).
    by rewrite IH.
Qed.

Lemma py_strip_idemp (s : string) : py_strip (py_strip s) = py_strip s.
Proof.
  unfold py_strip. rewrite (lstrip_id (rstrip (lstrip s))); [apply rstrip_idemp|].
  intros c s' Hs. apply rstrip_head in Hs as [s0 Hs]. by eapply lstrip_head.
Qed.

Lemma py_strip_head (s : string) c s' : py_strip s = String c s' → py_isspace c = false.
Proof. unfold py_strip. intros [s0 Hs]%rstrip_head. by eapply lstrip_head. Qed.

Lemma length_lstrip (s : string) : (String.length (lstrip s) ≤ String.length s)%nat.
Proof. induction s as [|c s IH]; simpl; [done|]. destruct (py_isspace c); simpl; lia. Qed.

Lemma length_rstrip (s : string) : (String.length (rstrip s) ≤ String.length s)%nat.
Proof.
  induction s as [|c s IH]; simpl; [done|].
  destruct (rstrip s); [destruct (py_isspace c)|]; simpl in *; lia.
Qed.

Lemma length_py_strip (s : string) : (String.length (py_strip s) ≤ String.length s)%nat.
Proof. unfold py_strip. etrans; [apply length_rstrip | apply length_lstrip]. Qed.

Lemma length_py_drop (n : nat) (s : string) :
  (String.length (py_drop n s) ≤ String.length s)%nat.
Proof.
  revert s. induction n as [|n IH]; intros [|c s]; simpl; try lia.
  specialize (IH s). lia.
Qed.

Lemma length_before_fence (s : string) :
  (String.length (before_fence s) ≤ String.length s)%nat.
Proof.
  induction s as [|c s IH]; [done|]. cbn [before_fence].
  destruct (String.prefix _ _); simpl; lia.
Qed.

(** X16.  The text handed to the decoder is stripped: stripping it again
    changes nothing, it does not start with white space, and it is no longer
    than the answer. *)
Theorem unwrap_stripped (text : string) :
  py_strip (unwrap text) = unwrap text
  ∧ (∀ c s, unwrap text = String c s → py_isspace c = false)
  ∧ (String.length (unwrap text) ≤ String.length text)%nat.
Proof.
  unfold unwrap, split_fence_1. destruct (String.prefix FENCE (py_strip text)).
  - split; [apply py_strip_idemp|]. split; [intros c s; apply py_strip_head|].
    etrans; [apply length_py_strip|].
    transitivity (String.length (before_fence (py_drop (String.length FENCE) (py_strip text)))).
    { destruct (String.prefix "json" _); [apply length_py_drop | done]. }
    etrans; [apply length_before_fence|]. etrans; [apply length_py_drop|].
    apply length_py_strip.
  - split; [apply py_strip_idemp|]. split; [intros c s; apply py_strip_head|].
    apply length_py_strip.
Qed.

(** ** The word filter *)

Section Filter.
Variable upper : string → string.
Variable isalpha : string → bool.
Variable INAPPROPRIATE_WORDS : gset string.
Variable INAPPROPRIATE_PREFIXES : list string.

Lemma filter_loop_spec (words filtered : list string) (stats : filter_stats) :
  let normed := (λ w, py_strip (upper w)) <$> words in
  let r := filter_loop upper isalpha INAPPROPRIATE_WORDS INAPPROPRIATE_PREFIXES
             words filtered stats in
  r.1 = filtered ++ filter (kept upper isalpha INAPPROPRIATE_WORDS INAPPROPRIATE_PREFIXES) normed
  ∧ total_input r.2 = total_input stats
  ∧ total_output r.2 = total_output stats
  ∧ removed_non_alpha r.2
    = (removed_non_alpha stats + length (filter (λ w, isalpha w = false) normed))%nat
  ∧ removed_short r.2
    = (removed_short stats
       + length (filter (λ w, isalpha w = true ∧ String.length w < 4) normed))%nat
  ∧ removed_distinct r.2
    = (removed_distinct stats
       + length (filter (λ w, isalpha w = true ∧ 4 ≤ String.length w ∧ 7 < get_distinct_letters upper w)
                   normed))%nat
  ∧ removed_inappropriate r.2
    = (removed_inappropriate stats
       + length (filter (λ w, isalpha w = true ∧ 4 ≤ String.length w ∧ get_distinct_letters upper w ≤ 7
                              ∧ is_inappropriate upper INAPPROPRIATE_WORDS
                                  INAPPROPRIATE_PREFIXES w = true) normed))%nat
  ∧ (removed_non_alpha r.2 + removed_short r.2 + removed_distinct r.2
     + removed_inappropriate r.2 + length r.1
     = removed_non_alpha stats + removed_short stats + removed_distinct stats
       + removed_inappropriate stats + length filtered + length words)%nat.
Proof.
  revert filtered stats. induction words as [|w0 words IH]; intros filtered stats.
  { simpl. rewrite app_nil_r. repeat split; lia. }
  cbn zeta. rewrite fmap_cons. cbn [filter_loop].
  set (w := py_strip (upper w0)). set (normed := (λ w, py_strip (upper w)) <$> words).
  destruct (isalpha w) eqn:Ha; cbn [negb];
    [destruct (String.length w <? 4)%nat eqn:Hs;
     [apply Nat.ltb_lt in Hs
     |apply Nat.ltb_ge in Hs;
      destruct (7 <? get_distinct_letters upper w)%nat eqn:Hd;
      [apply Nat.ltb_lt in Hd
      |apply Nat.ltb_ge in Hd; destruct (is_inappropriate upper INAPPROPRIATE_WORDS INAPPROPRIATE_PREFIXES w) eqn:Hi]]|];
    match goal with |- context [filter_loop _ _ _ _ words ?f ?s] =>
      specialize (IH f s); cbn zeta in IH; fold normed in IH;
      destruct IH as (IH1 & IH2 & IH3 & IH4 & IH5 & IH6 & IH7 & IH8);
      cbn [total_input total_output removed_short removed_distinct
           removed_inappropriate removed_non_alpha] in *
    end;
    rewrite IH1, ?IH2, ?IH3, ?IH4, ?IH5, ?IH6, ?IH7 in *;
    rewrite !(filter_cons _ w);
    repeat match goal with
    | |- context [decide ?P] =>
        first [rewrite (decide_True (P:=P)) by (unfold kept; repeat split; (done || lia || congruence))
              |rewrite (decide_False (P:=P)) by (unfold kept; intros ?; destruct_and?; (done || lia || congruence))]
    end;
    rewrite ?length_app in *; simpl length in *;
    rewrite <- ?(assoc_L (++)); simpl app;
    repeat split; try done; lia.
Qed.
End Filter.

Lemma filter_words_filter
    (upper : string → string) (isalpha : string → bool)
    (INAPPROPRIATE_WORDS : gset string) (INAPPROPRIATE_PREFIXES : list string)
    (words : list string) :
  (filter_words upper isalpha INAPPROPRIATE_WORDS INAPPROPRIATE_PREFIXES words).1
  = filter (kept upper isalpha INAPPROPRIATE_WORDS INAPPROPRIATE_PREFIXES)
      ((λ w, py_strip (upper w)) <$> words).
Proof.
  unfold filter_words.
  pose proof (filter_loop_spec upper isalpha INAPPROPRIATE_WORDS INAPPROPRIATE_PREFIXES
                words []
                {| total_input := length words; removed_short := 0;
                   removed_distinct := 0; removed_inappropriate := 0;
                   removed_non_alpha := 0; total_output := 0 |}) as [H _].
  destruct (filter_loop _ _ _ _ _ _ _) as [filtered stats]. exact H.
Qed.

Lemma filter_words_kept_elem
    (upper : string → string) (isalpha : string → bool)
    (INAPPROPRIATE_WORDS : gset string) (INAPPROPRIATE_PREFIXES : list string)
    (words : list string) (w : string) :
  w ∈ (filter_words upper isalpha INAPPROPRIATE_WORDS INAPPROPRIATE_PREFIXES words).1 →
  kept upper isalpha INAPPROPRIATE_WORDS INAPPROPRIATE_PREFIXES w.
Proof. rewrite filter_words_filter. by intros [? _]%list_elem_of_filter. Qed.

(** X17.  [filter_words] returns, in the order of the input, the
    normalised words (upper case, stripped) that pass its four tests: a word
    is in the result exactly when it is the normalised form of an input word,
    is alphabetic, has at least 4 characters and at most 7 distinct letters,
    and is not inappropriate. *)
Theorem filter_words_kept
    (upper : string → string) (isalpha : string → bool)
    (INAPPROPRIATE_WORDS : gset string) (INAPPROPRIATE_PREFIXES : list string)
    (words : list string) :
  (filter_words upper isalpha INAPPROPRIATE_WORDS INAPPROPRIATE_PREFIXES words).1
  = filter (kept upper isalpha INAPPROPRIATE_WORDS INAPPROPRIATE_PREFIXES)
      ((λ w, py_strip (upper w)) <$> words)
  ∧ (∀ w, w ∈ (filter_words upper isalpha INAPPROPRIATE_WORDS INAPPROPRIATE_PREFIXES
                 words).1
          ↔ (∃ w0, w0 ∈ words ∧ w = py_strip (upper w0))
            ∧ isalpha w = true
            ∧ (4 ≤ String.length w)%nat
            ∧ (get_distinct_letters upper w ≤ 7)%nat
            ∧ is_inappropriate upper INAPPROPRIATE_WORDS INAPPROPRIATE_PREFIXES w = false)
  ∧ (filter_words upper isalpha INAPPROPRIATE_WORDS INAPPROPRIATE_PREFIXES words).1
    `sublist_of` ((λ w, py_strip (upper w)) <$> words).
Proof.
  pose proof (filter_words_filter upper isalpha INAPPROPRIATE_WORDS
                INAPPROPRIATE_PREFIXES words) as Heq.
  split; [done|]. rewrite Heq. split.
  - intros w. rewrite list_elem_of_filter, list_elem_of_fmap. unfold kept. naive_solver.
  - apply sublist_filter.
Qed.

(** X18.  The statistics of [filter_words] add up: the input count is the
    number of words given, the output count the number of words returned, and
    every input word is counted once, under the first test it fails or as
    output: not alphabetic; alphabetic and shorter than 4; of more than 7
    distinct letters; inappropriate. *)
Theorem filter_words_stats
    (upper : string → string) (isalpha : string → bool)
    (INAPPROPRIATE_WORDS : gset string) (INAPPROPRIATE_PREFIXES : list string)
    (words : list string) :
  let normed := (λ w, py_strip (upper w)) <$> words in
  let filtered :=
    (filter_words upper isalpha INAPPROPRIATE_WORDS INAPPROPRIATE_PREFIXES words).1 in
  let stats :=
    (filter_words upper isalpha INAPPROPRIATE_WORDS INAPPROPRIATE_PREFIXES words).2 in
  total_input stats = length words
  ∧ total_output stats = length filtered
  ∧ (total_input stats
     = removed_non_alpha stats + removed_short stats + removed_distinct stats
       + removed_inappropriate stats + total_output stats)%nat
  ∧ removed_non_alpha stats = length (filter (λ w, isalpha w = false) normed)
  ∧ removed_short stats
    = length (filter (λ w, isalpha w = true ∧ String.length w < 4)%nat normed)
  ∧ removed_distinct stats
    = length (filter (λ w, isalpha w = true ∧ 4 ≤ String.length w
                           ∧ 7 < get_distinct_letters upper w)%nat normed)
  ∧ removed_inappropriate stats
    = length (filter (λ w, isalpha w = true ∧ (4 ≤ String.length w)%nat
                           ∧ (get_distinct_letters upper w ≤ 7)%nat
                           ∧ is_inappropriate upper INAPPROPRIATE_WORDS
                               INAPPROPRIATE_PREFIXES w = true) normed).
Proof.
  cbn zeta. unfold filter_words.
  pose proof (filter_loop_spec upper isalpha INAPPROPRIATE_WORDS INAPPROPRIATE_PREFIXES
                words []
                {| total_input := length words; removed_short := 0;
                   removed_distinct := 0; removed_inappropriate := 0;
                   removed_non_alpha := 0; total_output := 0 |})
    as (H1 & H2 & H3 & H4 & H5 & H6 & H7 & H8).
  destruct (filter_loop _ _ _ _ _ _ _) as [filtered stats].
  cbn [fst snd total_input total_output removed_short removed_distinct
       removed_inappropriate removed_non_alpha] in *.
  simpl length in H8. repeat split; try done; lia.
Qed.

(** ** Counters *)

Lemma counter_get_count_up (d : counter) (k k' : nat) :
  counter_get (count_up d k) k'
  = (counter_get d k' + if decide (k = k') then 1 else 0)%nat.
Proof.
  induction d as [|[k0 n] d IH]; simpl.
  - destruct (decide (k = k')); simpl; lia.
  - destruct (decide (k0 = k)) as [->|Hne]; simpl.
    + destruct (decide (k = k')); lia.
    + rewrite IH. destruct (decide (k0 = k')) as [->|?]; [|done].
      rewrite decide_False by done. lia.
Qed.

Lemma count_up_keys (d : counter) (k : nat) :
  (count_up d k).*1 = if decide (k ∈ d.*1) then d.*1 else d.*1 ++ [k].
Proof.
  induction d as [|[k0 n] d IH].
  - destruct (decide (k ∈ ([] : counter).*1)) as [Hin|_]; [|done].
    by apply not_elem_of_nil in Hin.
  - cbn [count_up]. destruct (decide (k0 = k)) as [->|Hne].
    + rewrite decide_True by apply list_elem_of_here. done.
    + rewrite !fmap_cons, IH. cbn [fst].
      destruct (decide (k ∈ d.*1)) as [Hin|Hnin].
      * by rewrite decide_True by by apply list_elem_of_further.
      * rewrite decide_False; [done|]. intros [->|?]%elem_of_cons; done.
Qed.

Lemma count_up_NoDup (d : counter) (k : nat) : NoDup d.*1 → NoDup (count_up d k).*1.
Proof.
  intros Hd. rewrite count_up_keys. destruct (decide (k ∈ d.*1)); [done|].
  apply NoDup_app. split; [done|]. split; [|apply NoDup_singleton].
  intros x Hx ->%list_elem_of_singleton. done.
Qed.

Lemma count_up_positive (d : counter) (k : nat) :
  Forall (λ kv, 0 < kv.2)%nat d → Forall (λ kv, 0 < kv.2)%nat (count_up d k).
Proof.
  induction 1 as [|[k0 n] d Hn Hd IH]; simpl.
  - repeat constructor.
  - destruct (decide (k0 = k)); constructor; simpl in *; (done || lia).
Qed.

Lemma count_up_total (d : counter) (k : nat) :
  sum_list (count_up d k).*2 = S (sum_list d.*2).
Proof.
  induction d as [|[k0 n] d IH]; [done|]. cbn [count_up].
  destruct (decide (k0 = k)); rewrite !fmap_cons; cbn [snd]; simpl sum_list_with; [done|].
  rewrite IH. lia.
Qed.

Lemma counter_get_elem (d : counter) (k n : nat) :
  NoDup d.*1 → (k, n) ∈ d → counter_get d k = n.
Proof.
  induction d as [|[k0 n0] d IH]; intros Hnd Hin; [by apply not_elem_of_nil in Hin|].
  rewrite fmap_cons in Hnd. apply NoDup_cons in Hnd as [Hnot Hnd]. simpl.
  apply elem_of_cons in Hin as [[= <- <-]|Hin].
  - by rewrite decide_True.
  - rewrite decide_False; [by apply IH|]. intros ->. apply Hnot.
    apply list_elem_of_fmap. by exists (k, n).
Qed.

Lemma counter_get_pos_elem (d : counter) (k : nat) :
  (0 < counter_get d k)%nat → (k, counter_get d k) ∈ d.
Proof.
  induction d as [|[k0 n0] d IH]; simpl; [lia|].
  destruct (decide (k0 = k)) as [->|?]; intros H.
  - apply list_elem_of_here.
  - apply list_elem_of_further. by apply IH.
Qed.

(** What a counter holds after counting a list of keys. *)
Lemma count_all_spec (ks : list nat) (d : counter) :
  NoDup d.*1 → Forall (λ kv, 0 < kv.2)%nat d →
  NoDup (foldl count_up d ks).*1
  ∧ Forall (λ kv, 0 < kv.2)%nat (foldl count_up d ks)
  ∧ sum_list (foldl count_up d ks).*2 = (sum_list d.*2 + length ks)%nat
  ∧ ∀ k, counter_get (foldl count_up d ks) k
         = (counter_get d k + length (filter (λ k', k' = k) ks))%nat.
Proof.
  revert d. induction ks as [|k0 ks IH]; intros d Hnd Hpos; simpl.
  - repeat split; try done; intros; lia.
  - destruct (IH (count_up d k0)) as (H1 & H2 & H3 & H4);
      [by apply count_up_NoDup | by apply count_up_positive|].
    split; [done|]. split; [done|]. split.
    + rewrite H3, count_up_total. lia.
    + intros k. rewrite H4, counter_get_count_up, filter_cons.
      destruct (decide (k0 = k)); simpl; lia.
Qed.

Lemma key_le_strict (d : counter) :
  StronglySorted key_le d → NoDup d.*1 → StronglySorted lt d.*1.
Proof.
  induction 1 as [|[k n] d _ IH Hall]; intros Hnd; [constructor|].
  rewrite fmap_cons in Hnd |- *. apply NoDup_cons in Hnd as [Hnot Hnd].
  constructor; [by apply IH|].
  apply Forall_fmap, Forall_forall. intros [k' n'] Hin.
  rewrite Forall_forall in Hall. specialize (Hall _ Hin). unfold key_le in Hall.
  simpl in *. assert (k ≠ k'); [|lia].
  intros ->. apply Hnot. apply list_elem_of_fmap. by exists (k', n').
Qed.

Lemma key_le_trans : Transitive key_le.
Proof. intros x y z. unfold key_le. lia. Qed.

Lemma key_le_total : Total key_le.
Proof. intros x y. unfold key_le. lia. Qed.

(** The sorted items of a counter that has counted the keys [ks]. *)
Lemma sorted_items_spec (ks : list nat) :
  StronglySorted lt (sorted_items (foldl count_up [] ks)).*1
  ∧ sum_list (sorted_items (foldl count_up [] ks)).*2 = length ks
  ∧ ∀ k n, (k, n) ∈ sorted_items (foldl count_up [] ks)
           ↔ (0 < n)%nat ∧ n = length (filter (λ k', k' = k) ks).
Proof.
  destruct (count_all_spec ks []) as (Hnd & Hpos & Hsum & Hget);
    [constructor | constructor |].
  pose proof (merge_sort_Permutation key_le (foldl count_up [] ks)) as Hperm.
  fold (sorted_items (foldl count_up [] ks)) in Hperm.
  split; [|split].
  - apply key_le_strict.
    + apply (@StronglySorted_merge_sort _ key_le _ key_le_trans key_le_total).
    + by rewrite Hperm.
  - rewrite Hperm. exact Hsum.
  - intros k n. rewrite Hperm. specialize (Hget k). simpl in Hget. split.
    + intros Hin. rewrite Forall_forall in Hpos. split; [apply (Hpos _ Hin)|].
      rewrite <- Hget. symmetry. by apply counter_get_elem.
    + intros [Hn ->]. rewrite <- Hget. apply counter_get_pos_elem. lia.
Qed.

(** ** The dataset the processor writes *)

Lemma entries_loop_spec (upper : string → string) (ws : list string)
    (es : list word_entry) (ld dd : counter) :
  foldl (entries_step upper) (es, ld, dd) ws
  = (es ++ ((λ w, new_entry w (get_distinct_letters upper w)) <$> ws),
     foldl count_up ld (String.length <$> ws),
     foldl count_up dd (get_distinct_letters upper <$> ws)).
Proof.
  revert es ld dd. induction ws as [|w ws IH]; intros es ld dd; simpl.
  - by rewrite app_nil_r.
  - rewrite IH. by rewrite <- (assoc_L (++)).
Qed.

Lemma build_output_words upper isalpha table prefixes raw now :
  words (build_output upper isalpha table prefixes raw now)
  = (λ w, new_entry w (get_distinct_letters upper w))
      <$> merge_sort String.le (filter_words upper isalpha table prefixes raw).1.
Proof.
  unfold build_output.
  destruct (filter_words upper isalpha table prefixes raw) as [filtered stats].
  rewrite entries_loop_spec. done.
Qed.

Lemma build_output_entry upper isalpha table prefixes raw now e :
  e ∈ words (build_output upper isalpha table prefixes raw now) →
  kept upper isalpha table prefixes (word e)
  ∧ e = new_entry (word e) (get_distinct_letters upper (word e)).
Proof.
  rewrite build_output_words. intros (w & -> & Hin)%list_elem_of_fmap.
  rewrite merge_sort_Permutation in Hin. apply filter_words_kept_elem in Hin. done.
Qed.

(** X19.  [process_dictionary] returns, and writes to the dataset file, a
    dataset whose words are the words [filter_words] kept, in increasing
    order; [totalWords] is their number; every entry passes the four tests of
    the filter, holds the placeholder clue ["Define: " + word], the length of
    its word, which is at least 4, and its count of distinct letters, which
    is at most 7. *)
Theorem process_dictionary_entries
    (upper : string → string) (isalpha : string → bool)
    (INAPPROPRIATE_WORDS : gset string) (INAPPROPRIATE_PREFIXES : list string)
    (json_dump : option nat → json → list string)
    (raw : list string) (now : string) (fs : gmap string string) :
  ∃ tr d,
    process_dictionary upper isalpha INAPPROPRIATE_WORDS INAPPROPRIATE_PREFIXES
      json_dump raw now = (tr, Return d)
    ∧ replay fs tr !! OUTPUT_FILE
      = Some (text_of (json_dump (Some 2%nat) (dataset_json d)))
    ∧ word <$> words d
      ≡ₚ (filter_words upper isalpha INAPPROPRIATE_WORDS INAPPROPRIATE_PREFIXES raw).1
    ∧ StronglySorted String.le (word <$> words d)
    ∧ dict_get (metadata d) "totalWords" = Some (JInt (Z.of_nat (length (words d))))
    ∧ ∀ e, e ∈ words d →
        kept upper isalpha INAPPROPRIATE_WORDS INAPPROPRIATE_PREFIXES (word e)
        ∧ clue e = Some (fallback_clue (word e))
        ∧ word_length e = Z.of_nat (String.length (word e))
        ∧ distinctLetters e = Z.of_nat (get_distinct_letters upper (word e))
        ∧ 4 ≤ word_length e
        ∧ 0 ≤ distinctLetters e ≤ 7.
Proof.
  eexists _, _. split.
  { unfold process_dictionary. rewrite bind_emit. reflexivity. }
  cbn [app fst snd]. rewrite app_nil_r.
  set (d := build_output upper isalpha INAPPROPRIATE_WORDS INAPPROPRIATE_PREFIXES
              raw now).
  pose proof (build_output_words upper isalpha INAPPROPRIATE_WORDS
                INAPPROPRIATE_PREFIXES raw now) as Hwords. fold d in Hwords.
  assert (word <$> words d
          = merge_sort String.le
              (filter_words upper isalpha INAPPROPRIATE_WORDS INAPPROPRIATE_PREFIXES
                 raw).1) as Hw.
  { rewrite Hwords, <- list_fmap_compose. apply list_fmap_id. }
  split; [apply replay_rewrite|]. split; [rewrite Hw; apply merge_sort_Permutation|].
  split; [rewrite Hw; apply (StronglySorted_merge_sort String.le)|]. split.
  - unfold d, build_output.
    destruct (filter_words _ _ _ _ _) as [filtered stats].
    destruct (foldl _ _ _) as [[es ld] dd]. done.
  - intros e [Hk He]%build_output_entry. rewrite He.
    cbn [word clue word_length distinctLetters new_entry].
    destruct Hk as (Ha & Hl & Hd & Hi).
    repeat split; try done; lia.
Qed.

Lemma length_filter_fmap_iff {A B} (f : A → B) (P : B → Prop) (Q : A → Prop)
    `{!∀ y, Decision (P y)} `{!∀ x, Decision (Q x)} (l : list A) :
  (∀ x, P (f x) ↔ Q x) → length (filter P (f <$> l)) = length (filter Q l).
Proof.
  intros HPQ. induction l as [|x l IH]; [done|].
  rewrite fmap_cons, !filter_cons.
  destruct (decide (P (f x))) as [HP|HP], (decide (Q x)) as [HQ|HQ]; simpl;
    rewrite ?IH; try done; apply HPQ in HP || apply HPQ in HQ; done.
Qed.

(** X20.  The two distributions in the metadata are sorted by key without
    a doubled key; a key is present exactly when some entry has that length
    (that count of distinct letters), with the number of such entries as its
    value; the values of each distribution add up to the number of entries;
    no length below 4 and no count of distinct letters above 7 is a key. *)
Theorem process_dictionary_distributions
    (upper : string → string) (isalpha : string → bool)
    (INAPPROPRIATE_WORDS : gset string) (INAPPROPRIATE_PREFIXES : list string)
    (raw : list string) (now : string) :
  let d := build_output upper isalpha INAPPROPRIATE_WORDS INAPPROPRIATE_PREFIXES raw now in
  ∃ ld dd : counter,
    dict_get (metadata d) "lengthDistribution" = Some (counter_json ld)
    ∧ dict_get (metadata d) "distinctLetterDistribution" = Some (counter_json dd)
    ∧ StronglySorted lt ld.*1
    ∧ StronglySorted lt dd.*1
    ∧ sum_list ld.*2 = length (words d)
    ∧ sum_list dd.*2 = length (words d)
    ∧ (∀ k n, (k, n) ∈ ld
              ↔ (0 < n)%nat
                ∧ n = length (filter (λ e, word_length e = Z.of_nat k) (words d)))
    ∧ (∀ k n, (k, n) ∈ dd
              ↔ (0 < n)%nat
                ∧ n = length (filter (λ e, distinctLetters e = Z.of_nat k) (words d)))
    ∧ (∀ k n, (k, n) ∈ ld → (4 ≤ k)%nat)
    ∧ (∀ k n, (k, n) ∈ dd → (k ≤ 7)%nat).
Proof.
  intros d.
  pose proof (build_output_words upper isalpha INAPPROPRIATE_WORDS
                INAPPROPRIATE_PREFIXES raw now) as Hwords. fold d in Hwords.
  pose proof (build_output_entry upper isalpha INAPPROPRIATE_WORDS
                INAPPROPRIATE_PREFIXES raw now) as Hentry. fold d in Hentry.
  set (ws := merge_sort String.le
               (filter_words upper isalpha INAPPROPRIATE_WORDS INAPPROPRIATE_PREFIXES
                  raw).1) in *.
  destruct (sorted_items_spec (String.length <$> ws)) as (Hls & Hlsum & Hl).
  destruct (sorted_items_spec (get_distinct_letters upper <$> ws)) as (Hds & Hdsum & Hd).
  rewrite length_fmap in Hlsum, Hdsum.
  assert (length (words d) = length ws) as Hlen by by rewrite Hwords, length_fmap.
  assert (∀ k, length (filter (λ k', k' = k) (String.length <$> ws))
               = length (filter (λ e, word_length e = Z.of_nat k) (words d))) as Hlcount.
  { intros k. rewrite Hwords.
    rewrite (length_filter_fmap_iff _ _ (λ w, String.length w = k)).
    - symmetry. apply length_filter_fmap_iff. intros w. simpl. lia.
    - done. }
  assert (∀ k, length (filter (λ k', k' = k) (get_distinct_letters upper <$> ws))
               = length (filter (λ e, distinctLetters e = Z.of_nat k) (words d)))
    as Hdcount.
  { intros k. rewrite Hwords.
    rewrite (length_filter_fmap_iff _ _ (λ w, get_distinct_letters upper w = k)).
    - symmetry. apply length_filter_fmap_iff. intros w. simpl. lia.
    - done. }
  assert (∀ (P : word_entry → Prop) `{!∀ e, Decision (P e)},
            (0 < length (filter P (words d)))%nat → ∃ e, e ∈ words d ∧ P e) as Hex.
  { intros P HP Hpos. destruct (filter P (words d)) as [|e l] eqn:Hf; [simpl in Hpos; lia|].
    exists e. apply and_comm, (list_elem_of_filter P). rewrite Hf. apply list_elem_of_here. }
  exists (sorted_items (foldl count_up [] (String.length <$> ws))),
         (sorted_items (foldl count_up [] (get_distinct_letters upper <$> ws))).
  split; [|split].
  - unfold d, build_output.
    destruct (filter_words _ _ _ _ _) as [filtered stats]. cbn [fst] in *.
    rewrite entries_loop_spec. done.
  - unfold d, build_output.
    destruct (filter_words _ _ _ _ _) as [filtered stats]. cbn [fst] in *.
    rewrite entries_loop_spec. done.
  - split; [done|]. split; [done|]. split; [congruence|]. split; [congruence|].
    split; [intros k n; by rewrite Hl, Hlcount|].
    split; [intros k n; by rewrite Hd, Hdcount|]. split.
    + intros k n [Hn ->]%Hl. rewrite Hlcount in Hn.
      apply Hex in Hn as (e & [Hk He]%Hentry & Hwl).
      rewrite He in Hwl. simpl in Hwl. destruct Hk as (_ & ? & _). lia.
    + intros k n [Hn ->]%Hd. rewrite Hdcount in Hn.
      apply Hex in Hn as (e & [Hk He]%Hentry & Hwl).
      rewrite He in Hwl. simpl in Hwl. destruct Hk as (_ & _ & ? & _). lia.
Qed.

(** ** A run with the service down *)

Lemma set_clue_placeholder (e : word_entry) :
  clue e = Some (fallback_clue (word e)) → set_clue e (fallback_clue (word e)) = e.
Proof. destruct e. simpl. unfold set_clue. simpl. by intros ->. Qed.

Lemma merge_same (pairs : list (Z * json)) (st st' : run_state) :
  merge st pairs = Return st' →
  (∀ idx c, (idx, c) ∈ pairs →
     ∀ e, list_getitem (words (data st)) idx = Return e → set_clue e c = e) →
  words (data st') = words (data st).
Proof.
  revert st. induction pairs as [|[idx c] pairs IH]; intros st; simpl.
  - by intros [= <-].
  - intros (st1 & Hone & Hrest)%rbind_return_inv Hsame.
    unfold merge_one in Hone.
    apply rbind_return_inv in Hone as (ws1 & Hws & Hone).
    apply rbind_return_inv in Hone as (cache1 & Hcache & [= <-]).
    assert (ws1 = words (data st)) as ->.
    { unfold words_set_clue in Hws.
      pose proof (Hsame idx c (list_elem_of_here _ _)) as Hidx.
      unfold list_getitem in Hidx.
      destruct (py_index (length (words (data st))) idx) as [p|]; [|done].
      destruct (words (data st) !! p) as [e|] eqn:He; [|done].
      injection Hws as <-. rewrite (Hidx e eq_refl). by apply list_insert_id. }
    rewrite (IH _ Hrest); [done|]. cbn [data words].
    intros idx' c' Hin. apply Hsame. by apply list_elem_of_further.
Qed.

Section Down.
Variable json_loads : string → option json.
Variable json_dump : option nat → json → list string.

Lemma run_batch_service_down service B indices count batch_num st tr st' :
  placeholder_clues (words (data st)) →
  (∀ t, (t < MAX_RETRIES)%nat → fails json_loads (service t)) →
  run_batch json_loads json_dump service B indices count batch_num st = (tr, Return st') →
  data st' = data st.
Proof.
  intros Hph Hdown Hrun.
  apply run_batch_inv in Hrun
    as (bw & tr_g & clues & items & st1 & p1 & p2
        & Hbw & _ & Hg & Hitems & Hmerge & _ & _ & _ & ->).
  destruct (generate_clues_batch_fallback json_loads service bw Hdown) as [tr' Hg'].
  rewrite Hg in Hg'. injection Hg' as _ ->. injection Hitems as <-.
  cbn [data]. apply merge_same in Hmerge as Hwords.
  - apply merge_spec in Hmerge as (Hmeta & _).
    destruct (data st1), (data st). simpl in *. congruence.
  - intros idx c [q Hq]%list_elem_of_lookup e He.
    unfold zip in Hq. apply lookup_zip_with_Some in Hq as (i & c' & [= <- <-] & Hi & Hc).
    destruct (batch_words_lookup _ _ _ Hbw q idx Hi) as (e' & He' & Hw).
    rewrite He in He'. injection He' as <-.
    rewrite list_lookup_fmap, Hw in Hc. injection Hc as <-.
    apply set_clue_placeholder, Hph.
    unfold list_getitem in He. destruct (py_index _ _) as [p|]; [|done].
    destruct (words (data st) !! p) as [e0|] eqn:He0; [|done]. injection He as ->.
    by eapply list_elem_of_lookup_2.
Qed.

Lemma batch_loop_service_down service B indices count nums st tr st' :
  placeholder_clues (words (data st)) →
  (∀ k t, (t < MAX_RETRIES)%nat → fails json_loads (service k t)) →
  batch_loop json_loads json_dump service B indices count nums st = (tr, Return st') →
  data st' = data st.
Proof.
  intros Hph Hdown. revert st tr Hph. induction nums as [|n nums IH]; intros st tr Hph; simpl.
  - by intros [= _ <-].
  - intros (tr1 & st1 & tr2 & Hrun & Hloop & ->)%bind_return_inv.
    apply run_batch_service_down in Hrun as Hdata; [|done|apply Hdown].
    rewrite <- Hdata. eapply IH; [|done]. by rewrite Hdata.
Qed.
End Down.

(** The dataset [process_dictionary] writes holds placeholders only. *)
Lemma build_output_placeholder upper isalpha table prefixes raw now :
  placeholder_clues (words (build_output upper isalpha table prefixes raw now)).
Proof. intros e [_ ->]%build_output_entry. reflexivity. Qed.

Lemma replay_final_commit (json_dump : option nat → json → list string)
    (fs0 fs : gmap string string) (now : string) (d : dataset) :
  replay fs (final_commit json_dump fs0 now d) !! OUTPUT_FILE
  = Some (text_of (json_dump (Some 2%nat) (dataset_json (stamp now d)))).
Proof.
  unfold final_commit. rewrite replay_app.
  destruct (decide _); simpl replay.
  - rewrite lookup_delete_ne by done. apply replay_rewrite.
  - apply replay_rewrite.
Qed.

(** X21.  On a dataset whose clues are all placeholders, as
    [process_dictionary] writes it, a run during which every attempt fails
    changes no entry: the batch loop ends with the dataset it started with,
    and the dataset file holds that dataset with the stamp of the run. *)
Theorem main_service_down
    (json_loads : string → option json) (json_dump : option nat → json → list string)
    (a : args) (env_key : option string) (now : string) (d : dataset)
    (fs : gmap string string) (service : nat → nat → reply) (tr : list event) :
  placeholder_clues (words d) →
  (∀ k t, (t < MAX_RETRIES)%nat → fails json_loads (service k t)) →
  dry_run a = false →
  main json_loads json_dump a env_key now d fs service = (tr, Return tt) →
  (∃ pre st, main_loop json_loads json_dump a d fs service = (pre, Return (Some st))
             ∧ data st = d)
  ∧ replay fs tr !! OUTPUT_FILE
    = Some (text_of (json_dump (Some 2%nat) (dataset_json (stamp now d)))).
Proof.
  intros Hph Hdown Hdry. unfold main. rewrite Hdry.
  destruct (negb _ && negb false); [done|].
  destruct (main_loop _ _ _ _ _ _) as [pre [o|e]] eqn:Hloop; [|done].
  apply main_loop_events in Hloop as Hev. destruct Hev as [_ Hsome].
  destruct (Hsome Hdry) as [st ->]. intros [= <-].
  assert (data st = d) as Hdata.
  { unfold main_loop in Hloop. rewrite Hdry in Hloop.
    apply bind_lift_inv in Hloop as (p & _ & H).
    apply bind_lift_inv in H as (completed & _ & H).
    apply bind_lift_inv in H as (cache & _ & H).
    apply bind_return_inv in H as (tr1 & st1 & tr2 & Hbl & H2 & _).
    injection H2 as _ <-.
    by apply batch_loop_service_down in Hbl. }
  split; [by exists pre, st|].
  rewrite replay_app, Hdata. apply replay_final_commit.
Qed.

(** * Examples

    Each theorem with a hypothesis is used once on a concrete run. *)

Lemma checkpoint_ok_empty (total_words : nat) : checkpoint_ok total_words (JObj []) ∅.
Proof.
  split; [|set_solver]. exists []. split; [done|]. split; [constructor|].
  intros k. split; [by intros ?%not_elem_of_nil | set_solver].
Qed.

(** Two words.  An answer that is an array of one clue: the second word
    gets the placeholder.  An answer that is an object of one clue: the
    padding raises. *)
Lemma generate_clues_batch_length_witness :
  (∃ tr r,
     generate_clues_batch (loads_among [JArr [JStr "a fruit"]])
       (service_says (compact (JArr [JStr "a fruit"]))) ["apple"; "pear"]
     = (tr, Return (JArr r))
     ∧ length r = 2%nat
     ∧ r !! 1%nat = Some (JStr "Define: pear"))
  ∧ generate_clues_batch (loads_among [JObj [("apple", JStr "a fruit")]])
      (service_says (compact (JObj [("apple", JStr "a fruit")]))) ["apple"; "pear"]
    = ([Request ["apple"; "pear"]], Raise AttributeError).
Proof.
  split.
  - destruct (proj1 (proj2 (generate_clues_batch_length
                       (loads_among [JArr [JStr "a fruit"]])
                       (service_says (compact (JArr [JStr "a fruit"])))
                       ["apple"; "pear"]))
                0%nat (compact (JArr [JStr "a fruit"])) [JStr "a fruit"])
      as (tr & r & Hrun & Hlen & _ & Hpad).
    + unfold MAX_RETRIES. lia.
    + intros s Hs. lia.
    + reflexivity.
    + vm_compute. reflexivity.
    + exists tr, r. split; [exact Hrun|]. split; [exact Hlen|].
      apply (Hpad 1%nat "pear"); [reflexivity | simpl; lia].
  - apply (proj2 (proj2 (generate_clues_batch_length
                    (loads_among [JObj [("apple", JStr "a fruit")]])
                    (service_says (compact (JObj [("apple", JStr "a fruit")])))
                    ["apple"; "pear"]))
             (compact (JObj [("apple", JStr "a fruit")])) [("apple", JStr "a fruit")]).
    + reflexivity.
    + vm_compute. reflexivity.
    + simpl. lia.
Defined.

(** The service answers [42]. *)
Lemma generate_clues_batch_raises_witness :
  generate_clues_batch (loads_among [JInt 42]) (service_says "42") ["apple"]
  = ([Request ["apple"]], Raise TypeError).
Proof.
  apply (proj2 (generate_clues_batch_raises (loads_among [JInt 42]) (service_says "42")
                  ["apple"]) "42" 42); [reflexivity | vm_compute; reflexivity].
Defined.

(** The service never answers with JSON. *)
Lemma retry_delays_witness :
  sleeps (generate_clues_batch (loads_among []) (service_says "sorry") ["apple"]).1
  = [5; 5].
Proof.
  apply (proj1 (retry_delays (loads_among []) (service_says "sorry") ["apple"])).
  intros t _. exists "sorry". split; reflexivity.
Defined.

(** C3 as stated fails: a process killed right after [save_progress] has
    opened the file leaves it empty on the disk, which is neither the
    previous checkpoint nor the new one. *)
Lemma save_progress_not_atomic :
  on_disk {[ PROGRESS_FILE := compact ex_checkpoint_1 ]}
    (take 1 (save_progress compact_dump ex_checkpoint_2))
    (<[PROGRESS_FILE := ""]> {[ PROGRESS_FILE := compact ex_checkpoint_1 ]})
  ∧ (<[PROGRESS_FILE := ""]> {[ PROGRESS_FILE := compact ex_checkpoint_1 ]}
       : gmap string string) !! PROGRESS_FILE = Some ""
  ∧ "" ≠ compact ex_checkpoint_1
  ∧ "" ≠ text_of (compact_dump None ex_checkpoint_2).
Proof.
  split; [apply on_disk_opened|]. split; [reflexivity|].
  split; vm_compute; discriminate.
Qed.

(** A checkpoint file cut short by a crash. *)
Lemma load_progress_corrupt_witness :
  load_progress (loads_among [ex_checkpoint_1]) {[ PROGRESS_FILE := "{" ]}
  = Raise JSONDecodeError
  ∧ main (loads_among [ex_checkpoint_1]) compact_dump ex_args None "2024-11-05T10:00:00"
      ex_data {[ PROGRESS_FILE := "{" ]} (λ _, service_down)
    = ([], Raise JSONDecodeError).
Proof.
  destruct (proj1 (load_progress_corrupt (loads_among [ex_checkpoint_1]) compact_dump
                     {[ PROGRESS_FILE := "{" ]}) "{") as [Hload Hmain].
  - reflexivity.
  - vm_compute. reflexivity.
  - split; [exact Hload|]. apply Hmain. reflexivity.
Defined.


(** [--limit 0] on three words: all three are pending. *)
Lemma indices_to_process_limit_0_witness :
  end_idx 3 ex_args_limit_0 = 3
  ∧ indices_to_process 3 ∅ ex_args_limit_0 = [0; 1; 2].
Proof.
  split; [|reflexivity].
  apply (indices_to_process_limit_0 3 ∅ ex_args_limit_0). reflexivity.
Defined.

(** Five pending indices in batches of two. *)
Lemma batches_partition_witness :
  batches 2 [10; 11; 12; 13; 14] = [[10; 11]; [12; 13]; [14]]
  ∧ concat (batches 2 [10; 11; 12; 13; 14]) = [10; 11; 12; 13; 14].
Proof.
  split; [reflexivity|].
  apply (batches_partition 2 [10; 11; 12; 13; 14]); simpl; lia.
Defined.

(** The first batch of two of a first run over three words, with the
    service down. *)
Lemma run_batch_checkpoint_witness :
  ∃ tr st',
    run_batch (loads_among []) compact_dump service_down 2
      (indices_to_process 3 ∅ ex_args) 2 0 ex_state = (tr, Return st')
    ∧ checkpoint_ok (length (words (data st'))) (clues_cache st') (completed_set st')
    ∧ completed_set st' = ∅ ∪ list_to_set [0; 1].
Proof.
  destruct (run_batch (loads_among []) compact_dump service_down 2
              (indices_to_process 3 ∅ ex_args) 2 0 ex_state)
    as [tr [st'|e]] eqn:Hrun; [|by vm_compute in Hrun].
  destruct (run_batch_checkpoint (loads_among []) compact_dump service_down 2
              ex_args ∅ 2 0 ex_state st' tr ∅) as (Hok & _ & Hcomp & _).
  - simpl. lia.
  - apply checkpoint_ok_empty.
  - exact Hrun.
  - exists tr, st'. split; [reflexivity|]. split; [exact Hok | exact Hcomp].
Defined.

(** C6 as stated fails: with [--start -1 --limit 1] the run starts from the
    empty checkpoint, which satisfies the invariant, and its one batch
    leaves [-1] in the completed set, which is no index of 0..2. *)
Lemma run_batch_checkpoint_negative_start :
  ∃ tr st',
    main_loop (loads_among []) compact_dump ex_args_negative ex_data ∅ (λ _, service_down)
    = (tr, Return (Some st'))
    ∧ checkpoint_ok 3 (JObj []) ∅
    ∧ elements (completed_set st') = [-1]
    ∧ ¬ checkpoint_ok 3 (clues_cache st') (completed_set st').
Proof.
  eexists _, _. split; [vm_compute; reflexivity|].
  split; [apply checkpoint_ok_empty|].
  assert (∀ (c : json) (X : gset Z), elements X = [-1] → ¬ checkpoint_ok 3 c X) as Hno.
  { intros c X HX [_ Hrange]. specialize (Hrange (-1)).
    assert (-1 ∈ X) as Hin by (apply elem_of_elements; rewrite HX; set_solver).
    apply Hrange in Hin. lia. }
  split; [vm_compute; reflexivity|]. apply Hno. vm_compute. reflexivity.
Qed.

(** A first batch of two: the third entry is as it was. *)
Lemma run_batch_frame_witness :
  ∃ tr st',
    run_batch (loads_among []) compact_dump service_down 2
      (indices_to_process 3 ∅ ex_args) 2 0 ex_state = (tr, Return st')
    ∧ metadata (data st') = metadata ex_data
    ∧ words (data st') !! 2%nat = words ex_data !! 2%nat.
Proof.
  destruct (run_batch (loads_among []) compact_dump service_down 2
              (indices_to_process 3 ∅ ex_args) 2 0 ex_state)
    as [tr [st'|e]] eqn:Hrun; [|by vm_compute in Hrun].
  destruct (run_batch_frame (loads_among []) compact_dump service_down 2
              ex_args ∅ 2 0 ex_state st' tr) as (Hmeta & _ & Hframe).
  - simpl. lia.
  - exact Hrun.
  - exists tr, st'. split; [reflexivity|]. split; [exact Hmeta|].
    destruct (Hframe 2%nat _ eq_refl) as (e' & He' & _ & _ & _ & Hsame).
    rewrite He'. simpl. f_equal. apply Hsame.
    assert (batch_indices 2 (indices_to_process (length (words (data ex_state))) ∅ ex_args) 0
            = [0; 1]) as -> by reflexivity.
    set_solver.
Defined.

(** C10 as stated fails: with [--start -1 --limit 1] the batch is [[-1]],
    index 2 is not in it, and the merge gives entry 2 a clue. *)
Lemma run_batch_frame_negative_start :
  ∃ tr st',
    run_batch (loads_among []) compact_dump service_down BATCH_SIZE
      (indices_to_process 3 ∅ ex_args_negative) 1 0 ex_state = (tr, Return st')
    ∧ batch_indices BATCH_SIZE (indices_to_process 3 ∅ ex_args_negative) 0 = [-1]
    ∧ clue <$> words (data ex_state) !! 2%nat = Some None
    ∧ clue <$> words (data st') !! 2%nat = Some (Some (JStr "Define: camel")).
Proof.
  eexists _, _. split; [vm_compute; reflexivity|].
  split; [vm_compute; reflexivity|]. split; reflexivity.
Qed.

(** A first run over three words with the service down. *)
Lemma final_commit_order_witness :
  ∃ tr,
    main (loads_among []) compact_dump ex_args None "2024-11-05T10:00:00"
      ex_data ∅ (λ _, service_down) = (tr, Return tt)
    ∧ is_Some (replay ∅ tr !! OUTPUT_FILE)
    ∧ replay ∅ tr !! PROGRESS_FILE = None.
Proof.
  destruct (main (loads_among []) compact_dump ex_args None "2024-11-05T10:00:00"
              ex_data ∅ (λ _, service_down))
    as [tr [[]|e]] eqn:Hrun; [|by vm_compute in Hrun].
  destruct (final_commit_order (loads_among []) compact_dump ex_args None
              "2024-11-05T10:00:00" ex_data ∅ (λ _, service_down) tr eq_refl Hrun)
    as (pre & st & _ & _ & _ & _ & Hout & Hprog).
  exists tr. split; [reflexivity|]. split; [|exact Hprog]. rewrite Hout. by eexists.
Defined.

Lemma generate_clues_batch_stops_witness :
  ∃ tr,
    generate_clues_batch (loads_among [ex_clues]) (service_recovers (compact ex_clues))
      ["able"; "baker"; "camel"]
    = (tr, Return ex_clues)
    ∧ requests tr = [["able"; "baker"; "camel"]; ["able"; "baker"; "camel"]]
    ∧ length (sleeps tr) = 1%nat.
Proof.
  destruct (proj1 (generate_clues_batch_stops (loads_among [ex_clues])
                     (service_recovers (compact ex_clues)) ["able"; "baker"; "camel"]
                     1%nat (compact ex_clues) ex_clues
                     ltac:(unfold MAX_RETRIES; lia)
                     ltac:(intros [|s] Hs; [exact I | lia])
                     eq_refl ltac:(vm_compute; reflexivity)))
    as (tr & Hrun & Hreq & Hsl).
  exists tr. split; [exact Hrun|]. split; [exact Hreq | exact Hsl].
Defined.

(** The service answers [42]: the batch raises at the first attempt. *)
Lemma generate_clues_batch_exceptions_witness :
  ∃ t content v,
    service_says "42" t = Responds content
    ∧ loads_among [JInt 42] content = Some v
    ∧ (∀ l, v ≠ JArr l)
    ∧ requests [Request ["apple"]] = replicate (S t) ["apple"].
Proof.
  destruct (generate_clues_batch_exceptions (loads_among [JInt 42]) (service_says "42")
              ["apple"] [Request ["apple"]] TypeError
              ltac:(vm_compute; reflexivity))
    as (_ & _ & t & content & v & _ & _ & Hs & Hv & Hnarr & Hreq).
  by exists t, content, v.
Defined.

(** A dry run over three words, without a key. *)
Lemma main_dry_run_witness :
  main (loads_among []) compact_dump ex_args_dry None "2024-11-05T10:00:00"
    ex_data ∅ (λ _, service_down) = ([], Return tt).
Proof.
  apply (proj2 (proj2 (main_dry_run (loads_among []) compact_dump ex_args_dry None
                         "2024-11-05T10:00:00" ex_data ∅ (λ _, service_down) eq_refl))
           [("completed_indices", JArr []); ("clues", JObj [])] ∅ (JObj []));
    [simpl; lia | reflexivity | reflexivity | reflexivity].
Defined.

(** A run whose first answer is [42]. *)
Lemma main_failure_witness :
  run_main (loads_among [JInt 42]) compact_dump (Parsed ex_args) None
    "2024-11-05T10:00:00" (Loaded ex_data) ∅ (λ _, service_says "42")
  = ([Request ["able"; "baker"; "camel"]], Raise TypeError)
  ∧ replay ∅ [Request ["able"; "baker"; "camel"]] !! OUTPUT_FILE
    = (∅ : gmap string string) !! OUTPUT_FILE.
Proof.
  assert (run_main (loads_among [JInt 42]) compact_dump (Parsed ex_args) None
            "2024-11-05T10:00:00" (Loaded ex_data) ∅ (λ _, service_says "42")
          = ([Request ["able"; "baker"; "camel"]], Raise TypeError)) as Hrun
    by (vm_compute; reflexivity).
  split; [exact Hrun|].
  apply (main_failure _ _ _ _ _ _ _ _ _ _ Hrun).
Defined.

(** A first batch of three words that the service answers with three
    clues. *)
Lemma run_batch_stores_clues_witness :
  ∃ tr st' e c,
    run_batch (loads_among [ex_clues]) compact_dump (service_says (compact ex_clues))
      BATCH_SIZE (indices_to_process 3 ∅ ex_args) 1 0 ex_state = (tr, Return st')
    ∧ words ex_data !! 1%nat = Some e
    ∧ words (data st') !! 1%nat = Some (set_clue e c)
    ∧ getitem (clues_cache st') "1" = Return c.
Proof.
  destruct (run_batch (loads_among [ex_clues]) compact_dump
              (service_says (compact ex_clues)) BATCH_SIZE
              (indices_to_process 3 ∅ ex_args) 1 0 ex_state)
    as [tr [st'|e]] eqn:Hrun; [|by vm_compute in Hrun].
  destruct (run_batch_stores_clues (loads_among [ex_clues]) compact_dump
              (service_says (compact ex_clues)) BATCH_SIZE ex_args ∅ []
              1 0 ex_state st' tr ltac:(simpl; lia) eq_refl Hrun)
    as (bw & tr_g & clues & items & _ & _ & Hall).
  destruct (Hall 1%nat 1 eq_refl) as (e & c & He & _ & _ & He' & Hc).
  exists tr, st', e, c. split; [reflexivity|]. split; [exact He|].
  split; [exact He' | exact Hc].
Defined.

(** The checkpoint a first batch of two leaves, read back. *)
Lemma run_batch_resume_witness :
  ∃ tr st',
    run_batch (loads_among [ex_checkpoint_fallback]) compact_dump service_down 2
      (indices_to_process 3 ∅ ex_args) 2 0 ex_state = (tr, Return st')
    ∧ load_progress (loads_among [ex_checkpoint_fallback]) (replay ∅ tr)
      = Return (progress st')
    ∧ indices_to_process 3 (completed_set st') ex_args = [2].
Proof.
  destruct (run_batch (loads_among [ex_checkpoint_fallback]) compact_dump service_down 2
              (indices_to_process 3 ∅ ex_args) 2 0 ex_state)
    as [tr [st'|e]] eqn:Hrun; [|by vm_compute in Hrun].
  assert (loads_among [ex_checkpoint_fallback]
            (text_of (compact_dump None (progress st'))) = Some (progress st')) as Hcodec.
  { vm_compute in Hrun. injection Hrun as _ <-. vm_compute. reflexivity. }
  destruct (run_batch_resume (loads_among [ex_checkpoint_fallback]) compact_dump
              service_down 2 (indices_to_process 3 ∅ ex_args) 2 0 ex_state st' tr ∅
              Hrun Hcodec) as (Hload & _ & _ & Hpending).
  exists tr, st'. split; [reflexivity|]. split; [exact Hload|].
  rewrite Hpending. reflexivity.
Defined.


(** A first run over three words with the service down: every index ends up
    completed. *)
Lemma main_loop_completes_witness :
  ∃ tr st,
    main_loop (loads_among []) compact_dump ex_args ex_data ∅ (λ _, service_down)
    = (tr, Return (Some st))
    ∧ completed_set st = list_to_set [0; 1; 2] ∪ ∅
    ∧ length (words (data st)) = 3%nat.
Proof.
  destruct (main_loop (loads_among []) compact_dump ex_args ex_data ∅ (λ _, service_down))
    as [tr [[st|]|e]] eqn:Hrun; [|by vm_compute in Hrun..].
  destruct (main_loop_completes (loads_among []) compact_dump ex_args ex_data ∅
              (λ _, service_down) tr st ltac:(simpl; lia) Hrun)
    as (p & completed0 & Hload & Hcompleted & Hcomp & _ & Hlen & _).
  injection Hload as <-. injection Hcompleted as <-.
  exists tr, st. split; [reflexivity|]. split; [exact Hcomp | exact Hlen].
Defined.

(** Three pending indices in batches of two: one pause. *)
Lemma batch_loop_pauses_witness :
  ∃ tr st',
    batch_loop (loads_among []) compact_dump (λ _, service_down) 2 [0; 1; 2] 2
      (seq 0 2) ex_state = (tr, Return st')
    ∧ pauses tr = 1%nat.
Proof.
  destruct (batch_loop (loads_among []) compact_dump (λ _, service_down) 2 [0; 1; 2] 2
              (seq 0 2) ex_state)
    as [tr [st'|e]] eqn:Hrun; [|by vm_compute in Hrun].
  exists tr, st'. split; [reflexivity|].
  apply (batch_loop_pauses (loads_among []) compact_dump (λ _, service_down) 2
           [0; 1; 2] 2 ex_state st' tr Hrun).
Defined.

(** A run that finds every index in the checkpoint. *)
Lemma main_nothing_pending_witness :
  main (loads_among [ex_checkpoint_3]) compact_dump ex_args None "2024-11-05T10:00:00"
    ex_data {[ PROGRESS_FILE := compact ex_checkpoint_3 ]} (λ _, service_down)
  = ([OpenW OUTPUT_FILE;
      Write OUTPUT_FILE (compact (dataset_json (stamp "2024-11-05T10:00:00" ex_data)));
      Remove PROGRESS_FILE],
     Return tt).
Proof.
  etrans.
  - apply (main_nothing_pending (loads_among [ex_checkpoint_3]) compact_dump ex_args None
             "2024-11-05T10:00:00" ex_data {[ PROGRESS_FILE := compact ex_checkpoint_3 ]}
             (λ _, service_down) ex_checkpoint_3
             (JObj [("0", JStr "can do"); ("1", JStr "bread maker");
                    ("2", JStr "desert animal")])
             (list_to_set [0; 1; 2])).
    + reflexivity.
    + reflexivity.
    + vm_compute. reflexivity.
    + reflexivity.
    + reflexivity.
    + intros i Hi. unfold end_idx in Hi. simpl in Hi.
      assert (i = 0 ∨ i = 1 ∨ i = 2) as [-> | [-> | ->]] by lia; set_solver.
  - vm_compute. reflexivity.
Defined.

(** [--start -5] on three words. *)
Lemma main_start_out_of_range_witness :
  main (loads_among []) compact_dump ex_args_below None "2024-11-05T10:00:00"
    ex_data ∅ (λ _, service_down) = ([], Raise IndexError).
Proof.
  apply (main_start_out_of_range (loads_among []) compact_dump ex_args_below None
           "2024-11-05T10:00:00" ex_data ∅ (λ _, service_down)
           empty_progress (JObj []) ∅).
  - by left.
  - reflexivity.
  - reflexivity.
  - reflexivity.
  - vm_compute. reflexivity.
  - vm_compute. reflexivity.
  - set_solver.
Defined.

(** A first run over three words with the service down. *)
Lemma main_returns_witness :
  ∃ tr, main (loads_among []) compact_dump ex_args None "2024-11-05T10:00:00"
          ex_data ∅ (λ _, service_down) = (tr, Return tt).
Proof.
  apply (main_returns (loads_among []) compact_dump ex_args None "2024-11-05T10:00:00"
           ex_data ∅ (λ _, service_down)
           [("completed_indices", JArr []); ("clues", JObj [])] ∅ []).
  - reflexivity.
  - reflexivity.
  - simpl. lia.
  - reflexivity.
  - reflexivity.
  - reflexivity.
  - intros k t. exact I.
Defined.

(** An answer in a fence with a language tag. *)
Lemma unwrap_fenced_witness : unwrap ex_fenced = "[1, 2]".
Proof.
  assert (backtick ∉ chars (newline +:+ "[1, 2]" +:+ newline)) as Hnot.
  { unfold chars. simpl. rewrite !not_elem_of_cons. repeat split; try done.
    apply not_elem_of_nil. }
  rewrite (proj1 (unwrap_fenced ex_fenced (newline +:+ "[1, 2]" +:+ newline) "" Hnot)).
  - reflexivity.
  - reflexivity.
Defined.

(** The processor on a small word list. *)
Lemma filter_words_example :
  filter_words ex_upper ex_isalpha ex_words_table ex_prefixes_table ex_download
  = (["CAMEL"; "ABLE"; "BAKER"],
     {| total_input := 8; removed_short := 1; removed_distinct := 1;
        removed_inappropriate := 2; removed_non_alpha := 1; total_output := 3 |}).
Proof. vm_compute. reflexivity. Qed.

Lemma build_output_example :
  words (build_output ex_upper ex_isalpha ex_words_table ex_prefixes_table ex_download
           "2024-11-05T09:00:00")
  = [ {| word := "ABLE"; clue := Some (JStr "Define: ABLE");
         word_length := 4; distinctLetters := 4 |};
      {| word := "BAKER"; clue := Some (JStr "Define: BAKER");
         word_length := 5; distinctLetters := 5 |};
      {| word := "CAMEL"; clue := Some (JStr "Define: CAMEL");
         word_length := 5; distinctLetters := 5 |} ].
Proof. vm_compute. reflexivity. Qed.

(** The generator on the dataset of the processor, with the service down:
    the entries are written back as they were. *)
Lemma main_service_down_witness :
  ∃ tr,
    main (loads_among []) compact_dump ex_args None "2024-11-05T10:00:00"
      (build_output ex_upper ex_isalpha ex_words_table ex_prefixes_table ex_download
         "2024-11-05T09:00:00") ∅ (λ _, service_down) = (tr, Return tt)
    ∧ replay ∅ tr !! OUTPUT_FILE
      = Some (text_of (compact_dump (Some 2%nat)
                (dataset_json
                   (stamp "2024-11-05T10:00:00"
                      (build_output ex_upper ex_isalpha ex_words_table ex_prefixes_table
                         ex_download "2024-11-05T09:00:00"))))).
Proof.
  destruct (main (loads_among []) compact_dump ex_args None "2024-11-05T10:00:00"
              (build_output ex_upper ex_isalpha ex_words_table ex_prefixes_table
                 ex_download "2024-11-05T09:00:00") ∅ (λ _, service_down))
    as [tr [[]|e]] eqn:Hrun; [|by vm_compute in Hrun].
  exists tr. split; [reflexivity|].
  apply (main_service_down (loads_among []) compact_dump ex_args None
           "2024-11-05T10:00:00" _ ∅ (λ _, service_down) tr).
  - apply build_output_placeholder.
  - intros k t _. exact I.
  - reflexivity.
  - exact Hrun.
Defined.
